(** * Parsera client: retry controller, deadline wrapper and event bus

    A shallow embedding of [src/services/parsera.ts].  The client is a class
    with mutable fields; here its readonly fields form a [Config], its
    mutable fields (the two registries and [lastRequestTime]) live in a
    [State] that is threaded explicitly, and the platform the class runs on
    (clock, timers, [fetch], the [URL] parser, promise scheduling) is made
    explicit:

    - time is a virtual clock in milliseconds ([now]); only timers and the
      transport let it advance, and a timer waits the way the timers of Node
      do ([timer_delay]);
    - a thrown JavaScript value is a [Thrown]; an async function is a state
      transformer that ends in [Ok] or [Raise];
    - an event handler is a finite program of observable actions separated by
      suspension points ([Prog]); handlers that were started and have not
      finished are [Task]s, and they take turns in FIFO order the way promise
      jobs do;
    - everything observable is appended to [trace]. *)

From Stdlib Require Import ZArith String List Bool Lia.
From stdpp Require Import gmap strings list fin_maps.

Set Warnings "-register-all".

Local Open Scope string_scope.
Local Open Scope list_scope.
Local Open Scope Z_scope.

(** ** Values *)

(** [error.name] and [error.message] of a JavaScript [Error]. *)
Record JsError := mkError { name : string; message : string }.

(** [new Error(msg)]. *)
Definition newError (msg : string) : JsError := mkError "Error" msg.

(** What a [catch] clause receives: an [Error] instance, or any other
    thrown value (the code tests [error instanceof Error]). *)
Inductive Thrown :=
| ThrownError (e : JsError)
| ThrownValue (v : string).

(** Completion of an async function: resolved or rejected. *)
Inductive Res (A : Type) :=
| Ok (a : A)
| Raise (t : Thrown).
Arguments Ok {A} a.
Arguments Raise {A} t.

(** [haystack.includes(needle)]. *)
Fixpoint includes (needle hay : string) : bool :=
  String.prefix needle hay ||
  match hay with
  | EmptyString => false
  | String _ rest => includes needle rest
  end.

(** JavaScript truthiness of a string and of an optional boolean. *)
Definition truthy_string (s : string) : bool := negb (s =? "")%string.

Definition truthy (b : option bool) : bool := default false b.

(** [a || b] on an optional string with a string fallback. *)
Definition or_else (a : option string) (b : string) : string :=
  match a with
  | Some s => if truthy_string s then s else b
  | None => b
  end.

(** ** Requests and responses *)

Record ParseraAttribute := { attr_name : string; attr_description : string }.

(** [attributes: ParseraAttribute[] | Record<string, string>]; the record
    form is kept as its entries in iteration order. *)
Inductive AttributesArg :=
| AttrArray (l : list ParseraAttribute)
| AttrRecord (entries : list (string * string)).

Definition ParseraCookie : Type := list (string * string).

(** [signal] is the instant at which the caller's [AbortSignal] fires, when
    one is supplied and it fires at all. *)
Record ExtractOptions := {
  url : string;
  attributes : AttributesArg;
  proxyCountry : option string;
  cookies : option (list ParseraCookie);
  precisionMode : option bool;
  signal : option Z
}.

Record ParseraRequestBody := {
  body_url : string;
  body_attributes : list ParseraAttribute;
  proxy_country : option string;
  body_cookies : option (list ParseraCookie);
  mode : option string
}.

Definition Row : Type := list (string * string).

(** A parsed JSON body, seen through [ParseraResponse] and [ParseraError]. *)
Record ParseraResponse := {
  resp_data : option (list Row);
  resp_message : option string
}.

(** [response.json()] resolves with the parsed body or rejects. *)
Inductive JsonResult :=
| JsonBody (b : ParseraResponse)
| JsonFailure (t : Thrown).

Record Response := {
  status : Z;
  statusText : string;
  json : JsonResult
}.

(** [response.ok]: the status is in the range 200-299. *)
Definition ok (r : Response) : bool := (200 <=? status r) && (status r <=? 299).

(** ** Events *)

Inductive EventPayload :=
| PayloadExtract (o : ExtractOptions)
| PayloadRetry (retryCount : Z)
| PayloadResponse (b : ParseraResponse).

Record ParseraEvent := {
  type : string;
  timestamp : Z;
  data : option EventPayload;
  error : option Thrown;
  retryCount : option Z
}.

(** A handler's run on one event: observable actions, suspension points
    ([Yield], an [await] inside the handler), and how it ends. *)
Inductive Prog :=
| Ret
| Throw (t : Thrown)
| Act (a : string) (k : Prog)
| Yield (k : Prog).

(** Handlers are kept in a [Set], which compares them by identity: [hid]. *)
Record ParseraEventHandler := {
  hid : nat;
  hrun : ParseraEvent -> Prog
}.

Record ParseraEventOptions := {
  async : option bool;
  catchErrors : option bool
}.

(** ** Observations *)

(** What a run appends to the trace.  A call of the transport is recorded
    with its number and the instant at which it starts; the two waits are
    recorded with the delay handed to [setTimeout]. *)
Inductive Obs :=
| ObsEmit (ty : string) (d : option EventPayload) (err : option Thrown)
| ObsHandlerStart (h : nat) (ty : string)
| ObsAct (h : nat) (a : string)
| ObsHandlerEnd (h : nat) (ty : string)
| ObsHandlerFail (h : nat) (t : Thrown)
| ObsGate (delay : Z)
| ObsFetch (n : nat) (start : Z) (target : string) (b : ParseraRequestBody)
| ObsBackoff (delay : Z).

(** ** Client state *)

(** A started [handleEvent]: either still inside the handler ([TRun], with
    the [catchErrors] flag its closure captured), or inside its [catch]
    clause awaiting the emission of [handler:error] ([TWait], a
    [Promise.all] over the started handlers of that emission). *)
Inductive Task :=
| TRun (h : nat) (ty : string) (catch : bool) (k : Prog)
| TWait (cs : list Task).

Inductive TaskResult :=
| Finished
| Rejected (t : Thrown)
| Still (task : Task).

Record State := {
  eventHandlers : gmap string (list ParseraEventHandler);
  eventOptions : gmap string ParseraEventOptions;
  lastRequestTime : Z;
  now : Z;
  fetchCalls : nat;
  background : list Task;
  trace : list Obs
}.

Definition log (o : Obs) (st : State) : State :=
  {| eventHandlers := eventHandlers st; eventOptions := eventOptions st;
     lastRequestTime := lastRequestTime st; now := now st;
     fetchCalls := fetchCalls st; background := background st;
     trace := trace st ++ [o] |}.

Definition logs (os : list Obs) (st : State) : State :=
  {| eventHandlers := eventHandlers st; eventOptions := eventOptions st;
     lastRequestTime := lastRequestTime st; now := now st;
     fetchCalls := fetchCalls st; background := background st;
     trace := trace st ++ os |}.

Definition set_background (bg : list Task) (st : State) : State :=
  {| eventHandlers := eventHandlers st; eventOptions := eventOptions st;
     lastRequestTime := lastRequestTime st; now := now st;
     fetchCalls := fetchCalls st; background := bg;
     trace := trace st |}.

(** Tasks nobody awaits any more keep running behind the main flow. *)
Definition detach (ts : list Task) (st : State) : State :=
  set_background (background st ++ ts) st.

Definition set_now (t : Z) (st : State) : State :=
  {| eventHandlers := eventHandlers st; eventOptions := eventOptions st;
     lastRequestTime := lastRequestTime st; now := t;
     fetchCalls := fetchCalls st; background := background st;
     trace := trace st |}.

Definition set_lastRequestTime (t : Z) (st : State) : State :=
  {| eventHandlers := eventHandlers st; eventOptions := eventOptions st;
     lastRequestTime := t; now := now st;
     fetchCalls := fetchCalls st; background := background st;
     trace := trace st |}.

Definition count_fetch (st : State) : State :=
  {| eventHandlers := eventHandlers st; eventOptions := eventOptions st;
     lastRequestTime := lastRequestTime st; now := now st;
     fetchCalls := S (fetchCalls st); background := background st;
     trace := trace st |}.

(** ** The async monad *)

(** An async function of the main flow.  [None] means that the run did not
    finish within the number of scheduler turns it was given. *)
Definition M (A : Type) : Type := State -> option (State * Res A).

Definition ret {A} (a : A) : M A := fun st => Some (st, Ok a).

Definition throw {A} (t : Thrown) : M A := fun st => Some (st, Raise t).

Definition bind {A B} (m : M A) (k : A -> M B) : M B :=
  fun st =>
    match m st with
    | None => None
    | Some (st1, Ok a) => k a st1
    | Some (st1, Raise t) => Some (st1, Raise t)
    end.

(** [try { m } catch (error) { h error }]. *)
Definition try_catch {A} (m : M A) (h : Thrown -> M A) : M A :=
  fun st =>
    match m st with
    | None => None
    | Some (st1, Ok a) => Some (st1, Ok a)
    | Some (st1, Raise t) => h t st1
    end.

Notation "'let*' x ':=' m 'in' k" := (bind m (fun x => k))
  (at level 10, x name, m at level 100, k at level 200).
Notation "m ';;' k" := (bind m (fun _ => k))
  (at level 100, k at level 200, right associativity).

(** ** Event bus *)

(** [on(eventType, handler, options)].  [Set.add] keeps an already present
    handler in place; the options of the type are overwritten. *)
Definition set_add (h : ParseraEventHandler) (hs : list ParseraEventHandler)
  : list ParseraEventHandler :=
  if existsb (fun h' => Nat.eqb (hid h') (hid h)) hs then hs else hs ++ [h].

Definition set_delete (h : ParseraEventHandler) (hs : list ParseraEventHandler)
  : list ParseraEventHandler :=
  List.filter (fun h' => negb (Nat.eqb (hid h') (hid h))) hs.

Definition on (eventType : string) (handler : ParseraEventHandler)
    (options : ParseraEventOptions) (st : State) : State :=
  {| eventHandlers :=
       <[eventType := set_add handler (default [] (eventHandlers st !! eventType))]>
         (eventHandlers st);
     eventOptions :=
       <[eventType := {| async := Some (default false (async options));
                         catchErrors := Some (default true (catchErrors options)) |}]>
         (eventOptions st);
     lastRequestTime := lastRequestTime st; now := now st;
     fetchCalls := fetchCalls st; background := background st;
     trace := trace st |}.

(** [on] called without its third argument. *)
Definition no_options : ParseraEventOptions := {| async := None; catchErrors := None |}.

Definition off (eventType : string) (handler : ParseraEventHandler) (st : State) : State :=
  {| eventHandlers :=
       match eventHandlers st !! eventType with
       | Some hs => <[eventType := set_delete handler hs]> (eventHandlers st)
       | None => eventHandlers st
       end;
     eventOptions := eventOptions st;
     lastRequestTime := lastRequestTime st; now := now st;
     fetchCalls := fetchCalls st; background := background st;
     trace := trace st |}.

Definition removeAllListeners (eventType : option string) (st : State) : State :=
  {| eventHandlers :=
       match eventType with
       | Some ty => if truthy_string ty then delete ty (eventHandlers st) else ∅
       | None => ∅
       end;
     eventOptions := eventOptions st;
     lastRequestTime := lastRequestTime st; now := now st;
     fetchCalls := fetchCalls st; background := background st;
     trace := trace st |}.

(** Run a handler up to its next suspension point. *)
Inductive Ending :=
| EndRet
| EndThrow (t : Thrown)
| EndYield (k : Prog).

Fixpoint run_prog (h : nat) (p : Prog) : list Obs * Ending :=
  match p with
  | Ret => ([], EndRet)
  | Throw t => ([], EndThrow t)
  | Yield k => ([], EndYield k)
  | Act a k => let '(os, e) := run_prog h k in (ObsAct h a :: os, e)
  end.

Definition stills (rs : list TaskResult) : list Task :=
  omap (fun r => match r with Still t => Some t | _ => None end) rs.

Fixpoint first_rejection (rs : list TaskResult) : option Thrown :=
  match rs with
  | [] => None
  | Rejected t :: _ => Some t
  | _ :: rs' => first_rejection rs'
  end.

(** [Promise.all] over started tasks: it rejects with the first rejection and
    leaves the other tasks running unobserved; otherwise it waits for those
    that are still running. *)
Definition join (rs : list TaskResult) : TaskResult * list Task :=
  match first_rejection rs with
  | Some t => (Rejected t, stills rs)
  | None =>
      match stills rs with
      | [] => (Finished, [])
      | ts => (Still (TWait ts), [])
      end
  end.

(** Give each element its turn, in order, threading the state. *)
Fixpoint run_all {A} (f : A -> State -> option (State * TaskResult))
    (l : list A) (st : State) : option (State * list TaskResult) :=
  match l with
  | [] => Some (st, [])
  | x :: l' =>
      match f x st with
      | None => None
      | Some (st1, r) =>
          match run_all f l' st1 with
          | None => None
          | Some (st2, rs) => Some (st2, r :: rs)
          end
      end
  end.

(** The body of [handleEvent] from the point where the handler (re)starts:
    [try { await handler(event) } catch (error) { if (!options.catchErrors)
    throw error; await this.emit("handler:error", undefined, error) }]. *)
Definition resume
    (emit_rec : string -> option EventPayload -> option Thrown ->
                State -> option (State * TaskResult))
    (h : nat) (ty : string) (catch : bool) (p : Prog) (st : State)
  : option (State * TaskResult) :=
  let '(os, e) := run_prog h p in
  let st1 := logs os st in
  match e with
  | EndYield k => Some (st1, Still (TRun h ty catch k))
  | EndRet => Some (log (ObsHandlerEnd h ty) st1, Finished)
  | EndThrow t =>
      let st2 := log (ObsHandlerFail h t) st1 in
      if negb catch then Some (st2, Rejected t)
      else emit_rec "handler:error" None (Some t) st2
  end.

(** The synchronous part of [emit]: build the event, read the options of the
    type, start [handleEvent] for every handler in registration order.  With
    [async] the started handlers are left to themselves and the emission is
    over; otherwise the result is the [Promise.all] of the started handlers. *)
Fixpoint spawn (fuel : nat) (eventType : string) (d : option EventPayload)
    (err : option Thrown) (st : State) {struct fuel} : option (State * TaskResult) :=
  match fuel with
  | O => None
  | S f =>
      let st0 := log (ObsEmit eventType d err) st in
      match eventHandlers st0 !! eventType with
      | None | Some [] => Some (st0, Finished)
      | Some handlers =>
          let event := {| type := eventType; timestamp := now st0; data := d;
                          error := err; retryCount := None |} in
          let options :=
            default {| async := Some false; catchErrors := Some true |}
                    (eventOptions st0 !! eventType) in
          let handleEvent handler st' :=
            resume (spawn f) (hid handler) eventType (truthy (catchErrors options))
                   (hrun handler event)
                   (log (ObsHandlerStart (hid handler) eventType) st') in
          match run_all handleEvent handlers st0 with
          | None => None
          | Some (st1, rs) =>
              if truthy (async options) then Some (detach (stills rs) st1, Finished)
              else let '(r, orphans) := join rs in Some (detach orphans st1, r)
          end
      end
  end.

(** One turn of a started task. *)
Fixpoint turn (fuel : nat) (task : Task) (st : State) {struct fuel}
  : option (State * TaskResult) :=
  match fuel with
  | O => None
  | S f =>
      match task with
      | TRun h ty catch k => resume (spawn f) h ty catch k st
      | TWait cs =>
          match run_all (turn f) cs st with
          | None => None
          | Some (st1, rs) =>
              let '(r, orphans) := join rs in Some (detach orphans st1, r)
          end
      end
  end.

(** One turn for every task running behind the main flow; their rejections
    are swallowed. *)
Definition round (fuel : nat) (st : State) : option State :=
  match run_all (turn fuel) (background st) (set_background [] st) with
  | None => None
  | Some (st1, rs) => Some (set_background (stills rs ++ background st1) st1)
  end.

(** [await] of a started emission: the tasks take turns until the emission
    settles. *)
Fixpoint await (fuel : nat) (r : TaskResult) (st : State) {struct fuel}
  : option (State * Res unit) :=
  match r with
  | Finished => Some (st, Ok tt)
  | Rejected t => Some (st, Raise t)
  | Still task =>
      match fuel with
      | O => None
      | S f =>
          match round f st with
          | None => None
          | Some st1 =>
              match turn f task st1 with
              | None => None
              | Some (st2, r') => await f r' st2
              end
          end
      end
  end.

(** A timer or the network is awaited: every pending promise job runs first. *)
Fixpoint drain (fuel : nat) (st : State) {struct fuel} : option State :=
  match background st with
  | [] => Some st
  | _ =>
      match fuel with
      | O => None
      | S f =>
          match round f st with
          | None => None
          | Some st1 => drain f st1
          end
      end
  end.

(** [await this.emit(eventType, data, error)]. *)
Definition emit (fuel : nat) (eventType : string) (d : option EventPayload)
    (err : option Thrown) : M unit :=
  fun st =>
    match spawn fuel eventType d err st with
    | None => None
    | Some (st1, r) => await fuel r st1
    end.

(** ** Client configuration and platform *)

Record ParseraRetryOptions := {
  maxRetries : Z;
  backoffFactor : Z;
  initialDelay : Z
}.

(** The readonly fields of a client instance. *)
Record Config := {
  apiKey : string;
  baseUrl : string;
  defaultProxyCountry : string;
  timeout : Z;
  retryOptions : ParseraRetryOptions
}.

Record ParseraOptions := {
  opt_apiKey : string;
  opt_baseUrl : option string;
  opt_defaultProxyCountry : option string;
  opt_timeout : option Z;
  opt_maxRetries : option Z;
  opt_backoffFactor : option Z;
  opt_initialDelay : option Z
}.

Definition minRequestInterval : Z := 100.

(** [s.length]: the number of UTF-16 code units of a string.  Strings are
    kept here as their UTF-8 bytes: a byte that continues a character counts
    for nothing, the first byte of a character outside the basic plane for
    two units, any other first byte for one. *)
Fixpoint utf16_length (s : string) : nat :=
  match s with
  | EmptyString => 0%nat
  | String c rest =>
      let b := Ascii.nat_of_ascii c in
      ((if b <? 128 then 1 else if b <? 192 then 0 else if b <? 240 then 1 else 2)
       + utf16_length rest)%nat
  end.

(** [validateApiKey] and the constructor. *)
Definition validateApiKey (key : string) : Res unit :=
  if negb (truthy_string key) || (utf16_length key <? 32)%nat
  then Raise (ThrownError (newError "Invalid API key format"))
  else Ok tt.

Definition new_Parsera (o : ParseraOptions) : Res Config :=
  match validateApiKey (opt_apiKey o) with
  | Raise t => Raise t
  | Ok _ =>
      Ok {| apiKey := opt_apiKey o;
            baseUrl := default "https://api.parsera.org/v1" (opt_baseUrl o);
            defaultProxyCountry := default "US" (opt_defaultProxyCountry o);
            timeout := default 30000 (opt_timeout o);
            retryOptions :=
              {| maxRetries := default 3 (opt_maxRetries o);
                 backoffFactor := default 2 (opt_backoffFactor o);
                 initialDelay := default 1000 (opt_initialDelay o) |} |}
  end.

Definition new_State (clock : Z) : State :=
  {| eventHandlers := ∅; eventOptions := ∅; lastRequestTime := 0; now := clock;
     fetchCalls := 0%nat; background := []; trace := [] |}.

(** What the network does with the n-th call of [fetch], left to itself:
    it answers or fails after some time, or stays silent. *)
Inductive Transport :=
| Responds (latency : Z) (r : Response)
| Fails (latency : Z) (t : Thrown)
| Hangs.

(** The time the network takes (no time at all for a negative latency). *)
Definition latency_of (tr : Transport) : Z :=
  match tr with
  | Responds l _ | Fails l _ => Z.max 0 l
  | Hangs => 0
  end.

(** The environment of a client: the [URL] parser and the network. *)
Record World := {
  parses_as_url : string -> bool;
  transport : nat -> Transport
}.

(** [setTimeout(callback, delay)] as Node runs it: a delay that is not
    between 1 and [TIMEOUT_MAX] (2^31 - 1) is replaced by 1. *)
Definition TIMEOUT_MAX : Z := 2147483647.

Definition timer_delay (delay : Z) : Z :=
  if (1 <=? delay) && (delay <=? TIMEOUT_MAX) then delay else 1.

(** Why the controller of an attempt aborted. *)
Inductive AbortCause :=
| DeadlineElapsed
| CallerCancelled.

(** The [AbortController] of one attempt: it is aborted by the timer after
    [timeout] ms, or earlier by the listener on the caller's signal.  That
    listener only runs when the signal fires after it was added. *)
Definition controller (start timeout : Z) (sig : option Z) : Z * AbortCause :=
  let deadline := start + timer_delay timeout in
  match sig with
  | Some s => if (start <? s) && (s <? deadline) then (s, CallerCancelled)
              else (deadline, DeadlineElapsed)
  | None => (deadline, DeadlineElapsed)
  end.

Definition AbortError : JsError := mkError "AbortError" "This operation was aborted".

(** [fetch(url, { signal: controller.signal })] started at [start]: the
    instant at which it settles, and how.  It rejects with an [AbortError]
    when the controller aborts before the network has answered. *)
Definition fetch (tr : Transport) (start abortAt : Z) : Z * Res Response :=
  match tr with
  | Responds latency r =>
      if start + Z.max 0 latency <? abortAt then (start + Z.max 0 latency, Ok r)
      else (abortAt, Raise (ThrownError AbortError))
  | Fails latency t =>
      if start + Z.max 0 latency <? abortAt then (start + Z.max 0 latency, Raise t)
      else (abortAt, Raise (ThrownError AbortError))
  | Hangs => (abortAt, Raise (ThrownError AbortError))
  end.

Record RequestInit := {
  method : string;
  headers : list (string * string);
  body : ParseraRequestBody;
  init_signal : option Z;
  init_timeout : option Z
}.

(** [await new Promise((resolve) => setTimeout(resolve, delay))]. *)
Definition sleep (fuel : nat) (delay : Z) : M unit :=
  fun st =>
    match drain fuel st with
    | None => None
    | Some st1 => Some (set_now (now st1 + timer_delay delay) st1, Ok tt)
    end.

Definition TimeoutError : JsError := mkError "TimeoutError" "Request timed out".

(** ** The client's methods *)

Section Client.

Variable cfg : Config.
Variable world : World.

Definition validateUrl (u : string) : M unit :=
  if parses_as_url world u then ret tt
  else throw (ThrownError (newError "Invalid URL format")).

Definition enforceRateLimit (fuel : nat) : M unit :=
  fun st =>
    let timeSinceLastRequest := now st - lastRequestTime st in
    let waited :=
      if timeSinceLastRequest <? minRequestInterval then
        sleep fuel (minRequestInterval - timeSinceLastRequest)
              (log (ObsGate (minRequestInterval - timeSinceLastRequest)) st)
      else Some (st, Ok tt) in
    match waited with
    | Some (st1, _) => Some (set_lastRequestTime (now st1) st1, Ok tt)
    | None => None
    end.

(** The [catch] clause of [fetchWithTimeout]: an [AbortError] is replaced by
    a [TimeoutError], anything else is thrown again. *)
Definition fetchWithTimeout_catch (outcome : Res Response) : Res Response :=
  match outcome with
  | Ok response => Ok response
  | Raise (ThrownError e) =>
      if (name e =? "AbortError")%string then Raise (ThrownError TimeoutError)
      else Raise (ThrownError e)
  | Raise t => Raise t
  end.

Definition fetchWithTimeout (fuel : nat) (target : string) (options : RequestInit)
  : M Response :=
  fun st =>
    let timeout := default (timeout cfg) (init_timeout options) in
    let abortAt := fst (controller (now st) timeout (init_signal options)) in
    let n := fetchCalls st in
    match drain fuel (count_fetch (log (ObsFetch n (now st) target (body options)) st)) with
    | None => None
    | Some st1 =>
        let '(settled, outcome) := fetch (transport world n) (now st) abortAt in
        Some (set_now settled st1, fetchWithTimeout_catch outcome)
    end.

Definition isRetryableError (t : Thrown) : bool :=
  match t with
  | ThrownError e =>
      includes "network" (message e) || includes "timeout" (message e)
      || includes "ECONNRESET" (message e)
  | ThrownValue _ => false
  end.

Definition backoffDelay (retryCount : Z) : Z :=
  initialDelay (retryOptions cfg) * backoffFactor (retryOptions cfg) ^ retryCount.

Definition backoff (fuel : nat) (retryCount : Z) : M unit :=
  fun st => sleep fuel (backoffDelay retryCount) (log (ObsBackoff (backoffDelay retryCount)) st).

(** What one pass through the body of [retryableRequest] decides. *)
Inductive Attempt :=
| Done (response : Response)
| Again.

(** [retryableRequest(requestFn, retryCount)].  Both recursive calls are
    [return this.retryableRequest(...)] without [await]: the promise of the
    next pass is handed to the caller, so a rejection of the next pass is
    not caught by the [try] of this one, and the recursion sits after it. *)
Fixpoint retryableRequest (fuel : nat) (requestFn : nat -> M Response)
    (retryCount : Z) {struct fuel} : M Response :=
  match fuel with
  | O => fun _ => None
  | S f =>
      let* attempt :=
        try_catch
          (enforceRateLimit f ;;
           let* response := requestFn f in
           if (status response =? 429) && (retryCount <? maxRetries (retryOptions cfg))
           then
             emit f "rateLimit" (Some (PayloadRetry retryCount)) None ;;
             emit f "request:retry" (Some (PayloadRetry retryCount)) None ;;
             backoff f retryCount ;;
             ret Again
           else ret (Done response))
          (fun error =>
             match error with
             | ThrownError e =>
                 (if (name e =? "AbortError")%string
                  then emit f "timeout" None (Some error) else ret tt) ;;
                 emit f "request:error" None (Some error) ;;
                 if (retryCount <? maxRetries (retryOptions cfg)) && isRetryableError error
                 then
                   emit f "request:retry" (Some (PayloadRetry retryCount)) None ;;
                   backoff f retryCount ;;
                   ret Again
                 else throw error
             | ThrownValue _ => throw error
             end)
      in
      match attempt with
      | Done response => ret response
      | Again => retryableRequest f requestFn (retryCount + 1)
      end
  end.

Definition convertToAttributes (attrs : list (string * string)) : list ParseraAttribute :=
  map (fun '(n, d) => {| attr_name := n; attr_description := d |}) attrs.

Definition response_json (r : Response) : M ParseraResponse :=
  match json r with
  | JsonBody b => ret b
  | JsonFailure t => throw t
  end.

Definition handleError {A} (response : Response) : M A :=
  let* errorData := response_json response in
  if status response =? 401 then
    throw (ThrownError (newError "Invalid Parsera API key. Please check your credentials."))
  else if status response =? 429 then
    throw (ThrownError (newError "Rate limit exceeded. Please try again later."))
  else if status response =? 400 then
    throw (ThrownError (newError
      ("Bad request: " +:+ or_else (resp_message errorData) "Unknown error")))
  else
    throw (ThrownError (newError
      ("Parsera API error: " +:+ or_else (resp_message errorData) (statusText response)))).

Definition noDataMessage : string :=
  "No data returned from Parsera API. Make sure the website contains the data and the attribute descriptions are clear.".

Definition requestBody (o : ExtractOptions) : ParseraRequestBody :=
  {| body_url := url o;
     body_attributes :=
       match attributes o with
       | AttrArray l => l
       | AttrRecord entries => convertToAttributes entries
       end;
     proxy_country := Some (or_else (proxyCountry o) (defaultProxyCountry cfg));
     body_cookies := cookies o;
     mode := if truthy (precisionMode o) then Some "precision" else None |}.

Definition requestInit (o : ExtractOptions) : RequestInit :=
  {| method := "POST";
     headers := [("Content-Type", "application/json"); ("X-API-KEY", apiKey cfg)];
     body := requestBody o;
     init_signal := signal o;
     init_timeout := None |}.

(** The request function [extract] hands to [retryableRequest]. *)
Definition requestFn (o : ExtractOptions) (fuel : nat) : M Response :=
  fetchWithTimeout fuel (baseUrl cfg +:+ "/extract") (requestInit o).

(** The [try] block of [extract]. *)
Definition extract_try (fuel : nat) (o : ExtractOptions) : M (list Row) :=
  let* response := retryableRequest fuel (requestFn o) 0 in
  (if negb (ok response) then handleError response else ret tt) ;;
  let* payload := response_json response in
  match resp_data payload with
  | Some (row :: rows) =>
      emit fuel "extract:complete" (Some (PayloadResponse payload)) None ;;
      ret (row :: rows)
  | _ => throw (ThrownError (newError (or_else (resp_message payload) noDataMessage)))
  end.

(** The [catch] clause of [extract]. *)
Definition extract_catch {A} (fuel : nat) (error : Thrown) : M A :=
  match error with
  | ThrownError e =>
      emit fuel "extract:error" None (Some error) ;;
      if (message e =? "Request timed out")%string then throw error
      else throw (ThrownError (newError ("Failed to extract data: " +:+ message e)))
  | ThrownValue _ =>
      throw (ThrownError (newError "Failed to extract data: Unknown error"))
  end.

Definition extract (fuel : nat) (o : ExtractOptions) : M (list Row) :=
  emit fuel "extract:start" (Some (PayloadExtract o)) None ;;
  validateUrl (url o) ;;
  try_catch (extract_try fuel o) (extract_catch fuel).

Definition run (fuel : nat) (o : ExtractOptions) : M (list Row) := extract fuel o.

Definition arun (fuel : nat) (o : ExtractOptions) : M (list Row) := extract fuel o.

End Client.

(** ** Vocabulary of the statements *)

(** [m'] agrees with [m] wherever [m] has a result. *)
Definition agrees {A} (m m' : M A) : Prop :=
  forall st y, m st = Some y -> m' st = Some y.

(** A computation indexed by its number of turns is [steady] when a result
    reached with some number of turns is reached with any larger number. *)
Definition steady {A} (m : nat -> M A) : Prop :=
  forall f f', (f <= f')%nat -> agrees (m f) (m f').

(** The call [m], started in [st], settles with [r] and leaves [st']. *)
Definition converges {A} (m : nat -> M A) (st st' : State) (r : Res A) : Prop :=
  exists f0, forall f, (f0 <= f)%nat -> m f st = Some (st', r).

(** A handler run that ends by returning. *)
Fixpoint settles (p : Prog) : bool :=
  match p with
  | Ret => true
  | Throw _ => false
  | Act _ k => settles k
  | Yield k => settles k
  end.

(** How a handler run ends. *)
Fixpoint failure (p : Prog) : option Thrown :=
  match p with
  | Ret => None
  | Throw t => Some t
  | Act _ k => failure k
  | Yield k => failure k
  end.

Fixpoint yields (p : Prog) : nat :=
  match p with
  | Ret | Throw _ => 0
  | Act _ k => yields k
  | Yield k => S (yields k)
  end.

Definition quiet_handler (h : ParseraEventHandler) : Prop :=
  forall ev, settles (hrun h ev) = true.

Definition quiet_task (t : Task) : Prop :=
  match t with
  | TRun _ _ _ k => settles k = true
  | TWait _ => False
  end.

Definition task_yields (t : Task) : nat :=
  match t with
  | TRun _ _ _ k => yields k
  | TWait _ => 0
  end.

Definition task_key (t : Task) : nat * string :=
  match t with
  | TRun h ty _ _ => (h, ty)
  | TWait _ => (0%nat, "")
  end.

(** No registered handler ever fails, and neither does a handler that is
    still running. *)
Definition quiet (st : State) : Prop :=
  (forall ty hs, eventHandlers st !! ty = Some hs -> Forall quiet_handler hs)
  /\ Forall quiet_task (background st).

(** [st'] is [st] with [os] appended to its trace; the registries, the
    clock and the counters are those of [st]. *)
Record extends (st st' : State) (os : list Obs) : Prop := {
  ext_handlers : eventHandlers st' = eventHandlers st;
  ext_options : eventOptions st' = eventOptions st;
  ext_last : lastRequestTime st' = lastRequestTime st;
  ext_now : now st' = now st;
  ext_fetch : fetchCalls st' = fetchCalls st;
  ext_trace : trace st' = trace st ++ os
}.

(** Observations made by handlers. *)
Definition handler_obs (o : Obs) : bool :=
  match o with
  | ObsHandlerStart _ _ | ObsAct _ _ | ObsHandlerEnd _ _ | ObsHandlerFail _ _ => true
  | _ => false
  end.

(** Observations made by handlers that were already running. *)
Definition running_obs (o : Obs) : bool :=
  match o with
  | ObsAct _ _ | ObsHandlerEnd _ _ => true
  | _ => false
  end.

(** The types of the emitted events, in order. *)
Definition emissions (os : list Obs) : list string :=
  omap (fun o => match o with ObsEmit ty _ _ => Some ty | _ => None end) os.

(** How many times [emit] was called for the type [ty]. *)
Definition emitted (ty : string) (os : list Obs) : nat :=
  length (List.filter (String.eqb ty) (emissions os)).

(** How many times the transport was called. *)
Definition fetches (os : list Obs) : nat :=
  length (List.filter (fun o => match o with ObsFetch _ _ _ _ => true | _ => false end) os).

(** The instants at which the transport was called, in order. *)
Definition fetch_times (os : list Obs) : list Z :=
  omap (fun o => match o with ObsFetch _ t _ _ => Some t | _ => None end) os.

(** The delays waited before retries, in order. *)
Definition backoffs (os : list Obs) : list Z :=
  omap (fun o => match o with ObsBackoff d => Some d | _ => None end) os.

(** The handlers started for the type [ty], in order. *)
Definition started (ty : string) (os : list Obs) : list nat :=
  omap (fun o => match o with
                 | ObsHandlerStart h ty' => if (ty' =? ty)%string then Some h else None
                 | _ => None
                 end) os.

(** The handler [p.1] finished its run on an event of type [p.2]. *)
Definition ended (os : list Obs) (p : nat * string) : Prop := ObsHandlerEnd p.1 p.2 ∈ os.

(** One turn of the tasks [cs], none of which fails: nothing is rejected,
    and every task has finished or is strictly closer to finishing. *)
Definition advanced (cs : list Task) (rs : list TaskResult) (os : list Obs) : Prop :=
  first_rejection rs = None /\ Forall quiet_task (stills rs) /\
  (forall t', t' ∈ stills rs ->
     exists t, t ∈ cs /\ task_key t' = task_key t /\ (task_yields t' < task_yields t)%nat) /\
  (forall t, t ∈ cs -> ended os (task_key t) \/ task_key t ∈ task_key <$> stills rs).

(** Every task of [bg'] continues a task of [bg]. *)
Definition descend (bg bg' : list Task) : Prop :=
  forall t', t' ∈ bg' ->
    exists t, t ∈ bg /\ task_key t' = task_key t /\ (task_yields t' < task_yields t)%nat.

(** The observations of the main flow: its emissions (an announcement of a
    handler's failure is not one of them), the calls of the transport and
    the waits before retries. *)
Definition milestone (o : Obs) : bool :=
  match o with
  | ObsEmit ty _ _ => negb (ty =? "handler:error")%string
  | ObsFetch _ _ _ _ | ObsBackoff _ => true
  | _ => false
  end.

Definition milestones (os : list Obs) : list Obs := List.filter milestone os.

(** [st'] is reached from [st] by a run that observed [os]. *)
Record run_of (st st' : State) (os : list Obs) : Prop := {
  run_handlers : eventHandlers st' = eventHandlers st;
  run_options : eventOptions st' = eventOptions st;
  run_trace : trace st' = trace st ++ os;
  run_fetch : fetchCalls st' = (fetchCalls st + fetches os)%nat
}.

Section ClientVocabulary.

Variable cfg : Config.
Variable world : World.

(** The instant at which the rate limiter lets the next attempt start. *)
Definition gate_time (st : State) : Z :=
  if now st - lastRequestTime st <? minRequestInterval
  then now st + timer_delay (minRequestInterval - (now st - lastRequestTime st))
  else now st.

(** How the [n]-th call of the transport ends when it is started at
    [start] through [fetchWithTimeout]. *)
Definition attempt (options : RequestInit) (start : Z) (n : nat) : Res Response :=
  let timeout := default (timeout cfg) (init_timeout options) in
  let abortAt := fst (controller start timeout (init_signal options)) in
  fetchWithTimeout_catch (snd (fetch (transport world n) start abortAt)).

(** The instant at which that call settles. *)
Definition attempt_end (options : RequestInit) (start : Z) (n : nat) : Z :=
  let timeout := default (timeout cfg) (init_timeout options) in
  let abortAt := fst (controller start timeout (init_signal options)) in
  fst (fetch (transport world n) start abortAt).

(** The transport answers with [r] before the deadline of the attempt. *)
Definition in_time (tr : Transport) (r : Response) : Prop :=
  exists latency, tr = Responds latency r /\ Z.max 0 latency < timer_delay (timeout cfg).

(** The attempt is aborted whenever it is started. *)
Definition aborted (tr : Transport) (sig : option Z) : Prop :=
  forall start,
    snd (fetch tr start (fst (controller start (timeout cfg) sig))) = Raise (ThrownError AbortError).

(** The transport answers the call with HTTP 429 and a JSON body, in time. *)
Definition rate_limited (tr : Transport) : Prop :=
  exists r payload, in_time tr r /\ status r = 429 /\ json r = JsonBody payload.

(** The transport fails the call with [t] before the deadline of the
    attempt. *)
Definition fails_in_time (tr : Transport) (t : Thrown) : Prop :=
  exists latency, tr = Fails latency t /\ Z.max 0 latency < timer_delay (timeout cfg).

(** The attempts of a run whose first call of the transport is the [n]-th
    and whose first retry count is [rc] started at the instants [ts]: each
    one after the first starts when the attempt before it has ended and the
    wait before the retry is over, but no earlier than [minRequestInterval]
    after the attempt before it started. *)
Definition spaced (rc : Z) (n : nat) (ts : list Z) : Prop :=
  forall i t t', ts !! i = Some t -> ts !! S i = Some t' ->
    t' = Z.max (t + latency_of (transport world (n + i))
                  + timer_delay (initialDelay (retryOptions cfg)
                                 * backoffFactor (retryOptions cfg) ^ (rc + Z.of_nat i)))
               (t + minRequestInterval).

End ClientVocabulary.

(** What the [catch] clause of [extract] raises for the failure [t]. *)
Definition reraised (t : Thrown) : Thrown :=
  match t with
  | ThrownError e =>
      if (message e =? "Request timed out")%string then t
      else ThrownError (newError ("Failed to extract data: " +:+ message e))
  | ThrownValue _ => ThrownError (newError "Failed to extract data: Unknown error")
  end.

(** The message [handleError] has for an answer whose status is not 429 and
    whose body parses as [b]. *)
Definition http_error_message (r : Response) (b : ParseraResponse) : string :=
  if status r =? 401 then "Invalid Parsera API key. Please check your credentials."
  else if status r =? 400 then "Bad request: " +:+ or_else (resp_message b) "Unknown error"
  else "Parsera API error: " +:+ or_else (resp_message b) (statusText r).

(** The three kinds of failure a caller of [extract] can see. *)
Definition extract_failure (t : Thrown) : Prop :=
  match t with
  | ThrownError e =>
      message e = "Invalid URL format" \/ message e = "Request timed out" \/
      String.prefix "Failed to extract data: " (message e) = true
  | ThrownValue _ => False
  end.

(** If [o] is a call of the transport, it went to [target] with the body
    [b]. *)
Definition sends (target : string) (b : ParseraRequestBody) (o : Obs) : Prop :=
  match o with
  | ObsFetch _ _ target' b' => target' = target /\ b' = b
  | _ => True
  end.

(** ** Scenarios *)

(** The state a run ends in (or [st] when the run did not finish). *)
Definition state_of {A} (x : option (State * Res A)) (st : State) : State :=
  match x with
  | Some (st', _) => st'
  | None => st
  end.

(** The position of the first observation that satisfies [p]. *)
Fixpoint position (p : Obs -> bool) (os : list Obs) : option nat :=
  match os with
  | [] => None
  | o :: os' => if p o then Some 0%nat else option_map S (position p os')
  end.

Definition demo_cfg : Config :=
  {| apiKey := "xxxxxxxxxxxxxxxxxxxxxxxxxxxxxxxx";
     baseUrl := "https://api.parsera.org/v1";
     defaultProxyCountry := "US";
     timeout := 1000;
     retryOptions := {| maxRetries := 3; backoffFactor := 2; initialDelay := 1000 |} |}.

Definition demo_request : ExtractOptions :=
  {| url := "https://example.com";
     attributes := AttrRecord [("title", "Extract the title")];
     proxyCountry := None; cookies := None; precisionMode := None; signal := None |}.

(** The same request with a signal that the caller fires at 5200. *)
Definition cancelled_request : ExtractOptions :=
  {| url := "https://example.com";
     attributes := AttrRecord [("title", "Extract the title")];
     proxyCountry := None; cookies := None; precisionMode := None; signal := Some 5200 |}.

Definition invalid_request : ExtractOptions :=
  {| url := "invalid-url";
     attributes := AttrRecord [("title", "Extract the title")];
     proxyCountry := None; cookies := None; precisionMode := None; signal := None |}.

Definition rows_response : Response :=
  {| status := 200; statusText := "OK";
     json := JsonBody {| resp_data := Some [[("title", "Test Title")]]; resp_message := None |} |}.

Definition rate_limit_response : Response :=
  {| status := 429; statusText := "Too Many Requests";
     json := JsonBody {| resp_data := None; resp_message := Some "Rate limit exceeded" |} |}.

(** A success status with no rows and a message of the server. *)
Definition empty_response : Response :=
  {| status := 200; statusText := "OK";
     json := JsonBody {| resp_data := Some []; resp_message := Some "Request timed out" |} |}.

Definition has_scheme (u : string) : bool := includes "://" u.

(** The network never answers. *)
Definition silent_world : World :=
  {| parses_as_url := has_scheme; transport := fun _ => Hangs |}.

(** The network answers 429 once and then with rows. *)
Definition busy_once_world : World :=
  {| parses_as_url := has_scheme;
     transport := fun n => match n with
                           | O => Responds 20 rate_limit_response
                           | _ => Responds 20 rows_response
                           end |}.

(** The network answers 429 twice and then with rows. *)
Definition busy_twice_world : World :=
  {| parses_as_url := has_scheme;
     transport := fun n => match n with
                           | O | S O => Responds 20 rate_limit_response
                           | _ => Responds 20 rows_response
                           end |}.

(** The network always answers 429. *)
Definition busy_world : World :=
  {| parses_as_url := has_scheme; transport := fun _ => Responds 20 rate_limit_response |}.

(** The network answers with a success that carries no rows. *)
Definition empty_world : World :=
  {| parses_as_url := has_scheme; transport := fun _ => Responds 20 empty_response |}.

(** An observer with an [await] in the middle, and one without. *)
Definition slow_observer : ParseraEventHandler :=
  {| hid := 1; hrun := fun _ => Act "first half" (Yield (Act "second half" Ret)) |}.

Definition quick_observer : ParseraEventHandler :=
  {| hid := 2; hrun := fun _ => Act "noted" Ret |}.

(** An observer that throws an [Error] whose message mentions the network. *)
Definition failing_observer : ParseraEventHandler :=
  {| hid := 3; hrun := fun _ => Throw (ThrownError (newError "network logger is down")) |}.

Definition fresh : State := new_State 5000.

Definition observed : State :=
  on "extract:start" quick_observer no_options
    (on "extract:start" slow_observer no_options fresh).

Definition watching_timeouts : State :=
  on "timeout" quick_observer no_options fresh.

Definition strict_rate_limit : State :=
  on "rateLimit" failing_observer {| async := None; catchErrors := Some false |} fresh.

(** [fresh] after [extract] has emitted [extract:start] for [demo_request],
    and after the [try] block has then run against [empty_world]. *)
Definition after_start : State :=
  state_of (emit 5 "extract:start" (Some (PayloadExtract demo_request)) None fresh) fresh.

Definition after_empty_answer : State :=
  state_of (extract_try demo_cfg empty_world 10 demo_request after_start) after_start.

(** ** Handlers that fail *)

(** The event with which a failure is announced to [handler:error]. *)
Definition failure_event (clock : Z) (t : Thrown) : ParseraEvent :=
  {| type := "handler:error"; timestamp := clock; data := None; error := Some t;
     retryCount := None |}.

(** The handlers of [handler:error] never fail. *)
Definition announces_quietly (st : State) : Prop :=
  forall hs, eventHandlers st !! "handler:error" = Some hs -> Forall quiet_handler hs.

Definition max_list (l : list nat) : nat := foldr Nat.max 0%nat l.

(** A bound on the suspensions of the handlers of [handler:error] when the
    failure [t] is announced. *)
Definition announce_bound (st : State) (t : Thrown) : nat :=
  max_list ((fun h => yields (hrun h (failure_event (now st) t)))
              <$> default [] (eventHandlers st !! "handler:error")).

(** A bound on the turns a task still needs, given a bound on those of
    the announcements. *)
Definition weight (B : Thrown -> nat) (task : Task) : nat :=
  match task with
  | TRun _ _ catch k =>
      (yields k +
       match failure k with
       | Some t => if catch then S (B t) else 0
       | None => 0
       end)%nat
  | TWait qs => max_list (task_yields <$> qs)
  end.

(** The tasks of an emission: handlers, and announcements of failures, whose
    own handlers never fail. *)
Definition sound_task (task : Task) : Prop :=
  match task with
  | TRun _ _ _ _ => True
  | TWait qs => Forall quiet_task qs
  end.

(** A failure was announced, and so far its announcement has not failed. *)
Definition announced (B : Thrown -> nat) (t : Thrown) (r : TaskResult) : Prop :=
  r = Finished \/
  exists qs, r = Still (TWait qs) /\ Forall quiet_task qs /\
             Forall (fun q => (task_yields q <= B t)%nat) qs.

(** What one turn does with a task. *)
Inductive stepped (B : Thrown -> nat) : Task -> TaskResult -> list Obs -> Prop :=
| stepped_yield h ty c k k' os :
    failure k' = failure k -> (yields k' < yields k)%nat ->
    stepped B (TRun h ty c k) (Still (TRun h ty c k')) os
| stepped_return h ty c k os :
    failure k = None -> ObsHandlerEnd h ty ∈ os ->
    stepped B (TRun h ty c k) Finished os
| stepped_reject h ty k t os :
    failure k = Some t ->
    stepped B (TRun h ty false k) (Rejected t) os
| stepped_announce h ty k t r os :
    failure k = Some t -> yields k = 0%nat ->
    ObsEmit "handler:error" None (Some t) ∈ os -> announced B t r ->
    stepped B (TRun h ty true k) r os
| stepped_wait qs r os :
    (r = Finished \/
     exists qs', r = Still (TWait qs') /\ qs' <> [] /\ Forall quiet_task qs' /\
                 forall q', q' ∈ qs' -> exists q, q ∈ qs /\ (task_yields q' < task_yields q)%nat) ->
    stepped B (TWait qs) r os.

(** The background only gained tasks that never fail and that suspend
    less than [m] times. *)
Definition grows_quietly (m : nat) (st st' : State) : Prop :=
  exists new, background st' = background st ++ new /\ Forall quiet_task new /\
              Forall (fun q => (task_yields q < m)%nat) new.

(** Observations made by the event bus on its own: by handlers, and when a
    failure of a handler is announced. *)
Definition bus_obs (o : Obs) : bool :=
  match o with
  | ObsEmit ty _ _ => (ty =? "handler:error")%string
  | o => handler_obs o
  end.

(** Observations made behind an emission: by handlers that are running, and
    by the announcements of failures with the handlers they start. *)
Definition behind (o : Obs) : bool :=
  match o with
  | ObsEmit ty _ _ | ObsHandlerStart _ ty => (ty =? "handler:error")%string
  | ObsAct _ _ | ObsHandlerEnd _ _ | ObsHandlerFail _ _ => true
  | _ => false
  end.

(** [st'] is [st] with such observations appended to its trace. *)
Definition trails (st st' : State) : Prop :=
  exists os, trace st' = trace st ++ os /\ Forall (fun o => behind o = true) os.

(** The outcome of a turn, with the observations of the whole round. *)
Definition stepped_within (B : Thrown -> nat) (os : list Obs) (task : Task) (r : TaskResult)
  : Prop :=
  exists os', stepped B task r os' /\ forall o, o ∈ os' -> o ∈ os.

Definition task_failure (task : Task) : option Thrown :=
  match task with
  | TRun _ _ _ k => failure k
  | TWait _ => None
  end.

(** Tasks that cannot make an emission fail: their failure, if any, is
    caught and announced.  And tasks of a type whose failures are thrown on. *)
Definition harmless (task : Task) : Prop :=
  match task with
  | TRun _ _ c k => c = true \/ failure k = None
  | TWait _ => True
  end.

Definition raising (task : Task) : Prop :=
  match task with
  | TRun _ _ c _ => c = false
  | TWait _ => False
  end.

(** The options under which the handlers of a type are delivered, and the
    event an emission builds. *)
Definition delivery (st : State) (ty : string) : ParseraEventOptions :=
  default {| async := Some false; catchErrors := Some true |} (eventOptions st !! ty).

Definition event_of (st : State) (ty : string) (d : option EventPayload)
    (err : option Thrown) : ParseraEvent :=
  {| type := ty; timestamp := now st; data := d; error := err; retryCount := None |}.

(** What a handler that does not suspend leaves in the trace when it is
    run on [ev] for the type [ty]. *)
Definition handler_run (ty : string) (ev : ParseraEvent) (h : ParseraEventHandler) : list Obs :=
  ObsHandlerStart (hid h) ty :: (run_prog (hid h) (hrun h ev)).1 ++ [ObsHandlerEnd (hid h) ty].

(** No failure of a handler can leave an emission: the handlers of
    [handler:error] never fail, and neither do the handlers of a type that
    is delivered synchronously without [catchErrors]; what runs behind the
    main flow was started by emissions. *)
Definition isolated (st : State) : Prop :=
  announces_quietly st /\
  (forall ty hs, eventHandlers st !! ty = Some hs ->
     truthy (async (delivery st ty)) = false ->
     truthy (catchErrors (delivery st ty)) = false -> Forall quiet_handler hs) /\
  Forall sound_task (background st).

(** ** More scenarios *)

(** A failing observer of [rateLimit] under the default options, and an
    observer of [handler:error]. *)
Definition lenient_rate_limit : State :=
  on "handler:error" quick_observer no_options
    (on "rateLimit" failing_observer no_options fresh).

(** A failing and a suspending observer of [extract:start] under the default
    options. *)
Definition mixed_observers : State :=
  on "extract:start" slow_observer no_options
    (on "extract:start" failing_observer no_options fresh).



(** An observer that takes two notes, registered after [quick_observer]. *)
Definition careful_observer : ParseraEventHandler :=
  {| hid := 4; hrun := fun _ => Act "counted" (Act "logged" Ret) |}.

Definition watching_retries : State :=
  on "request:retry" careful_observer no_options
    (on "request:retry" quick_observer no_options fresh).

(** A client whose last attempt started 30 ms ago. *)
Definition just_requested : State := set_lastRequestTime 4970 fresh.

(** Two observers of [extract:complete] that are delivered asynchronously
    and without [catchErrors]: one fails, the other awaits. *)
Definition detached_observers : State :=
  on "extract:complete" slow_observer {| async := Some true; catchErrors := Some false |}
    (on "extract:complete" failing_observer {| async := Some true; catchErrors := Some false |}
        fresh).

Definition unauthorized_response : Response :=
  {| status := 401; statusText := "Unauthorized";
     json := JsonBody {| resp_data := None; resp_message := Some "Invalid API key" |} |}.

(** An error page that is not JSON. *)
Definition garbled_response : Response :=
  {| status := 502; statusText := "Bad Gateway";
     json := JsonFailure (ThrownError (mkError "SyntaxError" "Unexpected token < in JSON")) |}.

(** A success status with no rows and no message. *)
Definition blank_response : Response :=
  {| status := 200; statusText := "OK";
     json := JsonBody {| resp_data := Some []; resp_message := None |} |}.

(** HTTP 429 with a body that is not JSON. *)
Definition garbled_limit_response : Response :=
  {| status := 429; statusText := "Too Many Requests";
     json := JsonFailure (ThrownError (mkError "SyntaxError" "Unexpected token < in JSON")) |}.

Definition answering (r : Response) : World :=
  {| parses_as_url := has_scheme; transport := fun _ => Responds 20 r |}.

(** The network fails every call after 20 ms. *)
Definition failing_with (t : Thrown) : World :=
  {| parses_as_url := has_scheme; transport := fun _ => Fails 20 t |}.

Definition connection_reset : JsError := mkError "Error" "read ECONNRESET".

Definition fetch_failed : JsError := mkError "TypeError" "fetch failed".

(** * Properties *)

(** ** More scheduler turns never change a result *)

Lemma run_all_mono {A} (F G : A -> State -> option (State * TaskResult)) l :
  (forall x st y, F x st = Some y -> G x st = Some y) ->
  forall st y, run_all F l st = Some y -> run_all G l st = Some y.
Proof.
  intros HFG. induction l as [|x l IH]; intros st y; simpl; [done|].
  destruct (F x st) as [[st1 r]|] eqn:E; [|done].
  rewrite (HFG _ _ _ E).
  destruct (run_all F l st1) as [[st2 rs]|] eqn:E2; [|done].
  by rewrite (IH _ _ E2).
Qed.

Lemma resume_mono E E' h ty c p st y :
  (forall ty d e st y, E ty d e st = Some y -> E' ty d e st = Some y) ->
  resume E h ty c p st = Some y -> resume E' h ty c p st = Some y.
Proof.
  intros HE. unfold resume. destruct (run_prog h p) as [os [ | t | k]]; try done.
  destruct (negb c); [done|]. apply HE.
Qed.

Lemma spawn_mono f f' ty d err st y :
  (f <= f')%nat -> spawn f ty d err st = Some y -> spawn f' ty d err st = Some y.
Proof.
  revert f' ty d err st y. induction f as [|f IH]; intros f' ty d err st y Hle; [done|].
  destruct f' as [|f']; [lia|]. simpl.
  destruct (eventHandlers _ !! ty) as [[|h hs]|]; try done.
  set (F := fun handler st' => resume (spawn f) _ _ _ _ _).
  set (G := fun handler st' => resume (spawn f') _ _ _ _ _).
  destruct (run_all F (h :: hs) _) as [[st1 rs]|] eqn:E; [|done].
  rewrite (run_all_mono F G (h :: hs)) with (y := (st1, rs)); [done| |done].
  intros x st' y'. apply resume_mono. intros. eapply IH; [|done]. lia.
Qed.

Lemma turn_mono f f' task st y :
  (f <= f')%nat -> turn f task st = Some y -> turn f' task st = Some y.
Proof.
  revert f' task st y. induction f as [|f IH]; intros f' task st y Hle; [done|].
  destruct f' as [|f']; [lia|]. simpl. destruct task as [h ty c k|cs].
  - apply resume_mono. intros. eapply spawn_mono; [|done]. lia.
  - destruct (run_all (turn f) cs st) as [[st1 rs]|] eqn:E; [|done].
    rewrite (run_all_mono (turn f) (turn f') cs) with (y := (st1, rs)); [done| |done].
    intros. eapply IH; [|done]. lia.
Qed.

Lemma round_mono f f' st y :
  (f <= f')%nat -> round f st = Some y -> round f' st = Some y.
Proof.
  intros Hle. unfold round.
  destruct (run_all (turn f) _ _) as [[st1 rs]|] eqn:E; [|done].
  rewrite (run_all_mono (turn f) (turn f') _) with (y := (st1, rs)); [done| |done].
  intros. by eapply turn_mono.
Qed.

Lemma await_mono f f' r st y :
  (f <= f')%nat -> await f r st = Some y -> await f' r st = Some y.
Proof.
  revert f' r st y. induction f as [|f IH]; intros f' r st y Hle.
  - destruct r; simpl; try done; by destruct f'.
  - destruct f' as [|f']; [lia|]. destruct r as [ | t | task]; simpl; try done.
    destruct (round f st) as [st1|] eqn:E1; [|done].
    rewrite (round_mono f f' st st1) by (done || lia).
    destruct (turn f task st1) as [[st2 r']|] eqn:E2; [|done].
    rewrite (turn_mono f f' task st1 (st2, r')) by (done || lia).
    apply IH. lia.
Qed.

Lemma drain_mono f f' st y :
  (f <= f')%nat -> drain f st = Some y -> drain f' st = Some y.
Proof.
  revert f' st y. induction f as [|f IH]; intros f' st y Hle.
  - simpl. destruct (background st) eqn:E; [|done]. intros. destruct f'; simpl; by rewrite E.
  - destruct f' as [|f']; [lia|]. simpl. destruct (background st); [done|].
    destruct (round f st) as [st1|] eqn:E1; [|done].
    rewrite (round_mono f f' st st1) by (done || lia).
    apply IH. lia.
Qed.

Lemma emit_mono f f' ty d err st y :
  (f <= f')%nat -> emit f ty d err st = Some y -> emit f' ty d err st = Some y.
Proof.
  intros Hle. unfold emit.
  destruct (spawn f ty d err st) as [[st1 r]|] eqn:E; [|done].
  rewrite (spawn_mono f f' ty d err st (st1, r)) by done.
  by apply await_mono.
Qed.

Lemma sleep_mono f f' delay st y :
  (f <= f')%nat -> sleep f delay st = Some y -> sleep f' delay st = Some y.
Proof.
  intros Hle. unfold sleep.
  destruct (drain f st) as [st1|] eqn:E; [|done].
  by rewrite (drain_mono f f' st st1).
Qed.

Lemma agrees_refl {A} (m : M A) : agrees m m.
Proof. by intros st y. Qed.

Lemma agrees_bind {A B} (m m' : M A) (k k' : A -> M B) :
  agrees m m' -> (forall a, agrees (k a) (k' a)) -> agrees (bind m k) (bind m' k').
Proof.
  intros Hm Hk st y. unfold bind.
  destruct (m st) as [[st1 [a|t]]|] eqn:E; [| |done]; rewrite (Hm st _ E); [|done].
  apply Hk.
Qed.

Lemma agrees_try {A} (m m' : M A) (h h' : Thrown -> M A) :
  agrees m m' -> (forall t, agrees (h t) (h' t)) ->
  agrees (try_catch m h) (try_catch m' h').
Proof.
  intros Hm Hh st y. unfold try_catch.
  destruct (m st) as [[st1 [a|t]]|] eqn:E; [| |done]; rewrite (Hm st _ E); [done|].
  apply Hh.
Qed.

Lemma agrees_emit f f' ty d err :
  (f <= f')%nat -> agrees (emit f ty d err) (emit f' ty d err).
Proof. intros Hle st y. by apply emit_mono. Qed.

Lemma agrees_sleep f f' delay :
  (f <= f')%nat -> agrees (sleep f delay) (sleep f' delay).
Proof. intros Hle st y. by apply sleep_mono. Qed.

Create HintDb steady.

#[local] Hint Resolve agrees_refl agrees_emit agrees_sleep : steady.

Section ClientSteady.

Variable cfg : Config.
Variable world : World.

Lemma agrees_enforceRateLimit f f' :
  (f <= f')%nat -> agrees (enforceRateLimit f) (enforceRateLimit f').
Proof.
  intros Hle st y. unfold enforceRateLimit.
  destruct (_ <? _); [|done].
  destruct (sleep f _ _) as [[st1 r]|] eqn:E; [|done].
  by rewrite (sleep_mono f f' _ _ _ Hle E).
Qed.

Lemma agrees_fetchWithTimeout f f' target options :
  (f <= f')%nat ->
  agrees (fetchWithTimeout cfg world f target options)
         (fetchWithTimeout cfg world f' target options).
Proof.
  intros Hle st y. unfold fetchWithTimeout.
  destruct (drain f _) as [st1|] eqn:E; [|done].
  by rewrite (drain_mono f f' _ _ Hle E).
Qed.

Lemma agrees_backoff f f' rc :
  (f <= f')%nat -> agrees (backoff cfg f rc) (backoff cfg f' rc).
Proof. intros Hle st y. unfold backoff. by apply sleep_mono. Qed.

#[local] Hint Resolve agrees_enforceRateLimit agrees_fetchWithTimeout agrees_backoff : steady.

Ltac steady_step :=
  match goal with
  | |- agrees (bind _ _) (bind _ _) => apply agrees_bind; [|intros ?]
  | |- agrees (try_catch _ _) (try_catch _ _) => apply agrees_try; [|intros ?]
  | |- agrees (if ?b then _ else _) (if ?b then _ else _) => destruct b
  | |- agrees (match ?x with ThrownError _ => _ | ThrownValue _ => _ end) _ => destruct x
  | |- agrees (match ?x with Done _ => _ | Again => _ end) _ => destruct x
  | |- agrees _ _ => solve [eauto with steady]
  end.

Lemma steady_retryableRequest requestFn rc :
  steady requestFn -> steady (fun f => retryableRequest cfg f requestFn rc).
Proof.
  intros Hreq f. revert rc. induction f as [|f IH]; intros rc f' Hle; [done|].
  destruct f' as [|f']; [lia|]. assert (f <= f')%nat as Hle' by lia.
  cbn [retryableRequest]. pose proof (Hreq f f' Hle') as Hr.
  repeat steady_step.
Qed.

Lemma steady_extract_try o : steady (fun f => extract_try cfg world f o).
Proof.
  intros f f' Hle. unfold extract_try.
  apply agrees_bind.
  { apply steady_retryableRequest; [|done]. intros g g' Hg. by apply agrees_fetchWithTimeout. }
  intros response. apply agrees_bind; [apply agrees_refl|]. intros _.
  apply agrees_bind; [apply agrees_refl|]. intros payload.
  destruct (resp_data payload) as [[|row rows]|]; repeat steady_step.
Qed.

Lemma steady_extract_catch {A} t : steady (fun f => @extract_catch A f t).
Proof. intros f f' Hle. unfold extract_catch. repeat steady_step. Qed.

Lemma steady_extract o : steady (fun f => extract cfg world f o).
Proof.
  intros f f' Hle. unfold extract.
  apply agrees_bind; [by apply agrees_emit|]. intros _.
  apply agrees_bind; [apply agrees_refl|]. intros _.
  apply agrees_try; [by apply steady_extract_try|]. intros t. by apply steady_extract_catch.
Qed.

End ClientSteady.

(** ** Frames *)

Lemma extends_refl st : extends st st [].
Proof. split; try done. by rewrite app_nil_r. Qed.

Lemma extends_trans st st1 st2 os1 os2 :
  extends st st1 os1 -> extends st1 st2 os2 -> extends st st2 (os1 ++ os2).
Proof.
  intros [] []. split; try congruence.
  rewrite app_assoc. congruence.
Qed.

Lemma extends_log o st : extends st (log o st) [o].
Proof. by split. Qed.

Lemma extends_logs os st : extends st (logs os st) os.
Proof. by split. Qed.

Lemma extends_set_background bg st : extends st (set_background bg st) [].
Proof. split; try done. simpl. by rewrite app_nil_r. Qed.

Lemma extends_detach ts st : extends st (detach ts st) [].
Proof. apply extends_set_background. Qed.

Lemma extends_nil_r st st' os : extends st st' (os ++ []) -> extends st st' os.
Proof. by rewrite app_nil_r. Qed.

(** ** Handlers that never fail *)

Lemma run_prog_quiet h k :
  settles k = true ->
  Forall (fun o => running_obs o = true) (run_prog h k).1 /\
  ((run_prog h k).2 = EndRet \/
   exists k', (run_prog h k).2 = EndYield k' /\ settles k' = true /\ (yields k' < yields k)%nat).
Proof.
  induction k as [ | t | a k IH | k IH]; simpl; intros Hk; try done.
  - split; [constructor | by left].
  - destruct (IH Hk) as [Hos He]. destruct (run_prog h k) as [os e]; simpl in *.
    split; [by constructor | done].
  - split; [constructor|]. right. exists k. split_and!; [done | done | lia].
Qed.

Lemma resume_quiet E h ty c k st :
  settles k = true ->
  exists st1 os r,
    resume E h ty c k st = Some (st1, r) /\ extends st st1 os /\
    background st1 = background st /\
    Forall (fun o => running_obs o = true) os /\
    ((r = Finished /\ ObsHandlerEnd h ty ∈ os) \/
     exists k', r = Still (TRun h ty c k') /\ settles k' = true /\ (yields k' < yields k)%nat).
Proof.
  intros Hk. destruct (run_prog_quiet h k Hk) as [Hos He]. unfold resume.
  destruct (run_prog h k) as [os e]; simpl in *.
  destruct He as [-> | (k' & -> & Hk' & Hlt)].
  - exists (log (ObsHandlerEnd h ty) (logs os st)), (os ++ [ObsHandlerEnd h ty]), Finished.
    split_and!; try done.
    + eapply extends_trans; [apply extends_logs | apply extends_log].
    + apply Forall_app. split; [done|]. by constructor.
    + left. split; [done|]. apply elem_of_app. right. by apply list_elem_of_singleton.
  - exists (logs os st), os, (Still (TRun h ty c k')).
    split_and!; [done | apply extends_logs | done | done | right; by exists k'].
Qed.

Lemma turns_quiet f cs st :
  (1 <= f)%nat -> Forall quiet_task cs ->
  exists st1 rs os,
    run_all (turn f) cs st = Some (st1, rs) /\ extends st st1 os /\
    background st1 = background st /\
    Forall (fun o => running_obs o = true) os /\ advanced cs rs os.
Proof.
  intros Hf. destruct f as [|f]; [lia|]. clear Hf.
  revert st. induction cs as [|t cs IH]; intros st Hq.
  - exists st, [], []. split_and!; try done; [apply extends_refl|].
    split_and!; try done; intros t Ht; by apply elem_of_nil in Ht.
  - apply Forall_cons in Hq as [Ht Hcs]. destruct t as [h ty c k|]; [|done].
    simpl in Ht.
    destruct (resume_quiet (spawn f) h ty c k st Ht) as (st1 & os1 & r & Hr & Hext1 & Hbg1 & Hos1 & Hcase).
    destruct (IH st1 Hcs) as (st2 & rs & os2 & Hrs & Hext2 & Hbg2 & Hos2 & Hno & Hqs & Hlt & Hcov).
    exists st2, (r :: rs), (os1 ++ os2).
    split_and!.
    + cbn [run_all].
      change (turn (S f) (TRun h ty c k) st) with (resume (spawn f) h ty c k st).
      rewrite Hr. by rewrite Hrs.
    + by eapply extends_trans.
    + congruence.
    + by apply Forall_app.
    + destruct Hcase as [[-> Hend] | (k' & -> & Hk' & Hyl)].
      * split_and!; try done.
        -- intros t' Ht'. destruct (Hlt t' Ht') as (t & Hin & ?). exists t.
           split; [by apply elem_of_cons; right | done].
        -- intros t Hin. apply elem_of_cons in Hin as [-> | Hin].
           ++ left. unfold ended; simpl. apply elem_of_app. by left.
           ++ destruct (Hcov t Hin) as [He | Hs]; [left | by right].
              unfold ended in *. apply elem_of_app. by right.
      * split_and!; try done.
        -- simpl. by constructor.
        -- intros t' Ht'. simpl in Ht'. apply elem_of_cons in Ht' as [-> | Ht'].
           ++ exists (TRun h ty c k). split; [by apply elem_of_cons; left | done].
           ++ destruct (Hlt t' Ht') as (t & Hin & ?). exists t.
              split; [by apply elem_of_cons; right | done].
        -- intros t Hin. simpl. apply elem_of_cons in Hin as [-> | Hin].
           ++ right. apply elem_of_cons. by left.
           ++ destruct (Hcov t Hin) as [He | Hs].
              ** left. unfold ended in *. apply elem_of_app. by right.
              ** right. apply elem_of_cons. by right.
Qed.

Lemma round_quiet f st :
  (1 <= f)%nat -> quiet st ->
  exists st1 os,
    round f st = Some st1 /\ extends st st1 os /\ quiet st1 /\
    Forall (fun o => running_obs o = true) os /\
    descend (background st) (background st1).
Proof.
  intros Hf [Hreg Hbg]. unfold round.
  destruct (turns_quiet f (background st) (set_background [] st) Hf Hbg)
    as (st1 & rs & os & -> & Hext & Hbg1 & Hos & Hno & Hqs & Hlt & Hcov).
  simpl in Hbg1. rewrite Hbg1, app_nil_r.
  exists (set_background (stills rs) st1), os. split_and!; try done.
  - apply extends_nil_r. eapply extends_trans; [|apply extends_set_background].
    apply extends_nil_r in Hext || idtac.
    destruct Hext. by split.
  - split; [|done]. intros ty hs. simpl. rewrite (ext_handlers _ _ _ Hext). apply Hreg.
Qed.

Lemma converges_of {A} (m : nat -> M A) f st st' r :
  steady m -> m f st = Some (st', r) -> converges m st st' r.
Proof. intros Hm H. exists f. intros f' Hle. by apply (Hm f f' Hle). Qed.

Lemma drain_quiet st :
  quiet st ->
  exists f st' os,
    drain f st = Some st' /\ extends st st' os /\ quiet st' /\ background st' = [] /\
    Forall (fun o => running_obs o = true) os.
Proof.
  assert (exists N, Forall (fun t => (task_yields t < N)%nat) (background st)) as [N HN].
  { induction (background st) as [|t bg [N IH]]; [by exists 0%nat|].
    exists (S (Nat.max N (task_yields t))). constructor; [lia|].
    eapply Forall_impl; [exact IH|]. simpl. intros; lia. }
  revert st HN. induction N as [|N IH]; intros st HN Hq.
  - exists 0%nat, st, []. destruct (background st) as [|t bg] eqn:E.
    + simpl. rewrite E. split_and!; try done. apply extends_refl.
    + apply Forall_cons in HN as [? _]. lia.
  - destruct (background st) as [|t0 bg0] eqn:E.
    { exists 0%nat, st, []. simpl. rewrite E. split_and!; try done. apply extends_refl. }
    destruct (round_quiet 1 st) as (st1 & os1 & Hr & Hext1 & Hq1 & Hos1 & Hd); [lia | done |].
    destruct (IH st1) as (f & st' & os2 & Hdr & Hext2 & Hq' & Hbg' & Hos2); [|done|].
    { apply Forall_forall. intros t' Ht'. destruct (Hd t' Ht') as (t & Hin & _ & Hlt).
      rewrite E in Hin. eapply Forall_forall in HN; [|exact Hin]. simpl in HN. lia. }
    exists (S (Nat.max f 1)), st', (os1 ++ os2). split_and!; try done.
    + simpl. rewrite E.
      rewrite (round_mono 1 (Nat.max f 1) st st1) by (done || lia).
      apply (drain_mono f); [lia | done].
    + by eapply extends_trans.
    + by apply Forall_app.
Qed.

Lemma await_quiet cs st :
  quiet st -> Forall quiet_task cs ->
  exists f st' os,
    await f (Still (TWait cs)) st = Some (st', Ok tt) /\ extends st st' os /\ quiet st' /\
    Forall (fun o => running_obs o = true) os /\
    (forall t', t' ∈ background st' -> exists t, t ∈ background st /\ task_key t' = task_key t) /\
    (forall t, t ∈ cs -> ended os (task_key t)).
Proof.
  assert (exists N, Forall (fun t => (task_yields t < N)%nat) cs) as [N HN].
  { induction cs as [|t bg [N IH]]; [by exists 0%nat|].
    exists (S (Nat.max N (task_yields t))). constructor; [lia|].
    eapply Forall_impl; [exact IH|]. simpl. intros; lia. }
  revert cs st HN. induction N as [|N IH]; intros cs st HN Hq Hcs.
  - destruct cs as [|t cs]; [|apply Forall_cons in HN as [? _]; lia].
    destruct (round_quiet 1 st) as (st1 & os1 & Hr & Hext1 & Hq1 & Hos1 & Hd); [lia | done |].
    exists 3%nat, (detach [] st1), os1. split_and!; try done.
    + cbn [await]. rewrite (round_mono 1 2 st st1) by (done || lia). done.
    + apply extends_nil_r. eapply extends_trans; [done | apply extends_detach].
    + destruct Hq1 as [Hreg Hbg]. split; [done|]. simpl. by rewrite app_nil_r.
    + simpl. rewrite app_nil_r. intros t' Ht'. destruct (Hd t' Ht') as (t & ? & ? & ?). by exists t.
    + intros t Ht. by apply elem_of_nil in Ht.
  - destruct (round_quiet 1 st) as (st1 & os1 & Hr & Hext1 & Hq1 & Hos1 & Hd); [lia | done |].
    destruct (turns_quiet 1 cs st1) as (st2 & rs & os2 & Hrs & Hext2 & Hbg2 & Hos2 & Hno & Hqs & Hlt & Hcov);
      [lia | done |].
    assert (quiet (detach [] st2)) as Hq2.
    { destruct Hq1 as [Hreg Hbg]. split.
      - intros ty hs. simpl. rewrite (ext_handlers _ _ _ Hext2). apply Hreg.
      - simpl. rewrite app_nil_r, Hbg2. done. }
    assert (extends st (detach [] st2) (os1 ++ os2)) as Hext.
    { apply extends_nil_r. eapply extends_trans; [|apply extends_detach].
      by eapply extends_trans. }
    assert (forall t', t' ∈ background (detach [] st2) ->
              exists t, t ∈ background st /\ task_key t' = task_key t) as Hdesc.
    { simpl. rewrite app_nil_r, Hbg2. intros t' Ht'.
      destruct (Hd t' Ht') as (t & ? & ? & ?). by exists t. }
    destruct (stills rs) as [|s ss] eqn:Es.
    + exists 3%nat, (detach [] st2), (os1 ++ os2). split_and!; try done.
      * cbn [await]. rewrite (round_mono 1 2 st st1) by (done || lia).
        change (turn 2 (TWait cs) st1) with
          (match run_all (turn 1) cs st1 with
           | None => None
           | Some (st1, rs) => let '(r, orphans) := join rs in Some (detach orphans st1, r)
           end).
        rewrite Hrs. unfold join. rewrite Hno, Es. done.
      * by apply Forall_app.
      * intros t Ht. destruct (Hcov t Ht) as [He | Hs].
        -- unfold ended in *. apply elem_of_app. by right.
        -- by apply elem_of_nil in Hs.
    + destruct (IH (s :: ss) (detach [] st2)) as (f & st' & os3 & Haw & Hext3 & Hq' & Hos3 & Hd3 & Hend);
        [|done|done|].
      { apply Forall_forall. intros t' Ht'.
        destruct (Hlt t' Ht') as (t & Hin & _ & Hl).
        eapply Forall_forall in HN; [|exact Hin]. simpl in HN. lia. }
      exists (S (Nat.max f 2)), st', ((os1 ++ os2) ++ os3). split_and!; try done.
      * cbn [await]. rewrite (round_mono 1 (Nat.max f 2) st st1) by (done || lia).
        rewrite (turn_mono 2 (Nat.max f 2) (TWait cs) st1 (detach [] st2, Still (TWait (s :: ss))));
          [| lia |].
        -- apply (await_mono f); [lia | done].
        -- change (turn 2 (TWait cs) st1) with
             (match run_all (turn 1) cs st1 with
              | None => None
              | Some (st1, rs) => let '(r, orphans) := join rs in Some (detach orphans st1, r)
              end).
           rewrite Hrs. unfold join. rewrite Hno, Es. done.
      * by eapply extends_trans.
      * apply Forall_app. split; [by apply Forall_app | done].
      * intros t' Ht'. destruct (Hd3 t' Ht') as (t1 & Hin1 & Hk1).
        destruct (Hdesc t1 Hin1) as (t & ? & ?). exists t. split; [done | congruence].
      * intros t Ht. destruct (Hcov t Ht) as [He | Hs].
        -- unfold ended in *. apply elem_of_app. left. apply elem_of_app. by right.
        -- apply list_elem_of_fmap in Hs as (t1 & Hk & Hin1).
           specialize (Hend t1 Hin1). rewrite Hk. unfold ended in *.
           apply elem_of_app. by right.
Qed.

Lemma started_app ty os1 os2 : started ty (os1 ++ os2) = started ty os1 ++ started ty os2.
Proof. unfold started. apply omap_app. Qed.

Lemma started_running ty os :
  Forall (fun o => running_obs o = true) os -> started ty os = [].
Proof.
  induction 1 as [|o os Ho _ IH]; [done|]. destruct o; try discriminate; exact IH.
Qed.

Lemma started_start ty h os :
  started ty (ObsHandlerStart h ty :: os) = h :: started ty os.
Proof. unfold started. simpl. by rewrite String.eqb_refl. Qed.

Lemma running_handler_obs os :
  Forall (fun o => running_obs o = true) os -> Forall (fun o => handler_obs o = true) os.
Proof. intros H. eapply Forall_impl; [exact H|]. by intros []. Qed.

Lemma starts_quiet E ty c ev hs st :
  Forall quiet_handler hs ->
  exists st1 rs os,
    run_all (fun handler st' =>
               resume E (hid handler) ty c (hrun handler ev)
                      (log (ObsHandlerStart (hid handler) ty) st')) hs st
      = Some (st1, rs) /\
    extends st st1 os /\ background st1 = background st /\
    Forall (fun o => handler_obs o = true) os /\
    started ty os = hid <$> hs /\
    first_rejection rs = None /\ Forall quiet_task (stills rs) /\
    (forall h, h ∈ hs -> ended os (hid h, ty) \/ (hid h, ty) ∈ task_key <$> stills rs).
Proof.
  revert st. induction hs as [|h hs IH]; intros st Hq.
  - exists st, [], []. split_and!; try done; [apply extends_refl|].
    intros h Hh. by apply elem_of_nil in Hh.
  - apply Forall_cons in Hq as [Hh Hhs].
    destruct (resume_quiet E (hid h) ty c (hrun h ev) (log (ObsHandlerStart (hid h) ty) st) (Hh ev))
      as (st1 & os1 & r & Hr & Hext1 & Hbg1 & Hos1 & Hcase).
    destruct (IH st1 Hhs) as (st2 & rs & os2 & Hrs & Hext2 & Hbg2 & Hos2 & Hst & Hno & Hqs & Hcov).
    exists st2, (r :: rs), ((ObsHandlerStart (hid h) ty :: os1) ++ os2).
    split_and!.
    + cbn [run_all]. rewrite Hr. by rewrite Hrs.
    + eapply extends_trans; [|done].
      change (ObsHandlerStart (hid h) ty :: os1) with ([ObsHandlerStart (hid h) ty] ++ os1).
      eapply extends_trans; [apply extends_log | done].
    + simpl in Hbg1. congruence.
    + apply Forall_app. split; [|done]. constructor; [done|]. by apply running_handler_obs.
    + by rewrite started_app, Hst, started_start, (started_running ty os1).
    + by destruct Hcase as [[-> _] | (k' & -> & _)].
    + destruct Hcase as [[-> _] | (k' & -> & Hk' & _)]; [done|]. simpl. by constructor.
    + intros h' Hin. apply elem_of_cons in Hin as [-> | Hin].
      * destruct Hcase as [[-> Hend] | (k' & -> & Hk' & _)].
        -- left. unfold ended. apply elem_of_app. left. apply elem_of_cons. by right.
        -- right. simpl. apply elem_of_cons. by left.
      * destruct (Hcov h' Hin) as [He | Hs].
        -- left. unfold ended in *. apply elem_of_app. by right.
        -- right. destruct Hcase as [[-> _] | (k' & -> & _)]; simpl; [done|].
           apply elem_of_cons. by right.
Qed.

Lemma spawn_eq f ty d err st :
  spawn (S f) ty d err st =
  let st0 := log (ObsEmit ty d err) st in
  match eventHandlers st0 !! ty with
  | None | Some [] => Some (st0, Finished)
  | Some handlers =>
      let event := {| type := ty; timestamp := now st0; data := d;
                      error := err; retryCount := None |} in
      let options :=
        default {| async := Some false; catchErrors := Some true |}
                (eventOptions st0 !! ty) in
      match run_all (fun handler st' =>
                       resume (spawn f) (hid handler) ty (truthy (catchErrors options))
                              (hrun handler event)
                              (log (ObsHandlerStart (hid handler) ty) st'))
                    handlers st0 with
      | None => None
      | Some (st1, rs) =>
          if truthy (async options) then Some (detach (stills rs) st1, Finished)
          else let '(r, orphans) := join rs in Some (detach orphans st1, r)
      end
  end.
Proof. reflexivity. Qed.

Lemma steady_emit ty d err : steady (fun f => emit f ty d err).
Proof. intros f f' Hle. by apply agrees_emit. Qed.

(** An emission on a state where no handler fails: it returns, and every
    handler of the type was started in registration order.  When the type is
    delivered synchronously every handler has also finished. *)
Lemma emit_quiet_full ty d err st :
  quiet st ->
  exists st' os,
    converges (fun f => emit f ty d err) st st' (Ok tt) /\
    extends st st' (ObsEmit ty d err :: os) /\ quiet st' /\
    Forall (fun o => handler_obs o = true) os /\
    started ty os = hid <$> default [] (eventHandlers st !! ty) /\
    (truthy (async (default {| async := Some false; catchErrors := Some true |}
                            (eventOptions st !! ty))) = false ->
       (forall h, h ∈ default [] (eventHandlers st !! ty) -> ended os (hid h, ty)) /\
       (forall t', t' ∈ background st' -> exists t, t ∈ background st /\ task_key t' = task_key t)).
Proof.
  intros Hq. pose proof Hq as [Hreg Hbg].
  set (st0 := log (ObsEmit ty d err) st).
  assert (extends st st0 [ObsEmit ty d err]) as Hext0 by apply extends_log.
  assert (quiet st0) as Hq0 by done.
  destruct (eventHandlers st !! ty) as [hs|] eqn:Ehs; cycle 1.
  { exists st0, []. split_and!; try done.
    - apply (converges_of _ 1%nat); [apply steady_emit|].
      unfold emit. simpl. by rewrite Ehs.
    - intros _. split; [intros h Hh; by apply elem_of_nil in Hh|].
      intros t' Ht'. by exists t'. }
  destruct hs as [|h0 hs0].
  { exists st0, []. split_and!; try done.
    - apply (converges_of _ 1%nat); [apply steady_emit|].
      unfold emit. simpl. by rewrite Ehs.
    - intros _. split; [intros h Hh; by apply elem_of_nil in Hh|].
      intros t' Ht'. by exists t'. }
  set (hs := h0 :: hs0) in *.
  set (options := default {| async := Some false; catchErrors := Some true |}
                          (eventOptions st !! ty)).
  set (ev := {| type := ty; timestamp := now st0; data := d; error := err; retryCount := None |}).
  destruct (starts_quiet (spawn 0) ty (truthy (catchErrors options)) ev hs st0 (Hreg _ _ Ehs))
    as (st1 & rs & os1 & Hrs & Hext1 & Hbg1 & Hos1 & Hst & Hno & Hqs & Hcov).
  assert (spawn 1 ty d err st =
            if truthy (async options) then Some (detach (stills rs) st1, Finished)
            else let '(r, orphans) := join rs in Some (detach orphans st1, r)) as Hspawn.
  { subst hs. rewrite spawn_eq. cbv zeta. fold st0.
    change (eventHandlers st0) with (eventHandlers st). rewrite Ehs.
    change (eventOptions st0) with (eventOptions st). fold options. fold ev.
    by rewrite Hrs. }
  destruct (truthy (async options)) eqn:Easync.
  - exists (detach (stills rs) st1), os1. split_and!; try done.
    + apply (converges_of _ 1%nat); [apply steady_emit|]. unfold emit. by rewrite Hspawn.
    + change (ObsEmit ty d err :: os1) with ([ObsEmit ty d err] ++ os1).
      apply extends_nil_r. eapply extends_trans; [|apply extends_detach].
      by eapply extends_trans.
    + split.
      * intros ty' hs'. simpl. rewrite (ext_handlers _ _ _ Hext1). apply Hreg.
      * simpl. apply Forall_app. split; [|done]. by rewrite Hbg1.
  - unfold join in Hspawn. rewrite Hno in Hspawn.
    destruct (stills rs) as [|s ss] eqn:Es.
    + exists (detach [] st1), os1. split_and!; try done.
      * apply (converges_of _ 1%nat); [apply steady_emit|]. unfold emit. by rewrite Hspawn.
      * change (ObsEmit ty d err :: os1) with ([ObsEmit ty d err] ++ os1).
        apply extends_nil_r. eapply extends_trans; [|apply extends_detach].
        by eapply extends_trans.
      * split.
        -- intros ty' hs'. simpl. rewrite (ext_handlers _ _ _ Hext1). apply Hreg.
        -- simpl. by rewrite app_nil_r, Hbg1.
      * intros _. split.
        -- intros h Hh. destruct (Hcov h Hh) as [He | Hs]; [done|]. by apply elem_of_nil in Hs.
        -- simpl. rewrite app_nil_r, Hbg1. intros t' Ht'. by exists t'.
    + assert (quiet (detach [] st1)) as Hq1.
      { split.
        - intros ty' hs'. simpl. rewrite (ext_handlers _ _ _ Hext1). apply Hreg.
        - simpl. by rewrite app_nil_r, Hbg1. }
      destruct (await_quiet (s :: ss) (detach [] st1) Hq1 Hqs)
        as (f & st' & os2 & Haw & Hext2 & Hq' & Hos2 & Hd & Hend).
      exists st', (os1 ++ os2). split_and!; try done.
      * apply (converges_of _ (Nat.max f 1)); [apply steady_emit|]. unfold emit.
        rewrite (spawn_mono 1 (Nat.max f 1) ty d err st _ ltac:(lia) Hspawn).
        apply (await_mono f); [lia | done].
      * change (ObsEmit ty d err :: os1 ++ os2) with (([ObsEmit ty d err] ++ os1) ++ os2).
        eapply extends_trans; [|done].
        apply extends_nil_r. eapply extends_trans; [|apply extends_detach].
        by eapply extends_trans.
      * apply Forall_app. split; [done|]. by apply running_handler_obs.
      * by rewrite started_app, (started_running ty os2), app_nil_r.
      * intros _. split.
        -- intros h Hh. unfold ended. apply elem_of_app.
           destruct (Hcov h Hh) as [He | Hs]; [by left|]. right.
           apply list_elem_of_fmap in Hs as (t1 & Hk & Hin1).
           specialize (Hend t1 Hin1). by rewrite <- Hk in Hend.
        -- intros t' Ht'. destruct (Hd t' Ht') as (t & Hin & Hk). exists t.
           split; [|done]. simpl in Hin. by rewrite app_nil_r, Hbg1 in Hin.
Qed.

(** ** Handlers that fail *)

Lemma max_list_lt N l : (0 < N)%nat -> (max_list l < N)%nat <-> Forall (fun x => (x < N)%nat) l.
Proof.
  intros HN. induction l as [|x l IH]; simpl.
  - split; [constructor | done].
  - rewrite Forall_cons, <- IH. lia.
Qed.

Lemma max_list_le N l : (max_list l <= N)%nat <-> Forall (fun x => (x <= N)%nat) l.
Proof.
  induction l as [|x l IH]; simpl.
  - split; [constructor | lia].
  - rewrite Forall_cons, <- IH. lia.
Qed.

Lemma run_prog_failure h k :
  match (run_prog h k).2 with
  | EndRet => failure k = None
  | EndThrow t => failure k = Some t /\ yields k = 0%nat
  | EndYield k' => failure k' = failure k /\ (yields k' < yields k)%nat
  end.
Proof.
  induction k as [ | t | a k IH | k IH]; simpl; try done.
  - destruct (run_prog h k) as [os e]. exact IH.
  - split; [done | lia].
Qed.

Lemma settles_no_failure k :
  settles k = true -> failure k = None.
Proof. induction k; simpl; try done. Qed.

Lemma grows_quietly_refl m st : grows_quietly m st st.
Proof. exists []. by rewrite app_nil_r. Qed.

Lemma grows_quietly_trans m st st1 st2 :
  grows_quietly m st st1 -> grows_quietly m st1 st2 -> grows_quietly m st st2.
Proof.
  intros (n1 & H1 & Hq1 & Hy1) (n2 & H2 & Hq2 & Hy2). exists (n1 ++ n2).
  split_and!; [by rewrite H2, H1, app_assoc | by apply Forall_app | by apply Forall_app].
Qed.

Lemma grows_quietly_same m st st' :
  background st' = background st -> grows_quietly m st st'.
Proof. intros H. exists []. by rewrite app_nil_r. Qed.

Lemma grows_quietly_mono m m' st st' :
  (m <= m')%nat -> grows_quietly m st st' -> grows_quietly m' st st'.
Proof.
  intros Hle (new & H & Hq & Hy). exists new. split_and!; [done | done |].
  eapply Forall_impl; [exact Hy|]. simpl. intros; lia.
Qed.

Lemma grows_quietly_frame m st st1 st' :
  background st1 = background st -> grows_quietly m st1 st' -> grows_quietly m st st'.
Proof. intros Hbg (new & H & Hq). exists new. by rewrite <- Hbg. Qed.

Lemma handler_bus_obs os :
  Forall (fun o => handler_obs o = true) os -> Forall (fun o => bus_obs o = true) os.
Proof. intros H. eapply Forall_impl; [exact H|]. by intros []. Qed.

Lemma announce_bound_frame st st' :
  eventHandlers st' = eventHandlers st -> now st' = now st ->
  announce_bound st' = announce_bound st.
Proof. intros Hh Hn. unfold announce_bound. by rewrite Hh, Hn. Qed.

Lemma max_list_elem x l : x ∈ l -> (x <= max_list l)%nat.
Proof.
  induction l as [|y l IH]; intros Hx; [by apply elem_of_nil in Hx|].
  simpl. apply elem_of_cons in Hx as [-> | Hx]; [lia|]. specialize (IH Hx). lia.
Qed.

Lemma starts_quiet_yields E ty c ev hs : forall st st1 rs,
  Forall quiet_handler hs ->
  run_all (fun handler st' =>
             resume E (hid handler) ty c (hrun handler ev)
                    (log (ObsHandlerStart (hid handler) ty) st')) hs st
    = Some (st1, rs) ->
  forall q, q ∈ stills rs -> exists h, h ∈ hs /\ (task_yields q < yields (hrun h ev))%nat.
Proof.
  induction hs as [|h hs IH]; intros st st1 rs Hq Hrun q Hin.
  - simpl in Hrun. injection Hrun as <- <-. by apply elem_of_nil in Hin.
  - apply Forall_cons in Hq as [Hh Hhs]. cbn [run_all] in Hrun.
    destruct (resume_quiet E (hid h) ty c (hrun h ev) (log (ObsHandlerStart (hid h) ty) st) (Hh ev))
      as (sa & osa & r & Hr & _ & _ & _ & Hcase).
    rewrite Hr in Hrun.
    destruct (run_all _ hs sa) as [[sb rs']|] eqn:E2; [|done].
    injection Hrun as <- <-.
    assert (forall q, q ∈ stills rs' ->
              exists h', h' ∈ h :: hs /\ (task_yields q < yields (hrun h' ev))%nat) as Htail.
    { intros q' Hq'. destruct (IH _ _ _ Hhs E2 q' Hq') as (h' & Hh' & Hlt).
      exists h'. split; [by apply elem_of_cons; right | done]. }
    destruct Hcase as [[-> _] | (k' & -> & _ & Hlt)]; simpl in Hin.
    + by apply Htail.
    + apply elem_of_cons in Hin as [-> | Hin]; [|by apply Htail].
      exists h. split; [by apply elem_of_cons; left | done].
Qed.

Lemma announces_quietly_frame st st' :
  eventHandlers st' = eventHandlers st -> announces_quietly st -> announces_quietly st'.
Proof. intros Hh Ha hs. rewrite Hh. apply Ha. Qed.

Lemma turn_wait_eq f cs st :
  turn (S f) (TWait cs) st =
  match run_all (turn f) cs st with
  | None => None
  | Some (st1, rs) => let '(r, orphans) := join rs in Some (detach orphans st1, r)
  end.
Proof. reflexivity. Qed.

Lemma await_eq f task st :
  await (S f) (Still task) st =
  match round f st with
  | None => None
  | Some st1 =>
      match turn f task st1 with
      | None => None
      | Some (st2, r') => await f r' st2
      end
  end.
Proof. reflexivity. Qed.

(** Announcing a failure to [handler:error]. *)
Lemma spawn_announce f t st :
  announces_quietly st ->
  exists st1 os r,
    spawn (S f) "handler:error" None (Some t) st = Some (st1, r) /\
    extends st st1 (ObsEmit "handler:error" None (Some t) :: os) /\
    Forall (fun o => handler_obs o = true) os /\
    grows_quietly (announce_bound st t) st st1 /\ announced (announce_bound st) t r.
Proof.
  intros Ha. rewrite spawn_eq. cbv zeta.
  set (o := ObsEmit "handler:error" None (Some t)).
  set (st0 := log o st).
  change (eventHandlers st0) with (eventHandlers st).
  change (eventOptions st0) with (eventOptions st).
  change (now st0) with (now st). fold (failure_event (now st) t).
  unfold announce_bound.
  destruct (eventHandlers st !! "handler:error") as [hs|] eqn:Ehs; cycle 1.
  { exists st0, [], Finished.
    split_and!; [done | apply extends_log | done | by apply grows_quietly_same | by left]. }
  specialize (Ha hs Ehs).
  destruct hs as [|h0 hs0].
  { exists st0, [], Finished.
    split_and!; [done | apply extends_log | done | by apply grows_quietly_same | by left]. }
  set (hs := h0 :: hs0) in *.
  set (options := default {| async := Some false; catchErrors := Some true |}
                          (eventOptions st !! "handler:error")).
  set (ev := failure_event (now st) t).
  destruct (starts_quiet (spawn f) "handler:error" (truthy (catchErrors options)) ev hs st0 Ha)
    as (st1 & rs & os1 & Hrs & Hext1 & Hbg1 & Hos1 & Hst & Hno & Hqs & Hcov).
  pose proof (starts_quiet_yields _ _ _ _ _ _ _ _ Ha Hrs) as Hyl.
  assert (Forall (fun q => (task_yields q < max_list ((fun h => yields (hrun h ev)) <$> hs))%nat)
                 (stills rs)) as Hbound.
  { apply Forall_forall. intros q Hq. destruct (Hyl q Hq) as (h & Hh & Hlt).
    assert (yields (hrun h ev) <= max_list ((fun h => yields (hrun h ev)) <$> hs))%nat.
    { apply max_list_elem. by apply (list_elem_of_fmap_2 (fun h => yields (hrun h ev))). }
    lia. }
  assert (forall ts, extends st (detach ts st1) (o :: os1)) as Hext.
  { intros ts. apply extends_nil_r. eapply extends_trans; [|apply extends_detach].
    change (o :: os1) with ([o] ++ os1). eapply extends_trans; [apply extends_log | done]. }
  change (default [] (Some hs)) with hs.
  subst hs. rewrite Hrs.
  destruct (truthy (async options)).
  - exists (detach (stills rs) st1), os1, Finished. split_and!; [done | done | done | | by left].
    exists (stills rs). split_and!; [|done|done]. simpl. by rewrite Hbg1.
  - unfold join. rewrite Hno. destruct (stills rs) as [|s ss] eqn:Es.
    + exists (detach [] st1), os1, Finished. split_and!; [done | done | done | | by left].
      exists []. split_and!; [|done|done]. simpl. by rewrite Hbg1.
    + exists (detach [] st1), os1, (Still (TWait (s :: ss))). split_and!; [done | done | done | |].
      * exists []. split_and!; [|done|done]. simpl. by rewrite Hbg1.
      * right. exists (s :: ss). split_and!; [done | done |].
        eapply Forall_impl; [exact Hbound|]. cbv beta. intros q Hq.
        change (default [] (Some (h0 :: hs0))) with (h0 :: hs0). subst ev. lia.
Qed.

Lemma announced_frame st st' t r :
  eventHandlers st' = eventHandlers st -> now st' = now st ->
  announced (announce_bound st') t r -> announced (announce_bound st) t r.
Proof. intros Hh Hn. by rewrite (announce_bound_frame st st' Hh Hn). Qed.

Lemma run_prog_obs h k : Forall (fun o => handler_obs o = true) (run_prog h k).1.
Proof.
  induction k as [ | t | a k IH | k IH]; simpl; try done.
  destruct (run_prog h k) as [os e]. by constructor.
Qed.

Lemma weight_quiet B q : quiet_task q -> weight B q = task_yields q.
Proof.
  destruct q as [h ty c k | qs]; [|done]. simpl. intros Hk.
  rewrite (settles_no_failure k Hk). lia.
Qed.

Lemma quiet_sound q : quiet_task q -> sound_task q.
Proof. by destruct q. Qed.

(** What the background gained is sound. *)
Lemma grows_sound m st st' :
  grows_quietly m st st' -> Forall sound_task (background st) ->
  Forall sound_task (background st').
Proof.
  intros (new & -> & Hq & _) Hbg. apply Forall_app. split; [done|].
  eapply Forall_impl; [exact Hq|]. apply quiet_sound.
Qed.

(** One turn of a handler, whatever it does. *)
Lemma resume_sound f h ty c k st N :
  announces_quietly st -> (weight (announce_bound st) (TRun h ty c k) < S N)%nat ->
  exists st1 os r,
    resume (spawn (S f)) h ty c k st = Some (st1, r) /\ extends st st1 os /\
    Forall (fun o => bus_obs o = true) os /\
    grows_quietly N st st1 /\ stepped (announce_bound st) (TRun h ty c k) r os.
Proof.
  intros Ha Hw. unfold resume. pose proof (run_prog_failure h k) as Hk.
  pose proof (handler_bus_obs _ (run_prog_obs h k)) as Hos.
  destruct (run_prog h k) as [os [ | t | k']]; simpl in Hk, Hos.
  - exists (log (ObsHandlerEnd h ty) (logs os st)), (os ++ [ObsHandlerEnd h ty]), Finished.
    split_and!; [done | | | by apply grows_quietly_same |].
    + eapply extends_trans; [apply extends_logs | apply extends_log].
    + apply Forall_app. split; [done|]. by constructor.
    + apply stepped_return; [done|]. apply elem_of_app. right. by apply list_elem_of_singleton.
  - destruct Hk as [Hfail Hy].
    set (st2 := log (ObsHandlerFail h t) (logs os st)).
    assert (extends st st2 (os ++ [ObsHandlerFail h t])) as Hext2.
    { eapply extends_trans; [apply extends_logs | apply extends_log]. }
    assert (Forall (fun o => bus_obs o = true) (os ++ [ObsHandlerFail h t])) as Hos2.
    { apply Forall_app. split; [done|]. by constructor. }
    destruct c; simpl.
    + destruct (spawn_announce f t st2) as (st3 & os3 & r & Hr & Hext3 & Hos3 & Hg3 & Hann).
      { by apply (announces_quietly_frame st). }
      rewrite (announce_bound_frame st st2) in Hg3 by done.
      exists st3, ((os ++ [ObsHandlerFail h t]) ++ ObsEmit "handler:error" None (Some t) :: os3), r.
      split_and!; [done | by eapply extends_trans | | |].
      * apply Forall_app. split; [done|]. constructor; [done|]. by apply handler_bus_obs.
      * apply (grows_quietly_frame _ st st2); [done|].
        eapply grows_quietly_mono; [|exact Hg3]. simpl in Hw. rewrite Hfail in Hw. lia.
      * apply stepped_announce with (t := t); [done | done | |].
        -- apply elem_of_app. right. apply elem_of_cons. by left.
        -- by apply (announced_frame st st2 t r).
    + exists st2, (os ++ [ObsHandlerFail h t]), (Rejected t).
      split_and!; [done | done | done | by apply grows_quietly_same | by apply stepped_reject].
  - destruct Hk as [Hfail Hy].
    exists (logs os st), os, (Still (TRun h ty c k')).
    split_and!; [done | apply extends_logs | done | by apply grows_quietly_same | by apply stepped_yield].
Qed.

Lemma turn_sound f task st N :
  announces_quietly st -> sound_task task ->
  (weight (announce_bound st) task < S N)%nat ->
  exists st1 os r,
    turn (S (S f)) task st = Some (st1, r) /\ extends st st1 os /\
    Forall (fun o => bus_obs o = true) os /\
    grows_quietly N st st1 /\ stepped (announce_bound st) task r os.
Proof.
  intros Ha Hs Hw. destruct task as [h ty c k | qs].
  - apply resume_sound; done.
  - simpl in Hs.
    destruct (turns_quiet (S f) qs st) as (st1 & rs & os & Hrs & Hext & Hbg & Hos & Hno & Hqs & Hlt & Hcov);
      [lia | done |].
    rewrite turn_wait_eq.
    rewrite Hrs. unfold join. rewrite Hno.
    assert (extends st (detach [] st1) os) as Hext'.
    { apply extends_nil_r. eapply extends_trans; [done | apply extends_detach]. }
    assert (grows_quietly N st (detach [] st1)) as Hg.
    { exists []. split_and!; [|done|done]. simpl. by rewrite Hbg. }
    assert (Forall (fun o => bus_obs o = true) os) as Hos'
      by (by apply handler_bus_obs, running_handler_obs).
    destruct (stills rs) as [|s ss] eqn:Es.
    + exists (detach [] st1), os, Finished. split_and!; try done. apply stepped_wait. by left.
    + exists (detach [] st1), os, (Still (TWait (s :: ss))). split_and!; try done.
      apply stepped_wait. right. exists (s :: ss). split_and!; [done | done | done |].
      intros q' Hq'. destruct (Hlt q' Hq') as (q & Hin & _ & Hl). by exists q.
Qed.

Lemma stepped_within_mono B os1 os2 task r :
  (forall o, o ∈ os1 -> o ∈ os2) -> stepped_within B os1 task r -> stepped_within B os2 task r.
Proof. intros Hsub (os' & Hs & Hin). exists os'. split; [done|]. intros o Ho. by apply Hsub, Hin. Qed.

Lemma turns_sound f N cs : forall st,
  announces_quietly st -> Forall sound_task cs ->
  Forall (fun t => (weight (announce_bound st) t < S N)%nat) cs ->
  exists st1 rs os,
    run_all (turn (S (S f))) cs st = Some (st1, rs) /\ extends st st1 os /\
    Forall (fun o => bus_obs o = true) os /\
    grows_quietly N st st1 /\ Forall2 (stepped_within (announce_bound st) os) cs rs.
Proof.
  induction cs as [|task cs IH]; intros st Ha Hs Hw.
  - exists st, [], [].
    split_and!; [done | apply extends_refl | done | apply grows_quietly_refl | constructor].
  - apply Forall_cons in Hs as [Ht Hcs]. apply Forall_cons in Hw as [Hwt Hws].
    destruct (turn_sound f task st N Ha Ht Hwt) as (st1 & os1 & r & Hr & Hext1 & Hos1 & Hg1 & Hstep).
    assert (announce_bound st1 = announce_bound st) as HB
      by (apply announce_bound_frame; [apply (ext_handlers _ _ _ Hext1) | apply (ext_now _ _ _ Hext1)]).
    destruct (IH st1) as (st2 & rs & os2 & Hrs & Hext2 & Hos2 & Hg2 & Hall);
      [apply (announces_quietly_frame st); [apply (ext_handlers _ _ _ Hext1) | done]
      | done | by rewrite HB |].
    exists st2, (r :: rs), (os1 ++ os2). split_and!.
    + cbn [run_all]. rewrite Hr. by rewrite Hrs.
    + by eapply extends_trans.
    + by apply Forall_app.
    + by eapply grows_quietly_trans.
    + constructor.
      * exists os1. split; [done|]. intros o Ho. apply elem_of_app. by left.
      * rewrite HB in Hall.
        eapply Forall2_impl; [exact Hall|]. intros task' r'. apply stepped_within_mono.
        intros o Ho. apply elem_of_app. by right.
Qed.

Lemma starts_sound f ty c ev N hs : forall st,
  announces_quietly st ->
  Forall (fun h => (weight (announce_bound st) (TRun (hid h) ty c (hrun h ev)) < S N)%nat) hs ->
  exists st1 rs os,
    run_all (fun handler st' =>
               resume (spawn (S f)) (hid handler) ty c (hrun handler ev)
                      (log (ObsHandlerStart (hid handler) ty) st')) hs st
      = Some (st1, rs) /\
    extends st st1 os /\ Forall (fun o => bus_obs o = true) os /\ grows_quietly N st st1 /\
    Forall2 (fun h r => stepped_within (announce_bound st) os (TRun (hid h) ty c (hrun h ev)) r)
            hs rs.
Proof.
  induction hs as [|h hs IH]; intros st Ha Hw.
  - exists st, [], [].
    split_and!; [done | apply extends_refl | done | apply grows_quietly_refl | constructor].
  - apply Forall_cons in Hw as [Hwt Hws].
    set (sa := log (ObsHandlerStart (hid h) ty) st).
    destruct (resume_sound f (hid h) ty c (hrun h ev) sa N)
      as (st1 & os1 & r & Hr & Hext1 & Hos1 & Hg1 & Hstep);
      [by apply (announces_quietly_frame st) | done |].
    assert (extends st st1 (ObsHandlerStart (hid h) ty :: os1)) as Hext1'.
    { change (ObsHandlerStart (hid h) ty :: os1) with ([ObsHandlerStart (hid h) ty] ++ os1).
      eapply extends_trans; [apply extends_log | done]. }
    assert (announce_bound st1 = announce_bound st) as HB
      by (apply announce_bound_frame; [apply (ext_handlers _ _ _ Hext1') | apply (ext_now _ _ _ Hext1')]).
    destruct (IH st1) as (st2 & rs & os2 & Hrs & Hext2 & Hos2 & Hg2 & Hall);
      [apply (announces_quietly_frame st); [apply (ext_handlers _ _ _ Hext1') | done]
      | by rewrite HB |].
    exists st2, (r :: rs), ((ObsHandlerStart (hid h) ty :: os1) ++ os2). split_and!.
    + cbn [run_all]. fold sa. rewrite Hr. by rewrite Hrs.
    + by eapply extends_trans.
    + apply Forall_app. split; [by constructor | done].
    + eapply grows_quietly_trans; [|done]. by apply (grows_quietly_frame _ st sa).
    + constructor.
      * exists os1. split; [done|]. intros o Ho. apply elem_of_app. left. apply elem_of_cons. by right.
      * rewrite HB in Hall.
        eapply Forall2_impl; [exact Hall|]. intros h' r'. apply stepped_within_mono.
        intros o Ho. apply elem_of_app. by right.
Qed.
(** A turn brings every task that is still running closer to its end. *)
Lemma round_weights B os cs rs N :
  Forall2 (stepped_within B os) cs rs ->
  Forall (fun t => (weight B t < S N)%nat) cs ->
  Forall sound_task (stills rs) /\ Forall (fun t => (weight B t < N)%nat) (stills rs).
Proof.
  induction 1 as [|task r cs rs (os' & Hstep & Hsub) Hall IH]; intros Hw; [done|].
  apply Forall_cons in Hw as [Hw Hws]. destruct (IH Hws) as [Hsound Hwt]. clear IH.
  inversion Hstep as [h ty c k k' os0 Hf Hy | h ty c k os0 Hf Hend | h ty k t os0 Hf
                     | h ty k t r0 os0 Hf Hy Hemit Hann | qs r0 os0 Hcase]; subst; simpl in *.
  - split; [by constructor|]. constructor; [|done]. simpl. rewrite Hf. lia.
  - done.
  - done.
  - rewrite Hf, Hy in Hw. simpl in Hw.
    destruct Hann as [-> | (qs & -> & Hqs & Hb)]; simpl; [done|].
    split; [by constructor|]. constructor; [|done]. simpl.
    assert (max_list (task_yields <$> qs) <= B t)%nat; [|lia].
    apply max_list_le. by apply Forall_fmap.
  - destruct Hcase as [-> | (qs' & -> & Hne & Hqs & Hlt)]; simpl; [done|].
    split; [by constructor|]. constructor; [|done]. simpl.
    assert (0 < N)%nat as HN.
    { destruct qs' as [|q' qs'']; [done|].
      destruct (Hlt q') as (q & Hq & Hl); [by apply elem_of_cons; left|].
      assert (task_yields q <= max_list (task_yields <$> qs))%nat
        by (apply max_list_elem; by apply list_elem_of_fmap_2).
      lia. }
    apply max_list_lt; [done|]. apply Forall_fmap, Forall_forall. intros q' Hq'.
    destruct (Hlt q' Hq') as (q & Hq & Hl).
    assert (task_yields q <= max_list (task_yields <$> qs))%nat
      by (apply max_list_elem; by apply list_elem_of_fmap_2).
    simpl. lia.
Qed.

(** A turn of tasks that cannot make the emission fail: nothing is rejected,
    and every failure is announced or still to come. *)
Lemma round_harmless B os cs rs :
  Forall2 (stepped_within B os) cs rs -> Forall harmless cs ->
  first_rejection rs = None /\ Forall harmless (stills rs) /\
  forall t, (exists task, task ∈ cs /\ task_failure task = Some t) ->
            ObsEmit "handler:error" None (Some t) ∈ os \/
            exists task', task' ∈ stills rs /\ task_failure task' = Some t.
Proof.
  induction 1 as [|task r cs rs (os' & Hstep & Hsub) Hall IH]; intros Hc.
  - split_and!; try done. intros t (task & Hin & _). by apply elem_of_nil in Hin.
  - apply Forall_cons in Hc as [Hc Hcs].
    destruct (IH Hcs) as (Hno & Hcatch & Htrack). clear IH.
    assert (forall t, (exists task0, task0 ∈ cs /\ task_failure task0 = Some t) ->
              forall extra, ObsEmit "handler:error" None (Some t) ∈ os \/
                exists task', task' ∈ extra ++ stills rs /\ task_failure task' = Some t) as Htail.
    { intros t Ht extra. destruct (Htrack t Ht) as [? | (task' & Hin & Hf)]; [by left|].
      right. exists task'. split; [|done]. apply elem_of_app. by right. }
    inversion Hstep as [h ty c k k' os0 Hf Hy | h ty c k os0 Hf Hend | h ty k t os0 Hf
                       | h ty k t r0 os0 Hf Hy Hemit Hann | qs r0 os0 Hcase]; subst; simpl in *.
    + split_and!; [done | | ].
      * constructor; [|done]. simpl. by rewrite Hf.
      * intros t (task & Hin & Hft). apply elem_of_cons in Hin as [-> | Hin].
        -- right. exists (TRun h ty c k'). split; [by apply elem_of_cons; left|].
           simpl in *. congruence.
        -- apply (Htail t (ex_intro _ task (conj Hin Hft)) [TRun h ty c k']).
    + split_and!; [done | done |].
      intros t (task & Hin & Hft). apply elem_of_cons in Hin as [-> | Hin].
      * simpl in Hft. congruence.
      * apply (Htail t (ex_intro _ task (conj Hin Hft)) []).
    + destruct Hc as [? | Hnone]; [done | congruence].
    + destruct Hann as [-> | (qs & -> & Hqs & Hb)]; simpl.
      * split_and!; [done | done |].
        intros t' (task & Hin & Hft). apply elem_of_cons in Hin as [-> | Hin].
        -- simpl in Hft. left. apply Hsub. congruence.
        -- apply (Htail t' (ex_intro _ task (conj Hin Hft)) []).
      * split_and!; [done | by constructor |].
        intros t' (task & Hin & Hft). apply elem_of_cons in Hin as [-> | Hin].
        -- simpl in Hft. left. apply Hsub. congruence.
        -- apply (Htail t' (ex_intro _ task (conj Hin Hft)) [TWait qs]).
    + destruct Hcase as [-> | (qs' & -> & Hne & Hqs & Hlt)]; simpl.
      * split_and!; [done | done |].
        intros t (task & Hin & Hft). apply elem_of_cons in Hin as [-> | Hin]; [done|].
        apply (Htail t (ex_intro _ task (conj Hin Hft)) []).
      * split_and!; [done | by constructor |].
        intros t (task & Hin & Hft). apply elem_of_cons in Hin as [-> | Hin]; [done|].
        apply (Htail t (ex_intro _ task (conj Hin Hft)) [TWait qs']).
Qed.

Lemma round_raising B os cs rs N :
  Forall2 (stepped_within B os) cs rs -> Forall raising cs ->
  Forall (fun t => (weight B t < S N)%nat) cs ->
  Forall raising (stills rs) /\ Forall sound_task (stills rs) /\
  Forall (fun t => (weight B t < N)%nat) (stills rs) /\
  (forall t, first_rejection rs = Some t ->
             exists task, task ∈ cs /\ task_failure task = Some t) /\
  (forall task', task' ∈ stills rs ->
                 exists task, task ∈ cs /\ task_failure task' = task_failure task) /\
  (first_rejection rs = None ->
   forall task t, task ∈ cs -> task_failure task = Some t ->
                  exists task', task' ∈ stills rs /\ task_failure task' = Some t).
Proof.
  induction 1 as [|task r cs rs (os' & Hstep & Hsub) Hall IH]; intros Hc Hw.
  - split_and!; try done.
    + intros task' Hin. by apply elem_of_nil in Hin.
    + intros _ task t Hin. by apply elem_of_nil in Hin.
  - apply Forall_cons in Hc as [Hc Hcs]. apply Forall_cons in Hw as [Hw Hws].
    destruct (IH Hcs Hws) as (Hraise & Hsound & Hwt & Hrej & Hsame & Hkeep). clear IH.
    assert (forall task', task' ∈ stills rs ->
              exists task0, task0 ∈ task :: cs /\ task_failure task' = task_failure task0) as Hsame'.
    { intros task' Hin. destruct (Hsame task' Hin) as (task0 & Hin0 & Hf0).
      exists task0. split; [by apply elem_of_cons; right | done]. }
    inversion Hstep as [h ty c k k' os0 Hf Hy | h ty c k os0 Hf Hend | h ty k t os0 Hf
                       | h ty k t r0 os0 Hf Hy Hemit Hann | qs r0 os0 Hcase]; subst; simpl in *.
    + split_and!; [by constructor | by constructor | | | |].
      * constructor; [|done]. simpl. rewrite Hf. lia.
      * intros t Ht. destruct (Hrej t Ht) as (task0 & Hin0 & Hf0).
        exists task0. split; [by apply elem_of_cons; right | done].
      * intros task' Hin. apply elem_of_cons in Hin as [-> | Hin]; [|by apply Hsame'].
        exists (TRun h ty c k). split; [by apply elem_of_cons; left | done].
      * intros Hno task t Hin Hft. apply elem_of_cons in Hin as [-> | Hin].
        -- exists (TRun h ty c k'). split; [by apply elem_of_cons; left|]. simpl in *. congruence.
        -- destruct (Hkeep Hno task t Hin Hft) as (task' & Hin' & Hf').
           exists task'. split; [by apply elem_of_cons; right | done].
    + split_and!; [done | done | done | | done |].
      * intros t Ht. destruct (Hrej t Ht) as (task0 & Hin0 & Hf0).
        exists task0. split; [by apply elem_of_cons; right | done].
      * intros Hno task t Hin Hft. apply elem_of_cons in Hin as [-> | Hin].
        -- simpl in Hft. congruence.
        -- by apply (Hkeep Hno task t).
    + split_and!; [done | done | done | | done | done].
      intros t' [= <-]. exists (TRun h ty false k). split; [by apply elem_of_cons; left | done].
    + done.
    + done.
Qed.

Lemma weights_bounded B cs : exists N, Forall (fun t => (weight B t < N)%nat) cs.
Proof.
  induction cs as [|t cs [N IH]]; [by exists 0%nat|].
  exists (S (Nat.max N (weight B t))). constructor; [lia|].
  eapply Forall_impl; [exact IH|]. simpl. intros; lia.
Qed.

Lemma weights_relax B N cs :
  Forall (fun t => (weight B t < N)%nat) cs -> Forall (fun t => (weight B t < S N)%nat) cs.
Proof. intros H. eapply Forall_impl; [exact H|]. simpl. intros; lia. Qed.

(** One turn of the tasks behind the main flow: they stay sound, and each is
    closer to its end. *)
Lemma round_sound f N st :
  announces_quietly st -> Forall sound_task (background st) ->
  Forall (fun t => (weight (announce_bound st) t < S N)%nat) (background st) ->
  exists st1 os,
    round (S (S f)) st = Some st1 /\ extends st st1 os /\
    Forall (fun o => bus_obs o = true) os /\
    Forall sound_task (background st1) /\
    Forall (fun t => (weight (announce_bound st) t < N)%nat) (background st1).
Proof.
  intros Ha Hs Hw. unfold round.
  destruct (turns_sound f N (background st) (set_background [] st))
    as (st1 & rs & os & -> & Hext & Hos & (new & Hbg & Hq & Hy) & Hall); [done | done | done |].
  change (announce_bound (set_background [] st)) with (announce_bound st) in Hall.
  destruct (round_weights _ _ _ _ N Hall Hw) as [Hsound Hwt].
  simpl in Hbg. rewrite Hbg.
  exists (set_background (stills rs ++ new) st1), os. split_and!; [done | | done | |].
  - apply extends_nil_r. eapply extends_trans; [|apply extends_set_background].
    destruct Hext. by split.
  - simpl. apply Forall_app. split; [done|]. eapply Forall_impl; [exact Hq|]. apply quiet_sound.
  - simpl. apply Forall_app. split; [done|]. apply Forall_forall. intros q Hin.
    rewrite weight_quiet by (eapply Forall_forall in Hq; [exact Hq | done]).
    eapply Forall_forall in Hy; [exact Hy | done].
Qed.

(** Some number of turns is enough for one round of the background. *)
Lemma round_any st :
  announces_quietly st -> Forall sound_task (background st) ->
  exists st1 os,
    round 2 st = Some st1 /\ extends st st1 os /\
    Forall (fun o => bus_obs o = true) os /\ Forall sound_task (background st1).
Proof.
  intros Ha Hs. destruct (weights_bounded (announce_bound st) (background st)) as [N HN].
  destruct (round_sound 0 N st Ha Hs (weights_relax _ _ _ HN)) as (st1 & os & Hr & Hext & Hos & Hs1 & _).
  by exists st1, os.
Qed.

(** The tasks behind the main flow all come to an end. *)
Lemma drain_sound st :
  announces_quietly st -> Forall sound_task (background st) ->
  exists f st' os,
    drain f st = Some st' /\ extends st st' os /\
    Forall (fun o => bus_obs o = true) os /\ background st' = [].
Proof.
  destruct (weights_bounded (announce_bound st) (background st)) as [N HN].
  revert st HN. induction N as [|N IH]; intros st HN Ha Hs.
  - exists 0%nat, st, []. destruct (background st) as [|t bg] eqn:E.
    + simpl. rewrite E. split_and!; try done. apply extends_refl.
    + apply Forall_cons in HN as [? _]. lia.
  - destruct (background st) as [|t0 bg0] eqn:E.
    { exists 0%nat, st, []. simpl. rewrite E. split_and!; try done. apply extends_refl. }
    destruct (round_sound 0 N st) as (st1 & os1 & Hr & Hext1 & Hos1 & Hs1 & Hw1);
      [done | by rewrite E | by rewrite E |].
    assert (announce_bound st1 = announce_bound st) as HB
      by (apply announce_bound_frame; [apply (ext_handlers _ _ _ Hext1) | apply (ext_now _ _ _ Hext1)]).
    destruct (IH st1) as (f & st' & os2 & Hdr & Hext2 & Hos2 & Hbg');
      [by rewrite HB
      | apply (announces_quietly_frame st); [apply (ext_handlers _ _ _ Hext1) | done]
      | done |].
    exists (S (Nat.max f 2)), st', (os1 ++ os2). split_and!; try done.
    + simpl. rewrite E.
      rewrite (round_mono 2 (Nat.max f 2) st st1) by (done || lia).
      apply (drain_mono f); [lia | done].
    + by eapply extends_trans.
    + by apply Forall_app.
Qed.

(** Awaiting tasks that cannot make the emission fail: the emission
    returns, and every failure has been announced. *)
Lemma await_harmless N : forall cs st,
  announces_quietly st -> Forall sound_task (background st) ->
  Forall sound_task cs -> Forall harmless cs ->
  Forall (fun t => (weight (announce_bound st) t < N)%nat) cs ->
  exists f st' os,
    await f (Still (TWait cs)) st = Some (st', Ok tt) /\ extends st st' os /\
    Forall (fun o => bus_obs o = true) os /\ Forall sound_task (background st') /\
    forall t, (exists task, task ∈ cs /\ task_failure task = Some t) ->
              ObsEmit "handler:error" None (Some t) ∈ os.
Proof.
  induction N as [|N IH]; intros cs st Ha Hbg Hs Hc Hw.
  - destruct cs as [|task cs]; [|apply Forall_cons in Hw as [? _]; lia].
    destruct (round_any st Ha Hbg) as (st1 & os1 & Hr & Hext1 & Hos1 & Hbg1).
    exists 4%nat, (detach [] st1), os1. split_and!.
    + rewrite await_eq, (round_mono 2 3 st st1) by (done || lia). done.
    + apply extends_nil_r. eapply extends_trans; [done | apply extends_detach].
    + done.
    + simpl. by rewrite app_nil_r.
    + intros t (task & Hin & _). by apply elem_of_nil in Hin.
  - destruct (round_any st Ha Hbg) as (st1 & os1 & Hr & Hext1 & Hos1 & Hbg1).
    assert (announces_quietly st1) as Ha1
      by (apply (announces_quietly_frame st); [apply (ext_handlers _ _ _ Hext1) | done]).
    assert (announce_bound st1 = announce_bound st) as HB1
      by (apply announce_bound_frame; [apply (ext_handlers _ _ _ Hext1) | apply (ext_now _ _ _ Hext1)]).
    destruct (turns_sound 0 N cs st1 Ha1 Hs) as (st2 & rs & os2 & Hrs & Hext2 & Hos2 & Hg2 & Hall);
      [by rewrite HB1|].
    rewrite HB1 in Hall.
    destruct (round_weights _ _ _ _ N Hall Hw) as [Hsound Hwt].
    destruct (round_harmless _ _ _ _ Hall Hc) as (Hno & Hcatch & Htrack).
    assert (extends st (detach [] st2) (os1 ++ os2)) as Hext.
    { apply extends_nil_r. eapply extends_trans; [|apply extends_detach]. by eapply extends_trans. }
    assert (Forall sound_task (background (detach [] st2))) as Hbg2.
    { simpl. rewrite app_nil_r. by apply (grows_sound N st1). }
    assert (turn 3 (TWait cs) st1 =
              Some (detach [] st2, match stills rs with [] => Finished | ts => Still (TWait ts) end))
      as Hturn.
    { rewrite turn_wait_eq, Hrs. unfold join. rewrite Hno. by destruct (stills rs). }
    destruct (stills rs) as [|s ss] eqn:Es.
    + exists 4%nat, (detach [] st2), (os1 ++ os2). split_and!; [| done | by apply Forall_app | done |].
      * rewrite await_eq, (round_mono 2 3 st st1) by (done || lia). by rewrite Hturn.
      * intros t Ht. destruct (Htrack t Ht) as [Hin | (task' & Hin & _)].
        -- apply elem_of_app. by right.
        -- by apply elem_of_nil in Hin.
    + destruct (IH (s :: ss) (detach [] st2)) as (f & st' & os3 & Haw & Hext3 & Hos3 & Hbg3 & Hann).
      { apply (announces_quietly_frame st); [apply (ext_handlers _ _ _ Hext) | done]. }
      { done. }
      { done. }
      { done. }
      { rewrite (announce_bound_frame st (detach [] st2));
          [done | apply (ext_handlers _ _ _ Hext) | apply (ext_now _ _ _ Hext)]. }
      exists (S (Nat.max f 3)), st', ((os1 ++ os2) ++ os3). split_and!.
      * rewrite await_eq, (round_mono 2 (Nat.max f 3) st st1) by (done || lia).
        rewrite (turn_mono 3 (Nat.max f 3) _ _ _ ltac:(lia) Hturn).
        apply (await_mono f); [lia | done].
      * by eapply extends_trans.
      * apply Forall_app. split; [by apply Forall_app | done].
      * done.
      * intros t Ht. apply elem_of_app. destruct (Htrack t Ht) as [Hin | Hstill].
        -- left. apply elem_of_app. by right.
        -- right. by apply Hann.
Qed.

(** Awaiting tasks whose failures are thrown on: when one of them fails the
    emission raises the failure of one of them. *)
Lemma await_raising N : forall cs st,
  announces_quietly st -> Forall sound_task (background st) ->
  Forall sound_task cs -> Forall raising cs ->
  Forall (fun t => (weight (announce_bound st) t < N)%nat) cs ->
  (exists task t, task ∈ cs /\ task_failure task = Some t) ->
  exists f st' t,
    await f (Still (TWait cs)) st = Some (st', Raise t) /\
    exists task, task ∈ cs /\ task_failure task = Some t.
Proof.
  induction N as [|N IH]; intros cs st Ha Hbg Hs Hc Hw (task0 & t0 & Hin0 & Hf0).
  - destruct cs as [|task cs]; [by apply elem_of_nil in Hin0|].
    apply Forall_cons in Hw as [? _]; lia.
  - destruct (round_any st Ha Hbg) as (st1 & os1 & Hr & Hext1 & Hos1 & Hbg1).
    assert (announces_quietly st1) as Ha1
      by (apply (announces_quietly_frame st); [apply (ext_handlers _ _ _ Hext1) | done]).
    assert (announce_bound st1 = announce_bound st) as HB1
      by (apply announce_bound_frame; [apply (ext_handlers _ _ _ Hext1) | apply (ext_now _ _ _ Hext1)]).
    destruct (turns_sound 0 N cs st1 Ha1 Hs) as (st2 & rs & os2 & Hrs & Hext2 & Hos2 & Hg2 & Hall);
      [by rewrite HB1|].
    rewrite HB1 in Hall.
    destruct (round_raising _ _ _ _ N Hall Hc Hw) as (Hraise & Hsound & Hwt & Hrej & Hsame & Hkeep).
    assert (extends st st2 (os1 ++ os2)) as Hext by (by eapply extends_trans).
    destruct (first_rejection rs) as [t|] eqn:Hfirst.
    + exists 4%nat, (detach (stills rs) st2), t. split; [|by apply Hrej].
      rewrite await_eq, (round_mono 2 3 st st1) by (done || lia).
      rewrite turn_wait_eq, Hrs. unfold join. by rewrite Hfirst.
    + destruct (Hkeep eq_refl task0 t0 Hin0 Hf0) as (task1 & Hin1 & Hf1).
      assert (turn 3 (TWait cs) st1 = Some (detach [] st2, Still (TWait (stills rs)))) as Hturn.
      { rewrite turn_wait_eq, Hrs. unfold join. rewrite Hfirst.
        destruct (stills rs); [by apply elem_of_nil in Hin1 | done]. }
      destruct (IH (stills rs) (detach [] st2)) as (f & st' & t & Haw & task2 & Hin2 & Hf2).
      { apply (announces_quietly_frame st); [apply (ext_handlers _ _ _ Hext) | done]. }
      { simpl. rewrite app_nil_r. by apply (grows_sound N st1). }
      { done. }
      { done. }
      { rewrite (announce_bound_frame st (detach [] st2));
          [done | apply (ext_handlers _ _ _ Hext) | apply (ext_now _ _ _ Hext)]. }
      { by exists task1, t0. }
      exists (S (Nat.max f 3)), st', t. split.
      * rewrite await_eq, (round_mono 2 (Nat.max f 3) st st1) by (done || lia).
        rewrite (turn_mono 3 (Nat.max f 3) _ _ _ ltac:(lia) Hturn).
        apply (await_mono f); [lia | done].
      * destruct (Hsame task2 Hin2) as (task3 & Hin3 & Hf3). exists task3.
        split; [done | congruence].
Qed.

(** ** Emissions when failures are isolated *)

Lemma isolated_frame st st' :
  eventHandlers st' = eventHandlers st -> eventOptions st' = eventOptions st ->
  background st' = background st -> isolated st -> isolated st'.
Proof.
  intros Hh Ho Hb (Ha & Hsync & Hbg). unfold isolated, announces_quietly, delivery.
  by rewrite Hh, Ho, Hb.
Qed.

Lemma isolated_extends st st' os :
  extends st st' os -> Forall sound_task (background st') -> isolated st -> isolated st'.
Proof.
  intros Hext Hb (Ha & Hsync & _). unfold isolated, announces_quietly, delivery.
  by rewrite (ext_handlers _ _ _ Hext), (ext_options _ _ _ Hext).
Qed.

Lemma quiet_isolated st : quiet st -> isolated st.
Proof.
  intros [Hreg Hbg]. split_and!.
  - intros hs. apply Hreg.
  - intros ty hs Hhs _ _. by apply (Hreg ty).
  - eapply Forall_impl; [exact Hbg|]. apply quiet_sound.
Qed.

(** An emission returns normally, whatever the handlers do, and leaves the
    client in a state where failures are isolated. *)
Lemma emit_isolated_full ty d err st :
  isolated st ->
  exists st' os,
    converges (fun f => emit f ty d err) st st' (Ok tt) /\
    extends st st' (ObsEmit ty d err :: os) /\ isolated st' /\
    Forall (fun o => bus_obs o = true) os.
Proof.
  intros Hi. pose proof Hi as (Ha & Hsync & Hbg).
  set (o := ObsEmit ty d err). set (st0 := log o st).
  assert (extends st st0 [o]) as Hext0 by apply extends_log.
  destruct (eventHandlers st !! ty) as [hs|] eqn:Ehs; cycle 1.
  { exists st0, []. split_and!; [| done | by apply (isolated_frame st) | done].
    apply (converges_of _ 1%nat); [apply steady_emit|].
    unfold emit. simpl. by rewrite Ehs. }
  destruct hs as [|h0 hs0].
  { exists st0, []. split_and!; [| done | by apply (isolated_frame st) | done].
    apply (converges_of _ 1%nat); [apply steady_emit|].
    unfold emit. simpl. by rewrite Ehs. }
  set (hs := h0 :: hs0) in *.
  set (c := truthy (catchErrors (delivery st ty))).
  set (ev := event_of st ty d err).
  set (cs := (fun h' => TRun (hid h') ty c (hrun h' ev)) <$> hs).
  destruct (weights_bounded (announce_bound st) cs) as [N HN].
  assert (Forall (fun h' => (weight (announce_bound st0) (TRun (hid h') ty c (hrun h' ev)) < S N)%nat)
                 hs) as Hw0.
  { pose proof (weights_relax _ _ _ HN) as HN'. unfold cs in HN'. by apply Forall_fmap in HN'. }
  destruct (starts_sound 0 ty c ev N hs st0) as (st1 & rs & os1 & Hrs & Hext1 & Hos1 & Hg1 & Hall);
    [by apply (announces_quietly_frame st) | done |].
  change (announce_bound st0) with (announce_bound st) in Hall.
  assert (spawn 2 ty d err st =
            if truthy (async (delivery st ty)) then Some (detach (stills rs) st1, Finished)
            else let '(r, orphans) := join rs in Some (detach orphans st1, r)) as Hspawn.
  { subst hs. rewrite spawn_eq. cbv zeta. fold o st0.
    change (eventHandlers st0) with (eventHandlers st). rewrite Ehs.
    change (eventOptions st0) with (eventOptions st). fold (delivery st ty). fold c.
    change (now st0) with (now st). fold (event_of st ty d err). fold ev.
    by rewrite Hrs. }
  assert (forall ts, extends st (detach ts st1) (o :: os1)) as Hext.
  { intros ts. apply extends_nil_r. eapply extends_trans; [|apply extends_detach].
    change (o :: os1) with ([o] ++ os1). by eapply extends_trans. }
  assert (Forall2 (stepped_within (announce_bound st) os1) cs rs) as Hall'
    by (by apply Forall2_fmap_l).
  destruct (round_weights _ _ _ _ N Hall' (weights_relax _ _ _ HN)) as [Hsound Hwt].
  assert (Forall sound_task (background st1)) as Hbg1 by (by apply (grows_sound N st0)).
  destruct (truthy (async (delivery st ty))) eqn:Easync.
  - exists (detach (stills rs) st1), os1. split_and!; [| done | | done].
    + apply (converges_of _ 2%nat); [apply steady_emit|]. unfold emit. by rewrite Hspawn.
    + apply (isolated_extends st _ (o :: os1)); [done | | done].
      simpl. by apply Forall_app.
  - assert (Forall harmless cs) as Hharm.
    { apply Forall_fmap, Forall_forall. intros h Hh. simpl. destruct c eqn:Ec; [by left|].
      right. apply settles_no_failure.
      specialize (Hsync ty hs Ehs Easync Ec). eapply Forall_forall in Hsync; [|exact Hh].
      apply Hsync. }
    destruct (round_harmless _ _ _ _ Hall' Hharm) as (Hno & Hharm' & _).
    unfold join in Hspawn. rewrite Hno in Hspawn.
    assert (isolated (detach [] st1)) as Hi1.
    { apply (isolated_extends st _ (o :: os1)); [done | | done]. simpl. by rewrite app_nil_r. }
    destruct (stills rs) as [|s ss] eqn:Es.
    + exists (detach [] st1), os1. split_and!; [| done | done | done].
      apply (converges_of _ 2%nat); [apply steady_emit|]. unfold emit. by rewrite Hspawn.
    + destruct (await_harmless N (s :: ss) (detach [] st1))
        as (f & st' & os2 & Haw & Hext2 & Hos2 & Hbg2 & _).
      { apply Hi1. }
      { apply Hi1. }
      { done. }
      { done. }
      { rewrite (announce_bound_frame st (detach [] st1));
          [done | apply (ext_handlers _ _ _ (Hext [])) | apply (ext_now _ _ _ (Hext []))]. }
      exists st', (os1 ++ os2). split_and!.
      * apply (converges_of _ (Nat.max f 2)); [apply steady_emit|]. unfold emit.
        rewrite (spawn_mono 2 (Nat.max f 2) ty d err st _ ltac:(lia) Hspawn).
        apply (await_mono f); [lia | done].
      * change (extends st st' ((o :: os1) ++ os2)).
        eapply extends_trans; [apply (Hext []) | done].
      * by apply (isolated_extends (detach [] st1) _ os2).
      * by apply Forall_app.
Qed.

(** ** What the event bus appends to the trace *)

Lemma trails_refl st : trails st st.
Proof. exists []. by rewrite app_nil_r. Qed.

Lemma trails_trans st st1 st2 : trails st st1 -> trails st1 st2 -> trails st st2.
Proof.
  intros (os1 & H1 & Hb1) (os2 & H2 & Hb2). exists (os1 ++ os2).
  split; [by rewrite H2, H1, app_assoc | by apply Forall_app].
Qed.

Lemma trails_same st st' : trace st' = trace st -> trails st st'.
Proof. intros H. exists []. by rewrite app_nil_r. Qed.

Lemma trails_logs os st : Forall (fun o => behind o = true) os -> trails st (logs os st).
Proof. intros H. by exists os. Qed.

Lemma trails_log o st : behind o = true -> trails st (log o st).
Proof. intros H. exists [o]. split; [done | by constructor]. Qed.

Lemma run_prog_behind h k : Forall (fun o => behind o = true) (run_prog h k).1.
Proof.
  induction k as [ | t | a k IH | k IH]; simpl; try done.
  destruct (run_prog h k) as [os e]. by constructor.
Qed.

Lemma started_behind ty os :
  ty <> "handler:error" -> Forall (fun o => behind o = true) os -> started ty os = [].
Proof.
  intros Hty. induction 1 as [|o os Ho _ IH]; [done|].
  destruct o as [ | h ty' | | | | | | ]; try done. unfold started. simpl in *.
  apply String.eqb_eq in Ho. subst ty'.
  destruct (String.eqb_spec "handler:error" ty) as [Heq | _]; [by subst ty | exact IH].
Qed.

Lemma run_all_trails {A} (F : A -> State -> option (State * TaskResult)) l :
  (forall x st st' r, F x st = Some (st', r) -> trails st st') ->
  forall st st' rs, run_all F l st = Some (st', rs) -> trails st st'.
Proof.
  intros HF. induction l as [|x l IH]; intros st st' rs H; simpl in H.
  - injection H as <- <-. apply trails_refl.
  - destruct (F x st) as [[s1 r]|] eqn:E1; [|done].
    destruct (run_all F l s1) as [[s2 rs']|] eqn:E2; [|done].
    injection H as <- <-. eapply trails_trans; [by eapply HF | by eapply IH].
Qed.

Lemma resume_trails E h ty c k st st' r :
  (forall d err s s' r', E "handler:error" d err s = Some (s', r') -> trails s s') ->
  resume E h ty c k st = Some (st', r) -> trails st st'.
Proof.
  intros HE. unfold resume. pose proof (run_prog_behind h k) as Hos.
  destruct (run_prog h k) as [os [ | t | k']]; simpl in Hos.
  - intros [= <- <-]. eapply trails_trans; [by apply trails_logs | by apply trails_log].
  - destruct (negb c).
    + intros [= <- <-]. eapply trails_trans; [by apply trails_logs | by apply trails_log].
    + intros H. eapply trails_trans; [by apply trails_logs|].
      eapply trails_trans; [|by eapply HE]. by apply trails_log.
  - intros [= <- <-]. by apply trails_logs.
Qed.

Lemma spawn_trails f : forall d err st st' r,
  spawn f "handler:error" d err st = Some (st', r) -> trails st st'.
Proof.
  induction f as [|f IH]; intros d err st st' r H; [done|].
  rewrite spawn_eq in H. cbv zeta in H.
  set (st0 := log (ObsEmit "handler:error" d err) st) in *.
  assert (trails st st0) as H0 by (by apply trails_log).
  destruct (eventHandlers st0 !! "handler:error") as [[|h0 hs0]|];
    [by injection H as <- <- | | by injection H as <- <-].
  match type of H with
  | match run_all ?F ?l ?s with _ => _ end = _ =>
      destruct (run_all F l s) as [[s1 rs]|] eqn:E1; [|done];
      assert (trails st0 s1) as H1
  end.
  { eapply run_all_trails; [|exact E1]. intros x s s' r' Hx.
    eapply trails_trans; [|by eapply resume_trails; [exact IH | exact Hx]].
    by apply trails_log. }
  assert (forall ts, trails st (detach ts s1)) as Hd.
  { intros ts. eapply trails_trans; [exact H0|]. eapply trails_trans; [exact H1|].
    by apply trails_same. }
  destruct (truthy (async _)); [by injection H as <- <-|].
  destruct (join rs) as [r0 orphans]. by injection H as <- <-.
Qed.

Lemma turn_trails f : forall task st st' r,
  turn f task st = Some (st', r) -> trails st st'.
Proof.
  induction f as [|f IH]; intros task st st' r H; [done|].
  destruct task as [h ty c k | cs].
  - simpl in H. eapply resume_trails; [|exact H]. apply spawn_trails.
  - rewrite turn_wait_eq in H.
    destruct (run_all (turn f) cs st) as [[s1 rs]|] eqn:E1; [|done].
    destruct (join rs) as [r0 orphans]. injection H as <- <-.
    eapply trails_trans; [by eapply run_all_trails; [exact IH | exact E1]|].
    by apply trails_same.
Qed.

Lemma round_trails f st st' : round f st = Some st' -> trails st st'.
Proof.
  unfold round. intros H.
  destruct (run_all (turn f) (background st) (set_background [] st)) as [[s1 rs]|] eqn:E1; [|done].
  injection H as <-.
  eapply trails_trans; [by apply (trails_same st (set_background [] st))|].
  eapply trails_trans; [by eapply run_all_trails; [apply turn_trails | exact E1]|].
  by apply trails_same.
Qed.

Lemma await_trails f : forall r st st' res,
  await f r st = Some (st', res) -> trails st st'.
Proof.
  induction f as [|f IH]; intros r st st' res H.
  - destruct r; simpl in H; [injection H as <- <- | injection H as <- <- | done]; apply trails_refl.
  - destruct r as [ | t | task]; [injection H as <- <- | injection H as <- <- |];
      [apply trails_refl | apply trails_refl |].
    rewrite await_eq in H.
    destruct (round f st) as [s1|] eqn:E1; [|done].
    destruct (turn f task s1) as [[s2 r']|] eqn:E2; [|done].
    eapply trails_trans; [by eapply round_trails|].
    eapply trails_trans; [by eapply turn_trails | by eapply IH].
Qed.

Lemma starts_started E ty c ev hs :
  ty <> "handler:error" ->
  (forall d err s s' r', E "handler:error" d err s = Some (s', r') -> trails s s') ->
  forall st st1 rs,
    run_all (fun handler st' =>
               resume E (hid handler) ty c (hrun handler ev)
                      (log (ObsHandlerStart (hid handler) ty) st')) hs st
      = Some (st1, rs) ->
    exists os, trace st1 = trace st ++ os /\ started ty os = hid <$> hs.
Proof.
  intros Hty HE. induction hs as [|h hs IH]; intros st st1 rs H; simpl in H.
  - injection H as <- <-. exists []. by rewrite app_nil_r.
  - destruct (resume E (hid h) ty c (hrun h ev) _) as [[sa r]|] eqn:E1; [|done].
    destruct (run_all _ hs sa) as [[sb rs']|] eqn:E2; [|done].
    injection H as <- <-.
    destruct (resume_trails _ _ _ _ _ _ _ _ HE E1) as (os1 & Ht1 & Hb1).
    destruct (IH _ _ _ E2) as (os2 & Ht2 & Hs2).
    exists ((ObsHandlerStart (hid h) ty :: os1) ++ os2). split.
    + rewrite Ht2, Ht1. simpl. by rewrite <- !app_assoc.
    + by rewrite started_app, Hs2, started_start, (started_behind ty os1).
Qed.

(** An emission starts the handlers of its type, all of them and in the
    order of their registration, whatever they do. *)
Lemma emit_started f ty d err st st' r :
  ty <> "handler:error" -> emit f ty d err st = Some (st', r) ->
  exists os,
    trace st' = trace st ++ ObsEmit ty d err :: os /\
    started ty os = hid <$> default [] (eventHandlers st !! ty).
Proof.
  intros Hty H. unfold emit in H.
  destruct (spawn f ty d err st) as [[s1 r1]|] eqn:Es; [|done].
  destruct (await_trails _ _ _ _ _ H) as (os2 & Ht2 & Hb2).
  assert (exists os1, trace s1 = trace st ++ ObsEmit ty d err :: os1 /\
                      started ty os1 = hid <$> default [] (eventHandlers st !! ty))
    as (os1 & Ht1 & Hs1).
  { destruct f as [|f]; [done|]. rewrite spawn_eq in Es. cbv zeta in Es.
    set (st0 := log (ObsEmit ty d err) st) in *.
    change (eventHandlers st0) with (eventHandlers st) in Es.
    destruct (eventHandlers st !! ty) as [[|h0 hs0]|];
      [injection Es as <- <-; by exists [] | | injection Es as <- <-; by exists []].
    match type of Es with
    | match run_all ?F ?l ?s with _ => _ end = _ =>
        destruct (run_all F l s) as [[sa rs]|] eqn:E1; [|done]
    end.
    destruct (starts_started _ _ _ _ _ Hty (spawn_trails f) _ _ _ E1) as (os1 & Ht1 & Hs1).
    exists os1. split; [|done].
    assert (trace s1 = trace sa) as ->.
    { destruct (truthy (async _)); [by injection Es as <- <-|].
      destruct (join rs) as [r0 orphans]. by injection Es as <- <-. }
    rewrite Ht1. simpl. by rewrite <- app_assoc. }
  exists (os1 ++ os2). split.
  - rewrite Ht2, Ht1. by rewrite <- app_assoc.
  - by rewrite started_app, Hs1, (started_behind ty os2), app_nil_r.
Qed.

(** ** Emissions that are awaited *)

(** A turn of tasks: a handler that does not fail has returned or is still
    running. *)
Lemma round_ends B os cs rs :
  Forall2 (stepped_within B os) cs rs ->
  forall h ty c k, TRun h ty c k ∈ cs -> failure k = None ->
    ObsHandlerEnd h ty ∈ os \/ exists k', TRun h ty c k' ∈ stills rs /\ failure k' = None.
Proof.
  induction 1 as [|task r cs rs (os' & Hstep & Hsub) Hall IH]; intros h ty c k Hin Hnone.
  - by apply elem_of_nil in Hin.
  - assert (forall extra, TRun h ty c k ∈ cs ->
              ObsHandlerEnd h ty ∈ os \/
              exists k', TRun h ty c k' ∈ extra ++ stills rs /\ failure k' = None) as Htail.
    { intros extra Hin'. destruct (IH h ty c k Hin' Hnone) as [? | (k' & Hk' & Hf')]; [by left|].
      right. exists k'. split; [|done]. apply elem_of_app. by right. }
    apply elem_of_cons in Hin as [<- | Hin].
    + inversion Hstep as [h0 ty0 c0 k0 k' os0 Hf Hy | h0 ty0 c0 k0 os0 Hf Hend | h0 ty0 k0 t os0 Hf
                         | h0 ty0 k0 t r0 os0 Hf Hy Hemit Hann | qs r0 os0 Hcase]; subst; simpl.
      * right. exists k'. split; [apply elem_of_cons; by left | congruence].
      * left. by apply Hsub.
      * congruence.
      * congruence.
    + destruct r as [ | t | task']; simpl; [apply (Htail []) | apply (Htail []) | apply (Htail [task'])];
        done.
Qed.

(** Awaiting tasks that cannot make the emission fail: the emission returns
    when every handler has returned or failed, and every failure has been
    announced. *)
Lemma await_complete N : forall cs st,
  announces_quietly st -> Forall sound_task (background st) ->
  Forall sound_task cs -> Forall harmless cs ->
  Forall (fun t => (weight (announce_bound st) t < N)%nat) cs ->
  exists f st' os,
    await f (Still (TWait cs)) st = Some (st', Ok tt) /\ extends st st' os /\
    (forall t, (exists task, task ∈ cs /\ task_failure task = Some t) ->
               ObsEmit "handler:error" None (Some t) ∈ os) /\
    (forall h ty c k, TRun h ty c k ∈ cs -> failure k = None -> ObsHandlerEnd h ty ∈ os).
Proof.
  induction N as [|N IH]; intros cs st Ha Hbg Hs Hc Hw.
  - destruct cs as [|task cs]; [|apply Forall_cons in Hw as [? _]; lia].
    destruct (round_any st Ha Hbg) as (st1 & os1 & Hr & Hext1 & Hos1 & Hbg1).
    exists 4%nat, (detach [] st1), os1. split_and!.
    + rewrite await_eq, (round_mono 2 3 st st1) by (done || lia). done.
    + apply extends_nil_r. eapply extends_trans; [done | apply extends_detach].
    + intros t (task & Hin & _). by apply elem_of_nil in Hin.
    + intros h ty c k Hin. by apply elem_of_nil in Hin.
  - destruct (round_any st Ha Hbg) as (st1 & os1 & Hr & Hext1 & Hos1 & Hbg1).
    assert (announces_quietly st1) as Ha1
      by (apply (announces_quietly_frame st); [apply (ext_handlers _ _ _ Hext1) | done]).
    assert (announce_bound st1 = announce_bound st) as HB1
      by (apply announce_bound_frame; [apply (ext_handlers _ _ _ Hext1) | apply (ext_now _ _ _ Hext1)]).
    destruct (turns_sound 0 N cs st1 Ha1 Hs) as (st2 & rs & os2 & Hrs & Hext2 & Hos2 & Hg2 & Hall);
      [by rewrite HB1|].
    rewrite HB1 in Hall.
    destruct (round_weights _ _ _ _ N Hall Hw) as [Hsound Hwt].
    destruct (round_harmless _ _ _ _ Hall Hc) as (Hno & Hcatch & Htrack).
    pose proof (round_ends _ _ _ _ Hall) as Hends.
    assert (extends st (detach [] st2) (os1 ++ os2)) as Hext.
    { apply extends_nil_r. eapply extends_trans; [|apply extends_detach]. by eapply extends_trans. }
    assert (Forall sound_task (background (detach [] st2))) as Hbg2.
    { simpl. rewrite app_nil_r. by apply (grows_sound N st1). }
    assert (turn 3 (TWait cs) st1 =
              Some (detach [] st2, match stills rs with [] => Finished | ts => Still (TWait ts) end))
      as Hturn.
    { rewrite turn_wait_eq, Hrs. unfold join. rewrite Hno. by destruct (stills rs). }
    destruct (stills rs) as [|s ss] eqn:Es.
    + exists 4%nat, (detach [] st2), (os1 ++ os2). split_and!; [| done | |].
      * rewrite await_eq, (round_mono 2 3 st st1) by (done || lia). by rewrite Hturn.
      * intros t Ht. destruct (Htrack t Ht) as [Hin | (task' & Hin & _)].
        -- apply elem_of_app. by right.
        -- by apply elem_of_nil in Hin.
      * intros h ty c k Hin Hnone. destruct (Hends h ty c k Hin Hnone) as [He | (k' & Hk' & _)].
        -- apply elem_of_app. by right.
        -- by apply elem_of_nil in Hk'.
    + destruct (IH (s :: ss) (detach [] st2)) as (f & st' & os3 & Haw & Hext3 & Hann & Hend).
      { apply (announces_quietly_frame st); [apply (ext_handlers _ _ _ Hext) | done]. }
      { done. }
      { done. }
      { done. }
      { rewrite (announce_bound_frame st (detach [] st2));
          [done | apply (ext_handlers _ _ _ Hext) | apply (ext_now _ _ _ Hext)]. }
      exists (S (Nat.max f 3)), st', ((os1 ++ os2) ++ os3). split_and!.
      * rewrite await_eq, (round_mono 2 (Nat.max f 3) st st1) by (done || lia).
        rewrite (turn_mono 3 (Nat.max f 3) _ _ _ ltac:(lia) Hturn).
        apply (await_mono f); [lia | done].
      * by eapply extends_trans.
      * intros t Ht. apply elem_of_app. destruct (Htrack t Ht) as [Hin | Hstill].
        -- left. apply elem_of_app. by right.
        -- right. by apply Hann.
      * intros h ty c k Hin Hnone. apply elem_of_app.
        destruct (Hends h ty c k Hin Hnone) as [He | (k' & Hk' & Hf')].
        -- left. apply elem_of_app. by right.
        -- right. by apply (Hend h ty c k').
Qed.

(** An emission of a synchronously delivered type whose handlers cannot
    make it fail: it returns when every handler has returned, or has failed
    and its failure has been announced. *)
Lemma emit_sync_full ty d err st hs :
  announces_quietly st -> Forall sound_task (background st) ->
  eventHandlers st !! ty = Some hs ->
  truthy (async (delivery st ty)) = false ->
  truthy (catchErrors (delivery st ty)) = true \/
    Forall (fun h => failure (hrun h (event_of st ty d err)) = None) hs ->
  exists st' os,
    converges (fun f => emit f ty d err) st st' (Ok tt) /\
    extends st st' (ObsEmit ty d err :: os) /\
    forall h, h ∈ hs ->
      match failure (hrun h (event_of st ty d err)) with
      | None => ObsHandlerEnd (hid h) ty ∈ os
      | Some t => ObsEmit "handler:error" None (Some t) ∈ os
      end.
Proof.
  intros Ha Hbg Hhs Hsync Hsafe.
  set (o := ObsEmit ty d err). set (st0 := log o st).
  destruct hs as [|h0 hs0].
  { exists st0, []. split_and!; [| apply extends_log | intros h Hh; by apply elem_of_nil in Hh].
    apply (converges_of _ 1%nat); [apply steady_emit|]. unfold emit. simpl. by rewrite Hhs. }
  set (hs := h0 :: hs0) in *.
  set (c := truthy (catchErrors (delivery st ty))) in *.
  set (ev := event_of st ty d err) in *.
  set (cs := (fun h' => TRun (hid h') ty c (hrun h' ev)) <$> hs).
  destruct (weights_bounded (announce_bound st) cs) as [N HN].
  pose proof (weights_relax _ _ _ HN) as HN'.
  assert (Forall (fun h' => (weight (announce_bound st0) (TRun (hid h') ty c (hrun h' ev)) < S N)%nat)
                 hs) as Hw0.
  { pose proof HN' as HN''. unfold cs in HN''. by apply Forall_fmap in HN''. }
  destruct (starts_sound 0 ty c ev N hs st0) as (st1 & rs & os1 & Hrs & Hext1 & Hos1 & Hg1 & Hall);
    [by apply (announces_quietly_frame st) | done |].
  change (announce_bound st0) with (announce_bound st) in Hall.
  assert (spawn 2 ty d err st =
            let '(r, orphans) := join rs in Some (detach orphans st1, r)) as Hspawn.
  { subst hs. rewrite spawn_eq. cbv zeta. fold o st0.
    change (eventHandlers st0) with (eventHandlers st). rewrite Hhs.
    change (eventOptions st0) with (eventOptions st). fold (delivery st ty). fold c.
    change (now st0) with (now st). fold (event_of st ty d err). fold ev.
    rewrite Hrs. by rewrite Hsync. }
  assert (extends st st1 (o :: os1)) as Hext.
  { change (o :: os1) with ([o] ++ os1). eapply extends_trans; [apply extends_log | done]. }
  assert (Forall sound_task (background st1)) as Hbg1 by (by apply (grows_sound N st0)).
  assert (Forall2 (stepped_within (announce_bound st) os1) cs rs) as Hall'
    by (by apply Forall2_fmap_l).
  assert (Forall harmless cs) as Hharm.
  { apply Forall_fmap, Forall_forall. intros h Hh. simpl.
    destruct Hsafe as [Hc | Hnone]; [by left|]. right.
    eapply Forall_forall in Hnone; [exact Hnone | done]. }
  assert (announces_quietly (detach [] st1)) as Ha1
    by (apply (announces_quietly_frame st); [apply (ext_handlers _ _ _ Hext) | done]).
  assert (announce_bound (detach [] st1) = announce_bound st) as HB1
    by (apply announce_bound_frame; [apply (ext_handlers _ _ _ Hext) | apply (ext_now _ _ _ Hext)]).
  assert (Forall sound_task (background (detach [] st1))) as Hbg1'
    by (simpl; by rewrite app_nil_r).
  destruct (round_weights _ _ _ _ N Hall' HN') as [Hsound Hwt].
  destruct (round_harmless _ _ _ _ Hall' Hharm) as (Hno & Hharm' & Htrack).
  pose proof (round_ends _ _ _ _ Hall') as Hends.
  unfold join in Hspawn. rewrite Hno in Hspawn.
  assert (forall h, h ∈ hs -> TRun (hid h) ty c (hrun h ev) ∈ cs) as Hin
    by (intros h Hh; by apply (list_elem_of_fmap_2 (fun h' => TRun (hid h') ty c (hrun h' ev)))).
  destruct (stills rs) as [|s ss] eqn:Es.
  - exists (detach [] st1), os1. split_and!.
    + apply (converges_of _ 2%nat); [apply steady_emit|]. unfold emit. by rewrite Hspawn.
    + apply extends_nil_r. eapply extends_trans; [done | apply extends_detach].
    + intros h Hh. destruct (failure (hrun h ev)) as [t|] eqn:Hf.
      * destruct (Htrack t) as [? | (task' & Hin' & _)]; [|done | by apply elem_of_nil in Hin'].
        exists (TRun (hid h) ty c (hrun h ev)). split; [by apply Hin | done].
      * destruct (Hends _ _ _ _ (Hin h Hh) Hf) as [? | (k' & Hk' & _)]; [done|].
        by apply elem_of_nil in Hk'.
  - destruct (await_complete N (s :: ss) (detach [] st1))
      as (f & st' & os2 & Haw & Hext2 & Hann & Hend);
      [done | done | done | done | by rewrite HB1 |].
    exists st', (os1 ++ os2). split_and!.
    + apply (converges_of _ (Nat.max f 2)); [apply steady_emit|]. unfold emit.
      rewrite (spawn_mono 2 (Nat.max f 2) ty d err st _ ltac:(lia) Hspawn).
      apply (await_mono f); [lia | done].
    + change (extends st st' ((o :: os1) ++ os2)). eapply extends_trans; [|done].
      apply extends_nil_r. eapply extends_trans; [done | apply extends_detach].
    + intros h Hh. destruct (failure (hrun h ev)) as [t|] eqn:Hf; apply elem_of_app.
      * destruct (Htrack t) as [? | Hstill]; [| by left | right; by apply Hann].
        exists (TRun (hid h) ty c (hrun h ev)). split; [by apply Hin | done].
      * destruct (Hends _ _ _ _ (Hin h Hh) Hf) as [? | (k' & Hk' & Hf')]; [by left|].
        right. by apply (Hend _ _ c k').
Qed.


(** An emission of an asynchronously delivered type returns at once. *)
Lemma emit_async_full ty d err st :
  announces_quietly st -> Forall sound_task (background st) ->
  truthy (async (delivery st ty)) = true ->
  exists st' os,
    converges (fun f => emit f ty d err) st st' (Ok tt) /\
    extends st st' (ObsEmit ty d err :: os).
Proof.
  intros Ha Hbg Hasync.
  set (o := ObsEmit ty d err). set (st0 := log o st).
  assert (extends st st0 [o]) as Hext0 by apply extends_log.
  assert (forall st', emit 2 ty d err st = Some (st', Ok tt) ->
            converges (fun f => emit f ty d err) st st' (Ok tt)) as Hconv.
  { intros st' H. by apply (converges_of _ 2%nat); [apply steady_emit|]. }
  destruct (eventHandlers st !! ty) as [hs|] eqn:Ehs; cycle 1.
  { exists st0, []. split; [|done]. apply Hconv. unfold emit. simpl. by rewrite Ehs. }
  destruct hs as [|h0 hs0].
  { exists st0, []. split; [|done]. apply Hconv. unfold emit. simpl. by rewrite Ehs. }
  set (hs := h0 :: hs0) in *.
  set (c := truthy (catchErrors (delivery st ty))).
  set (ev := event_of st ty d err).
  set (cs := (fun h' => TRun (hid h') ty c (hrun h' ev)) <$> hs).
  destruct (weights_bounded (announce_bound st) cs) as [N HN].
  assert (Forall (fun h' => (weight (announce_bound st0) (TRun (hid h') ty c (hrun h' ev)) < S N)%nat)
                 hs) as Hw0.
  { pose proof (weights_relax _ _ _ HN) as HN'. unfold cs in HN'. by apply Forall_fmap in HN'. }
  destruct (starts_sound 0 ty c ev N hs st0) as (st1 & rs & os1 & Hrs & Hext1 & Hos1 & Hg1 & Hall);
    [by apply (announces_quietly_frame st) | done |].
  assert (spawn 2 ty d err st = Some (detach (stills rs) st1, Finished)) as Hspawn.
  { subst hs. rewrite spawn_eq. cbv zeta. fold o st0.
    change (eventHandlers st0) with (eventHandlers st). rewrite Ehs.
    change (eventOptions st0) with (eventOptions st). fold (delivery st ty). fold c.
    change (now st0) with (now st). fold (event_of st ty d err). fold ev.
    rewrite Hrs. by rewrite Hasync. }
  exists (detach (stills rs) st1), os1. split.
  - apply Hconv. unfold emit. by rewrite Hspawn.
  - apply extends_nil_r. eapply extends_trans; [|apply extends_detach].
    change (o :: os1) with ([o] ++ os1). by eapply extends_trans.
Qed.

(** ** Composing runs *)

Lemma converges_bind {A B} (m : nat -> M A) (k : nat -> A -> M B) st st1 st2 a r :
  converges m st st1 (Ok a) -> converges (fun f => k f a) st1 st2 r ->
  converges (fun f => bind (m f) (k f)) st st2 r.
Proof.
  intros [f1 H1] [f2 H2]. exists (Nat.max f1 f2). intros f Hle. unfold bind.
  rewrite H1 by lia. apply H2. lia.
Qed.

Lemma converges_bind_raise {A B} (m : nat -> M A) (k : nat -> A -> M B) st st1 t :
  converges m st st1 (Raise t) ->
  converges (fun f => bind (m f) (k f)) st st1 (Raise t).
Proof.
  intros [f1 H1]. exists f1. intros f Hle. unfold bind. by rewrite H1.
Qed.

Lemma converges_try_ok {A} (m : nat -> M A) (h : nat -> Thrown -> M A) st st1 a :
  converges m st st1 (Ok a) ->
  converges (fun f => try_catch (m f) (h f)) st st1 (Ok a).
Proof.
  intros [f1 H1]. exists f1. intros f Hle. unfold try_catch. by rewrite H1.
Qed.

Lemma converges_try_raise {A} (m : nat -> M A) (h : nat -> Thrown -> M A) st st1 st2 t r :
  converges m st st1 (Raise t) -> converges (fun f => h f t) st1 st2 r ->
  converges (fun f => try_catch (m f) (h f)) st st2 r.
Proof.
  intros [f1 H1] [f2 H2]. exists (Nat.max f1 f2). intros f Hle. unfold try_catch.
  rewrite H1 by lia. apply H2. lia.
Qed.

Lemma converges_ret {A} (a : A) st : converges (fun _ => ret a) st st (Ok a).
Proof. by exists 0%nat. Qed.

Lemma converges_throw {A} t st : converges (fun _ => @throw A t) st st (Raise t).
Proof. by exists 0%nat. Qed.

Lemma converges_shift {A} (m : nat -> M A) st st' r :
  converges (fun f => m (S f)) st st' r -> converges m st st' r.
Proof.
  intros [f0 H]. exists (S f0). intros f Hle. destruct f as [|f]; [lia|]. apply H. lia.
Qed.

Lemma converges_inj {A} (m : nat -> M A) st st1 st2 r1 r2 :
  converges m st st1 r1 -> converges m st st2 r2 -> st1 = st2 /\ r1 = r2.
Proof.
  intros [f1 H1] [f2 H2].
  specialize (H1 (Nat.max f1 f2) ltac:(lia)). specialize (H2 (Nat.max f1 f2) ltac:(lia)).
  rewrite H1 in H2. by inversion H2.
Qed.

(** ** Counting observations *)

Lemma milestones_app os1 os2 : milestones (os1 ++ os2) = milestones os1 ++ milestones os2.
Proof. apply List.filter_app. Qed.

Lemma emissions_app os1 os2 : emissions (os1 ++ os2) = emissions os1 ++ emissions os2.
Proof. unfold emissions. apply omap_app. Qed.

Lemma emitted_app ty os1 os2 : emitted ty (os1 ++ os2) = (emitted ty os1 + emitted ty os2)%nat.
Proof. unfold emitted. by rewrite emissions_app, List.filter_app, List.length_app. Qed.

Lemma backoffs_app os1 os2 : backoffs (os1 ++ os2) = backoffs os1 ++ backoffs os2.
Proof. unfold backoffs. apply omap_app. Qed.

Lemma milestones_bus_obs os :
  Forall (fun o => bus_obs o = true) os -> milestones os = [].
Proof.
  induction 1 as [|o os Ho _ IH]; [done|]. destruct o; try discriminate; try exact IH.
  unfold milestones. simpl in *. by rewrite Ho.
Qed.

Lemma emitted_milestones ty os :
  ty <> "handler:error" -> emitted ty (milestones os) = emitted ty os.
Proof.
  intros Hty. induction os as [|o os IH]; [done|].
  change (o :: os) with ([o] ++ os). rewrite milestones_app, !emitted_app, IH. f_equal.
  destruct o as [ty' d err | | | | | | | ]; try done.
  unfold milestones. simpl. destruct (String.eqb_spec ty' "handler:error") as [-> | Hne]; [|done].
  simpl. unfold emitted. simpl. by destruct (String.eqb_spec ty "handler:error").
Qed.

Lemma fetches_app os1 os2 : fetches (os1 ++ os2) = (fetches os1 + fetches os2)%nat.
Proof. unfold fetches. by rewrite List.filter_app, List.length_app. Qed.

Lemma fetches_milestones os : fetches (milestones os) = fetches os.
Proof.
  induction os as [|o os IH]; [done|].
  change (o :: os) with ([o] ++ os). rewrite milestones_app, !fetches_app, IH. f_equal.
  destruct o as [ty d err | | | | | | | ]; try done.
  unfold milestones. simpl. by destruct (ty =? "handler:error")%string.
Qed.

Lemma backoffs_milestones os : backoffs (milestones os) = backoffs os.
Proof.
  induction os as [|o os IH]; [done|].
  change (o :: os) with ([o] ++ os). rewrite milestones_app, !backoffs_app, IH. f_equal.
  destruct o as [ty d err | | | | | | | ]; try done.
  unfold milestones. simpl. by destruct (ty =? "handler:error")%string.
Qed.

Lemma fetch_times_app os1 os2 : fetch_times (os1 ++ os2) = fetch_times os1 ++ fetch_times os2.
Proof. unfold fetch_times. apply omap_app. Qed.

Lemma fetch_times_milestones os : fetch_times (milestones os) = fetch_times os.
Proof.
  induction os as [|o os IH]; [done|].
  change (o :: os) with ([o] ++ os). rewrite milestones_app, !fetch_times_app, IH. f_equal.
  destruct o as [ty d err | | | | | | | ]; try done.
  unfold milestones. simpl. by destruct (ty =? "handler:error")%string.
Qed.

Lemma run_of_refl st : run_of st st [].
Proof. split; [done | done | by rewrite app_nil_r | unfold fetches; simpl; lia]. Qed.

Lemma run_of_trans st st1 st2 os1 os2 :
  run_of st st1 os1 -> run_of st1 st2 os2 -> run_of st st2 (os1 ++ os2).
Proof.
  intros [] []. split; try congruence.
  - rewrite app_assoc. congruence.
  - rewrite fetches_app. lia.
Qed.

Lemma run_of_extends st st' os :
  extends st st' os -> milestones os = [] -> run_of st st' os.
Proof.
  intros [] Hm. split; try done.
  rewrite <- fetches_milestones, Hm. unfold fetches. simpl. lia.
Qed.

Lemma run_of_after_log o st st' os :
  run_of (log o st) st' os -> fetches [o] = 0%nat -> run_of st st' (o :: os).
Proof.
  intros [? ? Htrace Hcalls] Ho. split; try done; simpl in *.
  - rewrite Htrace. by rewrite <- app_assoc.
  - change (o :: os) with ([o] ++ os). rewrite fetches_app, Ho. done.
Qed.

(** ** The client's operations when failures of handlers are isolated *)

Lemma steady_sleep delay : steady (fun f => sleep f delay).
Proof. intros f f' Hle. by apply agrees_sleep. Qed.

Lemma emit_isolated ty d err st :
  isolated st -> ty <> "handler:error" ->
  exists st' os,
    converges (fun f => emit f ty d err) st st' (Ok tt) /\ isolated st' /\
    run_of st st' os /\ milestones os = [ObsEmit ty d err].
Proof.
  intros Hi Hty.
  destruct (emit_isolated_full ty d err st Hi) as (st' & os & Hc & Hext & Hi' & Hos).
  exists st', (ObsEmit ty d err :: os).
  assert (milestones (ObsEmit ty d err :: os) = [ObsEmit ty d err]) as Hm.
  { change (ObsEmit ty d err :: os) with ([ObsEmit ty d err] ++ os).
    rewrite milestones_app, (milestones_bus_obs os) by done.
    unfold milestones. simpl. by destruct (String.eqb_spec ty "handler:error"). }
  split_and!; try done. destruct Hext. split; try done.
  rewrite <- fetches_milestones, Hm. unfold fetches. simpl. lia.
Qed.

(** While a timer or the network is awaited the tasks behind the main flow
    run to their end. *)
Lemma drain_isolated st :
  isolated st ->
  exists f st' os,
    drain f st = Some st' /\ extends st st' os /\ isolated st' /\ milestones os = [].
Proof.
  intros Hi. destruct (drain_sound st) as (f & st' & os & Hd & Hext & Hos & Hbg);
    [apply Hi | apply Hi |].
  exists f, st', os. split_and!; [done | done | | by apply milestones_bus_obs].
  apply (isolated_extends st _ os); [done | by rewrite Hbg | done].
Qed.

Lemma timer_delay_pos delay : 1 <= timer_delay delay.
Proof.
  unfold timer_delay. destruct (1 <=? delay) eqn:E; simpl; [|lia].
  apply Z.leb_le in E. destruct (delay <=? TIMEOUT_MAX); lia.
Qed.

Lemma timer_delay_in_range delay :
  1 <= delay <= TIMEOUT_MAX -> timer_delay delay = delay.
Proof.
  intros [H1 H2]. unfold timer_delay.
  apply Z.leb_le in H1, H2. by rewrite H1, H2.
Qed.

Lemma sleep_isolated delay st :
  isolated st ->
  exists st' os,
    converges (fun f => sleep f delay) st st' (Ok tt) /\ isolated st' /\
    run_of st st' os /\ milestones os = [] /\ now st' = now st + timer_delay delay /\
    lastRequestTime st' = lastRequestTime st.
Proof.
  intros Hi. destruct (drain_isolated st Hi) as (f & st1 & os & Hd & Hext & Hi1 & Hm).
  exists (set_now (now st1 + timer_delay delay) st1), os.
  split_and!; [| by apply (isolated_frame st1) | | done | |].
  - apply (converges_of _ f); [apply steady_sleep|]. unfold sleep. by rewrite Hd.
  - destruct Hext. split; try done. simpl.
    rewrite <- fetches_milestones, Hm. unfold fetches. simpl. lia.
  - simpl. by rewrite (ext_now _ _ _ Hext).
  - apply (ext_last _ _ _ Hext).
Qed.

(** The event bus leaves the clock alone. *)
Lemma emit_isolated_clock ty d err st st' r :
  isolated st -> converges (fun f => emit f ty d err) st st' r ->
  now st' = now st /\ lastRequestTime st' = lastRequestTime st.
Proof.
  intros Hi Hc. destruct (emit_isolated_full ty d err st Hi) as (s1 & os & Hc1 & Hext & _ & _).
  destruct (converges_inj _ _ _ _ _ _ Hc Hc1) as [-> _].
  split; [apply (ext_now _ _ _ Hext) | apply (ext_last _ _ _ Hext)].
Qed.

Section ClientIsolated.

Variable cfg : Config.
Variable world : World.

Lemma steady_enforceRateLimit : steady enforceRateLimit.
Proof. intros f f' Hle. by apply agrees_enforceRateLimit. Qed.

Lemma steady_fetchWithTimeout target options :
  steady (fun f => fetchWithTimeout cfg world f target options).
Proof. intros f f' Hle. by apply agrees_fetchWithTimeout. Qed.

Lemma enforceRateLimit_isolated st :
  isolated st ->
  exists st' os,
    converges enforceRateLimit st st' (Ok tt) /\ isolated st' /\
    run_of st st' os /\ milestones os = [] /\ now st' = gate_time st /\
    lastRequestTime st' = gate_time st.
Proof.
  intros Hq. unfold gate_time.
  destruct (now st - lastRequestTime st <? minRequestInterval) eqn:E.
  - set (d := minRequestInterval - (now st - lastRequestTime st)).
    destruct (sleep_isolated d (log (ObsGate d) st))
      as (st1 & os & [f Hc] & Hq1 & Hrun & Hm & Hnow & _); [by apply (isolated_frame st)|].
    exists (set_lastRequestTime (now st1) st1), (ObsGate d :: os). split_and!.
    + exists f. intros f' Hle. unfold enforceRateLimit. rewrite E. fold d. by rewrite (Hc f' Hle).
    + by apply (isolated_frame st1).
    + apply run_of_after_log; [|done]. destruct Hrun. by split.
    + change (ObsGate d :: os) with ([ObsGate d] ++ os). by rewrite milestones_app, Hm.
    + done.
    + done.
  - exists (set_lastRequestTime (now st) st), [].
    split_and!; [| by apply (isolated_frame st) | | done | done | done].
    + exists 0%nat. intros f' _. unfold enforceRateLimit. by rewrite E.
    + split; [done | done | simpl; by rewrite app_nil_r | unfold fetches; simpl; lia].
Qed.

Lemma fetchWithTimeout_isolated target options st :
  isolated st ->
  exists st' os,
    converges (fun f => fetchWithTimeout cfg world f target options) st st'
              (attempt cfg world options (now st) (fetchCalls st)) /\
    isolated st' /\ run_of st st' os /\
    milestones os = [ObsFetch (fetchCalls st) (now st) target (body options)] /\
    now st' = attempt_end cfg world options (now st) (fetchCalls st) /\
    lastRequestTime st' = lastRequestTime st.
Proof.
  intros Hq.
  set (o := ObsFetch (fetchCalls st) (now st) target (body options)).
  destruct (drain_isolated (count_fetch (log o st)))
    as (f & st1 & os & Hd & Hext & Hq1 & Hm); [by apply (isolated_frame st)|].
  set (timeout := default (timeout cfg) (init_timeout options)).
  set (abortAt := fst (controller (now st) timeout (init_signal options))).
  destruct (fetch (transport world (fetchCalls st)) (now st) abortAt) as [settled outcome] eqn:Ef.
  exists (set_now settled st1), (o :: os). split_and!.
  - apply (converges_of _ f); [apply steady_fetchWithTimeout|].
    unfold fetchWithTimeout, attempt. fold o timeout abortAt. rewrite Hd, Ef. done.
  - by apply (isolated_frame st1).
  - destruct Hext as [? ? ? ? Hcalls Htrace]. split; try done; simpl in *.
    + rewrite Htrace. by rewrite <- app_assoc.
    + change (o :: os) with ([o] ++ os).
      rewrite Hcalls, fetches_app, <- (fetches_milestones os), Hm. unfold fetches. simpl. lia.
  - change (o :: os) with ([o] ++ os). by rewrite milestones_app, Hm.
  - unfold attempt_end. fold timeout abortAt. by rewrite Ef.
  - apply (ext_last _ _ _ Hext).
Qed.

Lemma backoff_isolated rc st :
  isolated st ->
  exists st' os,
    converges (fun f => backoff cfg f rc) st st' (Ok tt) /\ isolated st' /\
    run_of st st' os /\ milestones os = [ObsBackoff (backoffDelay cfg rc)] /\
    now st' = now st + timer_delay (backoffDelay cfg rc) /\
    lastRequestTime st' = lastRequestTime st.
Proof.
  intros Hq. set (o := ObsBackoff (backoffDelay cfg rc)).
  destruct (sleep_isolated (backoffDelay cfg rc) (log o st))
    as (st1 & os & Hc & Hq1 & Hrun & Hm & Hnow & Hlast); [by apply (isolated_frame st)|].
  exists st1, (o :: os). split_and!; [done | done | | | done | done].
  - by apply run_of_after_log.
  - change (o :: os) with ([o] ++ os). by rewrite milestones_app, Hm.
Qed.

Lemma attempt_in_time o start n r :
  signal o = None -> in_time cfg (transport world n) r ->
  attempt cfg world (requestInit cfg o) start n = Ok r.
Proof.
  intros Hs (l & Htr & Hl). unfold attempt. simpl. rewrite Hs, Htr. simpl.
  destruct (_ <? _) eqn:E; [done|]. apply Z.ltb_ge in E. lia.
Qed.

Lemma attempt_end_in_time o start n r :
  signal o = None -> in_time cfg (transport world n) r ->
  attempt_end cfg world (requestInit cfg o) start n = start + latency_of (transport world n).
Proof.
  intros Hs (l & Htr & Hl). unfold attempt_end. simpl. rewrite Hs, Htr. simpl.
  destruct (_ <? _) eqn:E; [done|]. apply Z.ltb_ge in E. lia.
Qed.

(** An attempt does not end before it started. *)
Lemma attempt_end_ge options start n : start <= attempt_end cfg world options start n.
Proof.
  unfold attempt_end.
  set (tm := default (timeout cfg) (init_timeout options)).
  assert (start <= fst (controller start tm (init_signal options))) as Hab.
  { pose proof (timer_delay_pos tm). unfold controller.
    destruct (init_signal options) as [s|]; simpl; [|lia].
    destruct ((start <? s) && (s <? start + timer_delay tm)) eqn:Es; simpl; [|lia].
    apply andb_true_iff in Es as [H1 _]. apply Z.ltb_lt in H1. lia. }
  unfold fetch. destruct (transport world n) as [l r | l t |]; simpl; [| |done].
  - destruct (_ <? _); simpl; lia.
  - destruct (_ <? _); simpl; lia.
Qed.

(** The rate limiter after an attempt that started at [last] and a wait. *)
Lemma gate_time_after st last t :
  lastRequestTime st = last -> now st = t -> last <= t ->
  gate_time st = Z.max t (last + minRequestInterval).
Proof.
  intros Hl Hn Hlt. unfold gate_time, minRequestInterval. rewrite Hl, Hn.
  destruct (t - last <? 100) eqn:E.
  - apply Z.ltb_lt in E. rewrite timer_delay_in_range by (unfold TIMEOUT_MAX; lia). lia.
  - apply Z.ltb_ge in E. lia.
Qed.

Lemma attempt_aborted o start n :
  aborted cfg (transport world n) (signal o) ->
  attempt cfg world (requestInit cfg o) start n = Raise (ThrownError TimeoutError).
Proof. intros Ha. unfold attempt. simpl. by rewrite Ha. Qed.

Lemma same_calls_after_gate st sa osa :
  run_of st sa osa -> milestones osa = [] -> fetchCalls sa = fetchCalls st.
Proof.
  intros [? ? ? ->] Hm. rewrite <- fetches_milestones, Hm. unfold fetches. simpl. lia.
Qed.

Lemma retry_step_429 o rc st r :
  isolated st -> status r = 429 -> rc < maxRetries (retryOptions cfg) ->
  attempt cfg world (requestInit cfg o) (gate_time st) (fetchCalls st) = Ok r ->
  exists st1 os,
    isolated st1 /\ run_of st st1 os /\
    milestones os =
      [ObsFetch (fetchCalls st) (gate_time st) (baseUrl cfg +:+ "/extract") (requestBody cfg o);
       ObsEmit "rateLimit" (Some (PayloadRetry rc)) None;
       ObsEmit "request:retry" (Some (PayloadRetry rc)) None;
       ObsBackoff (backoffDelay cfg rc)] /\
    (forall st2 res,
      converges (fun f => retryableRequest cfg f (requestFn cfg world o) (rc + 1)) st1 st2 res ->
      converges (fun f => retryableRequest cfg f (requestFn cfg world o) rc) st st2 res) /\
    lastRequestTime st1 = gate_time st /\
    now st1 = attempt_end cfg world (requestInit cfg o) (gate_time st) (fetchCalls st)
              + timer_delay (backoffDelay cfg rc).
Proof.
  intros Hq Hst Hrc Hatt.
  destruct (enforceRateLimit_isolated st Hq) as (sa & osa & Hca & Hqa & Hra & Hma & Hnow & Hlast).
  destruct (fetchWithTimeout_isolated (baseUrl cfg +:+ "/extract") (requestInit cfg o) sa Hqa)
    as (sb & osb & Hcb & Hqb & Hrb & Hmb & Hnb & Hlb).
  pose proof (same_calls_after_gate _ _ _ Hra Hma) as Hsame.
  rewrite Hnow, Hsame in Hcb, Hmb, Hnb. rewrite Hatt in Hcb.
  destruct (emit_isolated "rateLimit" (Some (PayloadRetry rc)) None sb Hqb ltac:(done))
    as (sc & osc & Hcc & Hqc & Hrc' & Hmc).
  destruct (emit_isolated_clock _ _ _ _ _ _ Hqb Hcc) as [Hnc Hlc].
  destruct (emit_isolated "request:retry" (Some (PayloadRetry rc)) None sc Hqc ltac:(done))
    as (sd & osd & Hcd & Hqd & Hrd & Hmd).
  destruct (emit_isolated_clock _ _ _ _ _ _ Hqc Hcd) as [Hnd Hld].
  destruct (backoff_isolated rc sd Hqd) as (se & ose & Hce & Hqe & Hre & Hme & Hne & Hle).
  exists se, (osa ++ osb ++ osc ++ osd ++ ose). split_and!; [done | | | | congruence | congruence].
  - repeat (eapply run_of_trans; [eassumption|]). done.
  - by rewrite !milestones_app, Hma, Hmb, Hmc, Hmd, Hme.
  - intros st2 res Hrec. apply converges_shift. cbn [retryableRequest].
    eapply converges_bind with (a := Again) (st1 := se); [|exact Hrec].
    apply converges_try_ok.
    eapply converges_bind; [exact Hca|]. simpl.
    eapply converges_bind; [exact Hcb|]. simpl.
    rewrite Hst. simpl. apply Z.ltb_lt in Hrc. rewrite Hrc. simpl.
    eapply converges_bind; [exact Hcc|]. simpl.
    eapply converges_bind; [exact Hcd|]. simpl.
    eapply converges_bind; [exact Hce|]. simpl.
    apply converges_ret.
Qed.

Lemma retry_step_done o rc st r :
  isolated st ->
  (status r =? 429) && (rc <? maxRetries (retryOptions cfg)) = false ->
  attempt cfg world (requestInit cfg o) (gate_time st) (fetchCalls st) = Ok r ->
  exists st1 os,
    converges (fun f => retryableRequest cfg f (requestFn cfg world o) rc) st st1 (Ok r) /\
    isolated st1 /\ run_of st st1 os /\
    milestones os =
      [ObsFetch (fetchCalls st) (gate_time st) (baseUrl cfg +:+ "/extract") (requestBody cfg o)] /\
    lastRequestTime st1 = gate_time st /\
    now st1 = attempt_end cfg world (requestInit cfg o) (gate_time st) (fetchCalls st).
Proof.
  intros Hq Hcond Hatt.
  destruct (enforceRateLimit_isolated st Hq) as (sa & osa & Hca & Hqa & Hra & Hma & Hnow & Hlast).
  destruct (fetchWithTimeout_isolated (baseUrl cfg +:+ "/extract") (requestInit cfg o) sa Hqa)
    as (sb & osb & Hcb & Hqb & Hrb & Hmb & Hnb & Hlb).
  pose proof (same_calls_after_gate _ _ _ Hra Hma) as Hsame.
  rewrite Hnow, Hsame in Hcb, Hmb, Hnb. rewrite Hatt in Hcb.
  exists sb, (osa ++ osb). split_and!; [| done | by eapply run_of_trans | | congruence | done].
  - apply converges_shift. cbn [retryableRequest].
    eapply converges_bind with (a := Done r) (st1 := sb); [|apply converges_ret].
    apply converges_try_ok.
    eapply converges_bind; [exact Hca|]. simpl.
    eapply converges_bind; [exact Hcb|]. simpl.
    rewrite Hcond. apply converges_ret.
  - by rewrite milestones_app, Hma, Hmb.
Qed.

Lemma attempt_not_AbortError options start n e :
  attempt cfg world options start n = Raise (ThrownError e) ->
  (name e =? "AbortError")%string = false.
Proof.
  unfold attempt, fetchWithTimeout_catch.
  destruct (fetch _ _ _).2 as [r | [e' | v]]; try done.
  destruct (name e' =? "AbortError")%string eqn:E; intros [= <-]; done.
Qed.

Lemma retry_step_error o rc st e :
  isolated st ->
  attempt cfg world (requestInit cfg o) (gate_time st) (fetchCalls st) = Raise (ThrownError e) ->
  exists st1 os,
    isolated st1 /\ run_of st st1 os /\
    (if (rc <? maxRetries (retryOptions cfg)) && isRetryableError (ThrownError e) then
      milestones os =
        [ObsFetch (fetchCalls st) (gate_time st) (baseUrl cfg +:+ "/extract") (requestBody cfg o);
         ObsEmit "request:error" None (Some (ThrownError e));
         ObsEmit "request:retry" (Some (PayloadRetry rc)) None;
         ObsBackoff (backoffDelay cfg rc)] /\
      forall st2 res,
        converges (fun f => retryableRequest cfg f (requestFn cfg world o) (rc + 1)) st1 st2 res ->
        converges (fun f => retryableRequest cfg f (requestFn cfg world o) rc) st st2 res
    else
      milestones os =
        [ObsFetch (fetchCalls st) (gate_time st) (baseUrl cfg +:+ "/extract") (requestBody cfg o);
         ObsEmit "request:error" None (Some (ThrownError e))] /\
      converges (fun f => retryableRequest cfg f (requestFn cfg world o) rc) st st1
                (Raise (ThrownError e))) /\
    lastRequestTime st1 = gate_time st /\
    now st1 = attempt_end cfg world (requestInit cfg o) (gate_time st) (fetchCalls st)
              + (if (rc <? maxRetries (retryOptions cfg)) && isRetryableError (ThrownError e)
                 then timer_delay (backoffDelay cfg rc) else 0).
Proof.
  intros Hq Hatt.
  destruct (enforceRateLimit_isolated st Hq) as (sa & osa & Hca & Hqa & Hra & Hma & Hnow & Hlast).
  destruct (fetchWithTimeout_isolated (baseUrl cfg +:+ "/extract") (requestInit cfg o) sa Hqa)
    as (sb & osb & Hcb & Hqb & Hrb & Hmb & Hnb & Hlb).
  pose proof (same_calls_after_gate _ _ _ Hra Hma) as Hsame.
  pose proof (attempt_not_AbortError _ _ _ _ Hatt) as Hname.
  rewrite Hnow, Hsame in Hcb, Hmb, Hnb. rewrite Hatt in Hcb.
  destruct (emit_isolated "request:error" None (Some (ThrownError e)) sb Hqb ltac:(done))
    as (sc & osc & Hcc & Hqc & Hrc' & Hmc).
  destruct (emit_isolated_clock _ _ _ _ _ _ Hqb Hcc) as [Hnc Hlc].
  assert (converges
    (fun f => bind (enforceRateLimit f) (fun _ =>
       bind (requestFn cfg world o f) (fun response =>
         if (status response =? 429) && (rc <? maxRetries (retryOptions cfg))
         then
           bind (emit f "rateLimit" (Some (PayloadRetry rc)) None) (fun _ =>
           bind (emit f "request:retry" (Some (PayloadRetry rc)) None) (fun _ =>
           bind (backoff cfg f rc) (fun _ => ret Again)))
         else ret (Done response)))) st sb (Raise (ThrownError e))) as Htry.
  { eapply converges_bind; [exact Hca|]. simpl. by apply converges_bind_raise. }
  destruct ((rc <? maxRetries (retryOptions cfg)) && isRetryableError (ThrownError e)) eqn:Econd.
  - destruct (emit_isolated "request:retry" (Some (PayloadRetry rc)) None sc Hqc ltac:(done))
      as (sd & osd & Hcd & Hqd & Hrd & Hmd).
    destruct (emit_isolated_clock _ _ _ _ _ _ Hqc Hcd) as [Hnd Hld].
    destruct (backoff_isolated rc sd Hqd) as (se & ose & Hce & Hqe & Hre & Hme & Hne & Hle).
    exists se, (osa ++ osb ++ osc ++ osd ++ ose).
    split_and!; [done | | | | congruence | congruence].
    + repeat (eapply run_of_trans; [eassumption|]). done.
    + by rewrite !milestones_app, Hma, Hmb, Hmc, Hmd, Hme.
    + intros st2 res Hrec. apply converges_shift. cbn [retryableRequest].
      eapply converges_bind with (a := Again) (st1 := se); [|exact Hrec].
      eapply converges_try_raise; [exact Htry|]. cbv beta iota. rewrite Hname.
      eapply converges_bind; [apply converges_ret|]. cbv beta.
      eapply converges_bind; [exact Hcc|]. cbv beta. rewrite Econd.
      eapply converges_bind; [exact Hcd|]. simpl.
      eapply converges_bind; [exact Hce|]. simpl.
      apply converges_ret.
  - exists sc, (osa ++ osb ++ osc). split_and!; [done | | | | congruence | ].
    + repeat (eapply run_of_trans; [eassumption|]). done.
    + by rewrite !milestones_app, Hma, Hmb, Hmc.
    + apply converges_shift. cbn [retryableRequest].
      apply converges_bind_raise.
      eapply converges_try_raise; [exact Htry|]. cbv beta iota. rewrite Hname.
      eapply converges_bind; [apply converges_ret|]. cbv beta.
      eapply converges_bind; [exact Hcc|]. cbv beta. rewrite Econd.
      apply converges_throw.
    + rewrite Z.add_0_r. congruence.
Qed.

End ClientIsolated.

Section ClientRuns.

Variable cfg : Config.
Variable world : World.

Lemma retry_step_value o rc st v :
  isolated st ->
  attempt cfg world (requestInit cfg o) (gate_time st) (fetchCalls st) = Raise (ThrownValue v) ->
  exists st1 os,
    converges (fun f => retryableRequest cfg f (requestFn cfg world o) rc) st st1
              (Raise (ThrownValue v)) /\
    isolated st1 /\ run_of st st1 os /\
    milestones os =
      [ObsFetch (fetchCalls st) (gate_time st) (baseUrl cfg +:+ "/extract") (requestBody cfg o)].
Proof.
  intros Hq Hatt.
  destruct (enforceRateLimit_isolated st Hq) as (sa & osa & Hca & Hqa & Hra & Hma & Hnow & _).
  destruct (fetchWithTimeout_isolated cfg world (baseUrl cfg +:+ "/extract") (requestInit cfg o) sa Hqa)
    as (sb & osb & Hcb & Hqb & Hrb & Hmb & _).
  pose proof (same_calls_after_gate _ _ _ Hra Hma) as Hsame.
  rewrite Hnow, Hsame in Hcb, Hmb. rewrite Hatt in Hcb.
  exists sb, (osa ++ osb). split_and!; [| done | by eapply run_of_trans |].
  - apply converges_shift. cbn [retryableRequest].
    apply converges_bind_raise.
    eapply converges_try_raise with (t := ThrownValue v) (st1 := sb);
      [|cbv beta iota; apply converges_throw].
    eapply converges_bind; [exact Hca|]. cbv beta. by apply converges_bind_raise.
  - by rewrite milestones_app, Hma, Hmb.
Qed.

(** When the failures of handlers are isolated the retry controller always
    settles. *)
Lemma retryableRequest_settles o k : forall rc st,
  isolated st -> (Z.to_nat (maxRetries (retryOptions cfg) - rc) <= k)%nat ->
  exists st' r os,
    converges (fun f => retryableRequest cfg f (requestFn cfg world o) rc) st st' r /\
    isolated st' /\ run_of st st' os.
Proof.
  induction k as [|k IH]; intros rc st Hq Hk.
  - assert ((rc <? maxRetries (retryOptions cfg)) = false) as Hrc by (apply Z.ltb_ge; lia).
    destruct (attempt cfg world (requestInit cfg o) (gate_time st) (fetchCalls st))
      as [r | [e | v]] eqn:Hatt.
    + destruct (retry_step_done cfg world o rc st r Hq) as (st1 & os & Hc & Hq1 & Hr & _);
        [by rewrite Hrc, andb_false_r | done |]. by exists st1, (Ok r), os.
    + destruct (retry_step_error cfg world o rc st e Hq Hatt) as (st1 & os & Hq1 & Hr & Hcase & _).
      rewrite Hrc in Hcase. simpl in Hcase. destruct Hcase as [_ Hc].
      by exists st1, (Raise (ThrownError e)), os.
    + destruct (retry_step_value o rc st v Hq Hatt) as (st1 & os & Hc & Hq1 & Hr & _).
      by exists st1, (Raise (ThrownValue v)), os.
  - destruct (attempt cfg world (requestInit cfg o) (gate_time st) (fetchCalls st))
      as [r | [e | v]] eqn:Hatt.
    + destruct ((status r =? 429) && (rc <? maxRetries (retryOptions cfg))) eqn:Hcond.
      * apply andb_true_iff in Hcond as [Hs Hrc]. apply Z.eqb_eq in Hs. apply Z.ltb_lt in Hrc.
        destruct (retry_step_429 cfg world o rc st r Hq Hs Hrc Hatt)
          as (st1 & os1 & Hq1 & Hr1 & _ & Hnext & _).
        destruct (IH (rc + 1) st1 Hq1) as (st2 & res & os2 & Hc2 & Hq2 & Hr2); [lia|].
        exists st2, res, (os1 ++ os2). split_and!; [by apply Hnext | done | by eapply run_of_trans].
      * destruct (retry_step_done cfg world o rc st r Hq Hcond Hatt) as (st1 & os & Hc & Hq1 & Hr & _).
        by exists st1, (Ok r), os.
    + destruct (retry_step_error cfg world o rc st e Hq Hatt) as (st1 & os1 & Hq1 & Hr1 & Hcase & _).
      destruct ((rc <? maxRetries (retryOptions cfg)) && isRetryableError (ThrownError e)) eqn:Hcond.
      * destruct Hcase as [_ Hnext]. apply andb_true_iff in Hcond as [Hrc _]. apply Z.ltb_lt in Hrc.
        destruct (IH (rc + 1) st1 Hq1) as (st2 & res & os2 & Hc2 & Hq2 & Hr2); [lia|].
        exists st2, res, (os1 ++ os2). split_and!; [by apply Hnext | done | by eapply run_of_trans].
      * destruct Hcase as [_ Hc]. by exists st1, (Raise (ThrownError e)), os1.
    + destruct (retry_step_value o rc st v Hq Hatt) as (st1 & os & Hc & Hq1 & Hr & _).
      by exists st1, (Raise (ThrownValue v)), os.
Qed.

Lemma steady_retryable o rc :
  steady (fun f => retryableRequest cfg f (requestFn cfg world o) rc).
Proof.
  apply steady_retryableRequest. intros f f' Hle. by apply agrees_fetchWithTimeout.
Qed.

(** The [try] block of [extract] always settles, too. *)
Lemma extract_try_settles o st :
  isolated st ->
  exists st' r os,
    converges (fun f => extract_try cfg world f o) st st' r /\ isolated st' /\ run_of st st' os.
Proof.
  intros Hq.
  destruct (retryableRequest_settles o _ 0 st Hq (Nat.le_refl _)) as (s1 & r1 & os1 & Hc1 & Hq1 & Hr1).
  destruct r1 as [response | t]; cycle 1.
  { exists s1, (Raise t), os1. split_and!; [|done|done]. by apply converges_bind_raise. }
  unfold extract_try.
  destruct (json response) as [payload | t] eqn:Ej; cycle 1.
  { exists s1, (Raise t), os1. split_and!; [|done|done].
    eapply converges_bind; [exact Hc1|]. cbv beta.
    destruct (negb (ok response)).
    - apply converges_bind_raise. unfold handleError. apply converges_bind_raise.
      unfold response_json. rewrite Ej. apply converges_throw.
    - eapply converges_bind; [apply converges_ret|]. cbv beta.
      apply converges_bind_raise. unfold response_json. rewrite Ej. apply converges_throw. }
  destruct (negb (ok response)) eqn:Eok.
  { assert (exists t, converges (fun _ : nat => @handleError unit response) s1 s1 (Raise t)) as [t Ht].
    { unfold handleError, response_json. rewrite Ej.
      destruct (status response =? 401), (status response =? 429), (status response =? 400);
        eexists; (eapply converges_bind; [apply converges_ret|]); cbv beta; apply converges_throw. }
    exists s1, (Raise t), os1. split_and!; [|done|done].
    eapply converges_bind; [exact Hc1|]. cbv beta. rewrite Eok.
    by apply converges_bind_raise. }
  destruct (resp_data payload) as [[|row rows]|] eqn:Ed.
  - exists s1, (Raise (ThrownError (newError (or_else (resp_message payload) noDataMessage)))), os1.
    split_and!; [|done|done].
    eapply converges_bind; [exact Hc1|]. cbv beta. rewrite Eok.
    eapply converges_bind; [apply converges_ret|]. cbv beta.
    eapply converges_bind; [unfold response_json; rewrite Ej; apply converges_ret|]. cbv beta.
    rewrite Ed. apply converges_throw.
  - destruct (emit_isolated "extract:complete" (Some (PayloadResponse payload)) None s1 Hq1 ltac:(done))
      as (s2 & os2 & Hc2 & Hq2 & Hr2 & _).
    exists s2, (Ok (row :: rows)), (os1 ++ os2). split_and!; [|done|by eapply run_of_trans].
    eapply converges_bind; [exact Hc1|]. cbv beta. rewrite Eok.
    eapply converges_bind; [apply converges_ret|]. cbv beta.
    eapply converges_bind; [unfold response_json; rewrite Ej; apply converges_ret|]. cbv beta.
    rewrite Ed. eapply converges_bind; [exact Hc2|]. apply converges_ret.
  - exists s1, (Raise (ThrownError (newError (or_else (resp_message payload) noDataMessage)))), os1.
    split_and!; [|done|done].
    eapply converges_bind; [exact Hc1|]. cbv beta. rewrite Eok.
    eapply converges_bind; [apply converges_ret|]. cbv beta.
    eapply converges_bind; [unfold response_json; rewrite Ej; apply converges_ret|]. cbv beta.
    rewrite Ed. apply converges_throw.
Qed.

End ClientRuns.

Lemma emitted_bus_obs ty os :
  ty <> "handler:error" -> Forall (fun o => bus_obs o = true) os -> emitted ty os = 0%nat.
Proof. intros Hty H. by rewrite <- emitted_milestones, (milestones_bus_obs os H). Qed.

Lemma fetches_bus_obs os :
  Forall (fun o => bus_obs o = true) os -> fetches os = 0%nat.
Proof. intros H. by rewrite <- fetches_milestones, (milestones_bus_obs os H). Qed.

(** A run from a state where failures are isolated ends in such a state. *)
Lemma isolated_after_emit ty d err st st' r :
  isolated st -> converges (fun f => emit f ty d err) st st' r -> isolated st' /\ r = Ok tt.
Proof.
  intros Hq Hc. destruct (emit_isolated_full ty d err st Hq) as (s1 & os & Hc1 & _ & Hq1 & _).
  by destruct (converges_inj _ _ _ _ _ _ Hc Hc1) as [-> ->].
Qed.

Lemma same_calls_after_emit st st' os o :
  run_of st st' os -> milestones os = [o] -> fetches [o] = 0%nat ->
  fetchCalls st' = fetchCalls st.
Proof.
  intros [? ? ? ->] Hm Ho. rewrite <- fetches_milestones, Hm, Ho. lia.
Qed.

Section ClientClaims.

Variable cfg : Config.
Variable world : World.

Lemma isolated_after_try o st st' r :
  isolated st -> converges (fun f => extract_try cfg world f o) st st' r -> isolated st'.
Proof.
  intros Hq Hc. destruct (extract_try_settles cfg world o st Hq) as (s1 & r1 & os & Hc1 & Hq1 & _).
  by destruct (converges_inj _ _ _ _ _ _ Hc Hc1) as [-> ->].
Qed.

Lemma validateUrl_ok u st :
  parses_as_url world u = true -> converges (fun _ => validateUrl world u) st st (Ok tt).
Proof. intros H. unfold validateUrl. rewrite H. apply converges_ret. Qed.

(** C6: a request whose URL does not parse emits [extract:start] first and
    once, then fails with "Invalid URL format"; [extract:error] is not
    emitted and the transport is not called.  This holds whatever the
    handlers do, as long as their failures are isolated. *)
Theorem invalid_url_fails_before_any_attempt o st :
  isolated st -> parses_as_url world (url o) = false ->
  exists st' os,
    converges (fun f => extract cfg world f o) st st'
              (Raise (ThrownError (newError "Invalid URL format"))) /\
    trace st' = trace st ++ ObsEmit "extract:start" (Some (PayloadExtract o)) None :: os /\
    emitted "extract:start" (ObsEmit "extract:start" (Some (PayloadExtract o)) None :: os) = 1%nat /\
    emitted "extract:error" os = 0%nat /\
    fetches os = 0%nat /\ fetchCalls st' = fetchCalls st.
Proof.
  intros Hq Hurl.
  destruct (emit_isolated_full "extract:start" (Some (PayloadExtract o)) None st Hq)
    as (s1 & os & Hc & Hext & Hq1 & Hos).
  exists s1, os. split_and!.
  - unfold extract. eapply converges_bind; [exact Hc|]. cbv beta.
    apply converges_bind_raise. unfold validateUrl. rewrite Hurl. apply converges_throw.
  - apply (ext_trace _ _ _ Hext).
  - change (ObsEmit "extract:start" (Some (PayloadExtract o)) None :: os)
      with ([ObsEmit "extract:start" (Some (PayloadExtract o)) None] ++ os).
    by rewrite emitted_app, (emitted_bus_obs _ os).
  - by apply emitted_bus_obs.
  - by apply fetches_bus_obs.
  - apply (ext_fetch _ _ _ Hext).
Qed.

(** C3: whether a failed attempt is retried is decided by looking for the
    markers "network", "timeout" and "ECONNRESET" in the message of the
    failure; the failure of an aborted attempt, "Request timed out",
    contains none of them, so for every retry policy and every retry count
    the controller makes that one attempt, announces no retry, waits for no
    backoff and passes the failure on (the failures of handlers being
    isolated, so that [request:error] is delivered). *)
Theorem timeout_failure_is_never_retried o rc st :
  isolated st -> aborted cfg (transport world (fetchCalls st)) (signal o) ->
  (forall e, isRetryableError (ThrownError e) =
             includes "network" (message e) || includes "timeout" (message e)
             || includes "ECONNRESET" (message e)) /\
  isRetryableError (ThrownError TimeoutError) = false /\
  exists st' os,
    converges (fun f => retryableRequest cfg f (requestFn cfg world o) rc) st st'
              (Raise (ThrownError TimeoutError)) /\
    trace st' = trace st ++ os /\
    fetches os = 1%nat /\ emitted "request:retry" os = 0%nat /\ backoffs os = [].
Proof.
  intros Hq Hab. split; [done|]. split; [done|].
  destruct (retry_step_error cfg world o rc st TimeoutError Hq) as (st1 & os & Hq1 & Hr & Hcase & _).
  { by apply attempt_aborted. }
  replace ((rc <? maxRetries (retryOptions cfg)) && isRetryableError (ThrownError TimeoutError))
    with false in Hcase by (by rewrite andb_false_r).
  destruct Hcase as [Hm Hc].
  exists st1, os. split_and!; [done | apply (run_trace _ _ _ Hr) | | |].
  - by rewrite <- fetches_milestones, Hm.
  - (rewrite <- emitted_milestones, Hm by done; done).
  - by rewrite <- backoffs_milestones, Hm.
Qed.

Lemma extract_try_success s1 s2 o r payload row rows :
  isolated s2 ->
  converges (fun f => retryableRequest cfg f (requestFn cfg world o) 0) s1 s2 (Ok r) ->
  ok r = true -> json r = JsonBody payload -> resp_data payload = Some (row :: rows) ->
  exists s3 os,
    converges (fun f => extract_try cfg world f o) s1 s3 (Ok (row :: rows)) /\
    isolated s3 /\ run_of s2 s3 os /\
    milestones os = [ObsEmit "extract:complete" (Some (PayloadResponse payload)) None].
Proof.
  intros Hq Hc Hok Hj Hd.
  destruct (emit_isolated "extract:complete" (Some (PayloadResponse payload)) None s2 Hq ltac:(done))
    as (s3 & os & Hc3 & Hq3 & Hr3 & Hm3).
  exists s3, os. split_and!; [|done|done|done].
  unfold extract_try. eapply converges_bind; [exact Hc|]. cbv beta. rewrite Hok.
  eapply converges_bind; [apply converges_ret|]. cbv beta.
  eapply converges_bind; [unfold response_json; rewrite Hj; apply converges_ret|]. cbv beta.
  rewrite Hd. eapply converges_bind; [exact Hc3|]. apply converges_ret.
Qed.

Lemma extract_try_rate_limited s1 s2 o r payload :
  converges (fun f => retryableRequest cfg f (requestFn cfg world o) 0) s1 s2 (Ok r) ->
  status r = 429 -> json r = JsonBody payload ->
  converges (fun f => extract_try cfg world f o) s1 s2
    (Raise (ThrownError (newError "Rate limit exceeded. Please try again later."))).
Proof.
  intros Hc Hs Hj. unfold extract_try. eapply converges_bind; [exact Hc|]. cbv beta.
  unfold ok. rewrite Hs. simpl. apply converges_bind_raise.
  unfold handleError. eapply converges_bind.
  { unfold response_json. rewrite Hj. apply converges_ret. }
  cbv beta. rewrite Hs. simpl. apply converges_throw.
Qed.

(** What [extract] does with the outcome of its [try] block. *)
Lemma extract_returns o st s1 s2 rows :
  parses_as_url world (url o) = true ->
  converges (fun f => emit f "extract:start" (Some (PayloadExtract o)) None) st s1 (Ok tt) ->
  converges (fun f => extract_try cfg world f o) s1 s2 (Ok rows) ->
  converges (fun f => extract cfg world f o) st s2 (Ok rows).
Proof.
  intros Hurl Hc1 Hc2. unfold extract.
  eapply converges_bind; [exact Hc1|]. cbv beta.
  eapply converges_bind; [by apply validateUrl_ok|]. cbv beta.
  by apply converges_try_ok.
Qed.

Lemma extract_reraises o st s1 s2 t :
  isolated s2 -> parses_as_url world (url o) = true ->
  converges (fun f => emit f "extract:start" (Some (PayloadExtract o)) None) st s1 (Ok tt) ->
  converges (fun f => extract_try cfg world f o) s1 s2 (Raise t) ->
  exists s3 os,
    converges (fun f => extract cfg world f o) st s3 (Raise (reraised t)) /\
    isolated s3 /\ run_of s2 s3 os /\
    milestones os =
      match t with
      | ThrownError _ => [ObsEmit "extract:error" None (Some t)]
      | ThrownValue _ => []
      end.
Proof.
  intros Hq Hurl Hc1 Hc2.
  assert (forall s3 r,
    converges (fun f => @extract_catch (list Row) f t) s2 s3 r ->
    converges (fun f => extract cfg world f o) st s3 r) as Hwrap.
  { intros s3 r Hc3. unfold extract.
    eapply converges_bind; [exact Hc1|]. cbv beta.
    eapply converges_bind; [by apply validateUrl_ok|]. cbv beta.
    eapply converges_try_raise; [exact Hc2 | exact Hc3]. }
  destruct t as [e | v].
  - destruct (emit_isolated "extract:error" None (Some (ThrownError e)) s2 Hq ltac:(done))
      as (s3 & os & Hc3 & Hq3 & Hr3 & Hm3).
    exists s3, os. split_and!; [|done|done|done].
    apply Hwrap. unfold extract_catch, reraised.
    eapply converges_bind; [exact Hc3|]. cbv beta.
    destruct (message e =? "Request timed out")%string; apply converges_throw.
  - exists s2, []. split_and!; [|done|apply run_of_refl|done].
    apply Hwrap. unfold extract_catch, reraised. apply converges_throw.
Qed.

Lemma latency_of_nonneg tr : 0 <= latency_of tr.
Proof. destruct tr; simpl; lia. Qed.

Lemma gate_time_same st st' :
  now st' = now st -> lastRequestTime st' = lastRequestTime st -> gate_time st' = gate_time st.
Proof. intros Hn Hl. unfold gate_time. by rewrite Hn, Hl. Qed.

(** C4: with the policy (3, 1000, 2) and a transport that answers 429, 429
    and then a success with rows, [extract] calls the transport three times,
    emits [rateLimit] and [request:retry] twice each, emits
    [extract:complete] once and returns the rows of the last answer.  It
    waits 1000 * 2^0 ms before the first retry and 1000 * 2^1 ms before the
    second: the first attempt starts at [t1], when the rate limiter lets it
    through, the second at [t2], 1000 ms after the first answer has arrived,
    the third at [t3], 2000 ms after the second answer has arrived, and the
    call is over when the third answer arrives.  The handlers may do
    anything, and fail, as long as their failures are isolated; the answers
    arrive before the deadline and the caller does not cancel. *)
Theorem two_rate_limits_then_success o st r1 r2 r3 payload row rows :
  retryOptions cfg = {| maxRetries := 3; backoffFactor := 2; initialDelay := 1000 |} ->
  isolated st -> parses_as_url world (url o) = true -> signal o = None ->
  in_time cfg (transport world (fetchCalls st)) r1 -> status r1 = 429 ->
  in_time cfg (transport world (S (fetchCalls st))) r2 -> status r2 = 429 ->
  in_time cfg (transport world (S (S (fetchCalls st)))) r3 -> ok r3 = true ->
  json r3 = JsonBody payload -> resp_data payload = Some (row :: rows) ->
  exists st' os t1 t2 t3,
    converges (fun f => extract cfg world f o) st st' (Ok (row :: rows)) /\
    trace st' = trace st ++ os /\
    fetches os = 3%nat /\
    emitted "rateLimit" os = 2%nat /\ emitted "request:retry" os = 2%nat /\
    backoffs os = [1000 * 2 ^ 0; 1000 * 2 ^ 1] /\
    emitted "extract:complete" os = 1%nat /\
    t1 = gate_time st /\
    t2 = t1 + latency_of (transport world (fetchCalls st)) + 1000 * 2 ^ 0 /\
    t3 = t2 + latency_of (transport world (S (fetchCalls st))) + 1000 * 2 ^ 1 /\
    now st' = t3 + latency_of (transport world (S (S (fetchCalls st)))) /\
    milestones os =
      [ObsEmit "extract:start" (Some (PayloadExtract o)) None;
       ObsFetch (fetchCalls st) t1 (baseUrl cfg +:+ "/extract") (requestBody cfg o);
       ObsEmit "rateLimit" (Some (PayloadRetry 0)) None;
       ObsEmit "request:retry" (Some (PayloadRetry 0)) None;
       ObsBackoff 1000;
       ObsFetch (S (fetchCalls st)) t2 (baseUrl cfg +:+ "/extract") (requestBody cfg o);
       ObsEmit "rateLimit" (Some (PayloadRetry 1)) None;
       ObsEmit "request:retry" (Some (PayloadRetry 1)) None;
       ObsBackoff 2000;
       ObsFetch (S (S (fetchCalls st))) t3 (baseUrl cfg +:+ "/extract") (requestBody cfg o);
       ObsEmit "extract:complete" (Some (PayloadResponse payload)) None].
Proof.
  intros Hpol Hq Hurl Hsig Ht1 Hs1 Ht2 Hs2 Ht3 Hok Hj Hd.
  assert (backoffDelay cfg 0 = 1000) as Hd0 by (unfold backoffDelay; by rewrite Hpol).
  assert (backoffDelay cfg (0 + 1) = 2000) as Hd1 by (unfold backoffDelay; by rewrite Hpol).
  pose proof (latency_of_nonneg (transport world (fetchCalls st))) as Hl0.
  pose proof (latency_of_nonneg (transport world (S (fetchCalls st)))) as Hl1.
  destruct (emit_isolated "extract:start" (Some (PayloadExtract o)) None st Hq ltac:(done))
    as (s0 & os0 & Hc0 & Hq0 & Hr0 & Hm0).
  destruct (emit_isolated_clock _ _ _ _ _ _ Hq Hc0) as [Hnow0 Hlast0].
  pose proof (gate_time_same _ _ Hnow0 Hlast0) as Hg0.
  assert (fetchCalls s0 = fetchCalls st) as Hn0 by (by eapply same_calls_after_emit).
  destruct (retry_step_429 cfg world o 0 s0 r1 Hq0 Hs1)
    as (s1 & os1 & Hq1 & Hr1 & Hm1 & Hnext1 & Hlast1 & Hnow1).
  { rewrite Hpol. simpl. lia. }
  { apply attempt_in_time; [done | by rewrite Hn0]. }
  assert (fetchCalls s1 = S (fetchCalls st)) as Hn1.
  { rewrite (run_fetch _ _ _ Hr1), <- fetches_milestones, Hm1, Hn0. unfold fetches. simpl. lia. }
  rewrite (attempt_end_in_time cfg world o _ _ r1), Hd0, Hn0, Hg0 in Hnow1
    by (done || by rewrite Hn0).
  change (timer_delay 1000) with 1000 in Hnow1. rewrite Hg0 in Hlast1.
  assert (gate_time s1 = gate_time st + latency_of (transport world (fetchCalls st)) + 1000) as Hg1.
  { rewrite (gate_time_after s1 _ _ Hlast1 Hnow1) by lia. unfold minRequestInterval. lia. }
  destruct (retry_step_429 cfg world o (0 + 1) s1 r2 Hq1 Hs2)
    as (s2 & os2 & Hq2 & Hr2 & Hm2 & Hnext2 & Hlast2 & Hnow2).
  { rewrite Hpol. simpl. lia. }
  { apply attempt_in_time; [done | by rewrite Hn1]. }
  assert (fetchCalls s2 = S (S (fetchCalls st))) as Hn2.
  { rewrite (run_fetch _ _ _ Hr2), <- fetches_milestones, Hm2, Hn1. unfold fetches. simpl. lia. }
  rewrite (attempt_end_in_time cfg world o _ _ r2), Hd1, Hn1 in Hnow2
    by (done || by rewrite Hn1).
  change (timer_delay 2000) with 2000 in Hnow2.
  assert (gate_time s2 = gate_time s1 + latency_of (transport world (S (fetchCalls st))) + 2000)
    as Hg2.
  { rewrite (gate_time_after s2 _ _ Hlast2 Hnow2) by lia. unfold minRequestInterval. lia. }
  destruct (retry_step_done cfg world o (0 + 1 + 1) s2 r3 Hq2)
    as (s3 & os3 & Hc3 & Hq3 & Hr3 & Hm3 & Hlast3 & Hnow3).
  { unfold ok in Hok. apply andb_true_iff in Hok as [_ Hle]. apply Z.leb_le in Hle.
    replace (status r3 =? 429) with false by (symmetry; apply Z.eqb_neq; lia). done. }
  { apply attempt_in_time; [done | by rewrite Hn2]. }
  rewrite (attempt_end_in_time cfg world o _ _ r3), Hn2 in Hnow3 by (done || by rewrite Hn2).
  destruct (extract_try_success s0 s3 o r3 payload row rows Hq3) as (s4 & os4 & Hc4 & Hq4 & Hr4 & Hm4);
    [by apply Hnext1, Hnext2 | done | done | done |].
  assert (now s4 = now s3) as Hnow4.
  { assert (converges (fun f => emit f "extract:complete" (Some (PayloadResponse payload)) None)
              s3 s4 (Ok tt)) as Hce; [|by destruct (emit_isolated_clock _ _ _ _ _ _ Hq3 Hce)].
    destruct (emit_isolated "extract:complete" (Some (PayloadResponse payload)) None s3 Hq3
                ltac:(done)) as (s4' & os4' & Hc4' & _).
    assert (converges (fun f => extract_try cfg world f o) s0 s4' (Ok (row :: rows))) as Hc4''.
    { unfold extract_try. eapply converges_bind; [by apply Hnext1, Hnext2|]. cbv beta. rewrite Hok.
      eapply converges_bind; [apply converges_ret|]. cbv beta.
      eapply converges_bind; [unfold response_json; rewrite Hj; apply converges_ret|]. cbv beta.
      rewrite Hd. eapply converges_bind; [exact Hc4'|]. apply converges_ret. }
    by destruct (converges_inj _ _ _ _ _ _ Hc4 Hc4'') as [-> _]. }
  set (t1 := gate_time st) in *.
  set (t2 := t1 + latency_of (transport world (fetchCalls st)) + 1000) in *.
  set (t3 := t2 + latency_of (transport world (S (fetchCalls st))) + 2000).
  assert (milestones (os0 ++ os1 ++ os2 ++ os3 ++ os4) =
      [ObsEmit "extract:start" (Some (PayloadExtract o)) None;
       ObsFetch (fetchCalls st) t1 (baseUrl cfg +:+ "/extract") (requestBody cfg o);
       ObsEmit "rateLimit" (Some (PayloadRetry 0)) None;
       ObsEmit "request:retry" (Some (PayloadRetry 0)) None;
       ObsBackoff 1000;
       ObsFetch (S (fetchCalls st)) t2 (baseUrl cfg +:+ "/extract") (requestBody cfg o);
       ObsEmit "rateLimit" (Some (PayloadRetry 1)) None;
       ObsEmit "request:retry" (Some (PayloadRetry 1)) None;
       ObsBackoff 2000;
       ObsFetch (S (S (fetchCalls st))) t3 (baseUrl cfg +:+ "/extract") (requestBody cfg o);
       ObsEmit "extract:complete" (Some (PayloadResponse payload)) None]) as Hms.
  { rewrite !milestones_app, Hm0, Hm1, Hm2, Hm3, Hm4, Hn0, Hn1, Hn2, Hd0, Hd1, Hg0, Hg2, Hg1.
    done. }
  exists s4, (os0 ++ os1 ++ os2 ++ os3 ++ os4), t1, t2, t3. split_and!.
  - by eapply extract_returns.
  - eapply run_trace. repeat (eapply run_of_trans; [eassumption|]). done.
  - by rewrite <- fetches_milestones, Hms.
  - (rewrite <- emitted_milestones, Hms by done; done).
  - (rewrite <- emitted_milestones, Hms by done; done).
  - by rewrite <- backoffs_milestones, Hms.
  - (rewrite <- emitted_milestones, Hms by done; done).
  - done.
  - done.
  - done.
  - rewrite Hnow4, Hnow3, Hg2, Hg1. done.
  - done.
Qed.

Lemma retry_all_429 o k : forall rc st,
  isolated st -> signal o = None -> rc + Z.of_nat k = maxRetries (retryOptions cfg) ->
  (forall n, (fetchCalls st <= n)%nat -> rate_limited cfg (transport world n)) ->
  exists st' os r payload,
    converges (fun f => retryableRequest cfg f (requestFn cfg world o) rc) st st' (Ok r) /\
    status r = 429 /\ json r = JsonBody payload /\
    isolated st' /\ run_of st st' os /\
    fetches os = S k /\ emitted "rateLimit" os = k /\ emitted "request:retry" os = k /\
    emitted "extract:error" os = 0%nat.
Proof.
  induction k as [|k IH]; intros rc st Hq Hsig Hrc Hall.
  - destruct (Hall (fetchCalls st) (Nat.le_refl _)) as (r & payload & Hin & Hs & Hj).
    destruct (retry_step_done cfg world o rc st r Hq) as (st1 & os & Hc & Hq1 & Hr & Hm & _).
    { replace (rc <? maxRetries (retryOptions cfg)) with false; [by rewrite andb_false_r|].
      symmetry. apply Z.ltb_ge. lia. }
    { by apply attempt_in_time. }
    exists st1, os, r, payload. split_and!; try done.
    + by rewrite <- fetches_milestones, Hm.
    + (rewrite <- emitted_milestones, Hm by done; done).
    + (rewrite <- emitted_milestones, Hm by done; done).
    + (rewrite <- emitted_milestones, Hm by done; done).
  - destruct (Hall (fetchCalls st) (Nat.le_refl _)) as (r & payload & Hin & Hs & Hj).
    destruct (retry_step_429 cfg world o rc st r Hq Hs) as (st1 & os1 & Hq1 & Hr1 & Hm1 & Hnext & _).
    { lia. }
    { by apply attempt_in_time. }
    assert (fetchCalls st1 = S (fetchCalls st)) as Hn1.
    { rewrite (run_fetch _ _ _ Hr1), <- fetches_milestones, Hm1. unfold fetches. simpl. lia. }
    destruct (IH (rc + 1) st1 Hq1 Hsig) as (st2 & os2 & r' & payload' & Hc & Hs' & Hj' & Hq2 & Hr2 & Hf & He1 & He2 & He3).
    { lia. }
    { intros n Hn. apply Hall. lia. }
    exists st2, (os1 ++ os2), r', payload'. split_and!; try done.
    + by apply Hnext.
    + by eapply run_of_trans.
    + rewrite fetches_app, Hf, <- fetches_milestones, Hm1. done.
    + rewrite emitted_app, He1, <- emitted_milestones, Hm1 by done. done.
    + rewrite emitted_app, He2, <- emitted_milestones, Hm1 by done. done.
    + rewrite emitted_app, He3, <- emitted_milestones, Hm1 by done. done.
Qed.

(** C5, as the code has it: when every call of the transport is answered
    with HTTP 429 and a body that parses as JSON, [extract] makes
    [maxRetries + 1] attempts, emits [extract:error] once with the failure
    "Rate limit exceeded. Please try again later." and raises it under the
    prefix of [extract], for every retry policy with [maxRetries >= 0] and
    whatever the handlers do, as long as their failures are isolated. *)
Theorem always_rate_limited_gives_up o st :
  0 <= maxRetries (retryOptions cfg) ->
  isolated st -> parses_as_url world (url o) = true -> signal o = None ->
  (forall n, (fetchCalls st <= n)%nat -> rate_limited cfg (transport world n)) ->
  exists st' os,
    converges (fun f => extract cfg world f o) st st'
      (Raise (ThrownError (newError
         "Failed to extract data: Rate limit exceeded. Please try again later."))) /\
    trace st' = trace st ++ os /\
    Z.of_nat (fetches os) = maxRetries (retryOptions cfg) + 1 /\
    emitted "extract:error" os = 1%nat /\
    ObsEmit "extract:error" None
      (Some (ThrownError (newError "Rate limit exceeded. Please try again later."))) ∈ os.
Proof.
  intros Hmax Hq Hurl Hsig Hall.
  destruct (emit_isolated "extract:start" (Some (PayloadExtract o)) None st Hq ltac:(done))
    as (s0 & os0 & Hc0 & Hq0 & Hr0 & Hm0).
  assert (fetchCalls s0 = fetchCalls st) as Hn0 by (by eapply same_calls_after_emit).
  destruct (retry_all_429 o (Z.to_nat (maxRetries (retryOptions cfg))) 0 s0 Hq0 Hsig)
    as (s1 & os1 & r & payload & Hc1 & Hs & Hj & Hq1 & Hr1 & Hf & _ & _ & He).
  { lia. }
  { intros n Hn. apply Hall. lia. }
  pose proof (extract_try_rate_limited s0 s1 o r payload Hc1 Hs Hj) as Hc2.
  destruct (extract_reraises o st s0 s1 _ Hq1 Hurl Hc0 Hc2) as (s2 & os2 & Hc3 & Hq2 & Hr2 & Hm2).
  exists s2, (os0 ++ os1 ++ os2). split_and!.
  - exact Hc3.
  - eapply run_trace. repeat (eapply run_of_trans; [eassumption|]). done.
  - rewrite !fetches_app, Hf, <- (fetches_milestones os0), <- (fetches_milestones os2), Hm0, Hm2.
    unfold fetches. simpl. lia.
  - rewrite !emitted_app, He, <- (emitted_milestones _ os0), <- (emitted_milestones _ os2), Hm0, Hm2 by done.
    done.
  - apply elem_of_app. right. apply elem_of_app. right.
    assert (ObsEmit "extract:error" None
      (Some (ThrownError (newError "Rate limit exceeded. Please try again later.")))
      ∈ milestones os2) as Hin by (rewrite Hm2; apply list_elem_of_singleton; done).
    unfold milestones in Hin. apply list_elem_of_In, List.filter_In in Hin as [Hin _].
    by apply list_elem_of_In.
Qed.

(** C7, as the code has it: a failure of the [try] block of [extract] that
    is an [Error] is emitted as [extract:error] once and raised again,
    unchanged when its message is exactly "Request timed out" (as for every
    failure of an aborted attempt) and otherwise as a new error whose
    message is "Failed to extract data: " followed by the original message;
    a thrown value that is not an [Error] is not emitted and is replaced by
    "Failed to extract data: Unknown error".  The failures of handlers are
    isolated. *)
Theorem failure_in_try_is_emitted_and_reraised o st s1 s2 t :
  isolated st -> parses_as_url world (url o) = true ->
  converges (fun f => emit f "extract:start" (Some (PayloadExtract o)) None) st s1 (Ok tt) ->
  converges (fun f => extract_try cfg world f o) s1 s2 (Raise t) ->
  exists s3 os,
    trace s3 = trace s2 ++ os /\
    match t with
    | ThrownError e =>
        converges (fun f => extract cfg world f o) st s3
          (Raise (if (message e =? "Request timed out")%string then t
                  else ThrownError (newError ("Failed to extract data: " +:+ message e)))) /\
        emitted "extract:error" os = 1%nat /\
        ObsEmit "extract:error" None (Some t) ∈ os
    | ThrownValue _ =>
        converges (fun f => extract cfg world f o) st s3
          (Raise (ThrownError (newError "Failed to extract data: Unknown error"))) /\
        emitted "extract:error" os = 0%nat
    end.
Proof.
  intros Hq Hurl Hc1 Hc2.
  destruct (isolated_after_emit _ _ _ _ _ _ Hq Hc1) as [Hq1 _].
  pose proof (isolated_after_try o s1 s2 _ Hq1 Hc2) as Hq2.
  destruct (extract_reraises o st s1 s2 t Hq2 Hurl Hc1 Hc2) as (s3 & os & Hc3 & Hq3 & Hr3 & Hm3).
  exists s3, os. split; [apply (run_trace _ _ _ Hr3)|].
  destruct t as [e | v].
  - split_and!; [done | (rewrite <- emitted_milestones, Hm3 by done; done) |].
    assert (ObsEmit "extract:error" None (Some (ThrownError e)) ∈ milestones os) as Hin
      by (rewrite Hm3; apply list_elem_of_singleton; done).
    unfold milestones in Hin. apply list_elem_of_In, List.filter_In in Hin as [Hin _].
    by apply list_elem_of_In.
  - split; [done | (rewrite <- emitted_milestones, Hm3 by done; done)].
Qed.

End ClientClaims.

(** ** States in which no handler fails *)

Lemma quiet_new_State clock : quiet (new_State clock).
Proof.
  split; [|constructor]. intros ty hs. simpl. by rewrite lookup_empty.
Qed.

Lemma quiet_on ty h options st :
  quiet_handler h -> quiet st -> quiet (on ty h options st).
Proof.
  intros Hh [Hreg Hbg]. split; [|done]. intros ty' hs. simpl.
  destruct (decide (ty = ty')) as [<- | Hne].
  - rewrite lookup_insert_eq. intros [= <-]. unfold set_add.
    assert (Forall quiet_handler (default [] (eventHandlers st !! ty))) as Hold.
    { destruct (eventHandlers st !! ty) as [hs|] eqn:E; [by eapply Hreg | constructor]. }
    destruct (existsb _ _); [done|]. apply Forall_app. split; [done|]. by constructor.
  - rewrite lookup_insert_ne by done. apply Hreg.
Qed.

Lemma quiet_observed : quiet observed.
Proof. repeat apply quiet_on; try done; apply quiet_new_State. Qed.

Lemma quiet_watching_timeouts : quiet watching_timeouts.
Proof. apply quiet_on; [done | apply quiet_new_State]. Qed.

(** Registering a handler whose failures are caught, or that is delivered
    asynchronously, keeps failures isolated. *)
Lemma isolated_on ty h options st :
  isolated st -> (ty = "handler:error" -> quiet_handler h) ->
  default true (catchErrors options) = true \/ default false (async options) = true ->
  isolated (on ty h options st).
Proof.
  intros (Ha & Hsync & Hbg) Hh Hopt. split_and!; [| | done].
  - intros hs. simpl. destruct (decide (ty = "handler:error")) as [-> | Hne].
    + rewrite lookup_insert_eq. intros [= <-]. unfold set_add.
      assert (Forall quiet_handler (default [] (eventHandlers st !! "handler:error"))) as Hold.
      { destruct (eventHandlers st !! "handler:error") as [hs|] eqn:E; [by apply Ha | constructor]. }
      destruct (existsb _ _); [done|]. apply Forall_app. split; [done|]. constructor; [by apply Hh|done].
    + rewrite lookup_insert_ne by done. apply Ha.
  - intros ty' hs. unfold delivery. simpl. destruct (decide (ty = ty')) as [<- | Hne].
    + rewrite !lookup_insert_eq. simpl. intros _ Hasync Hcatch.
      destruct Hopt as [Hopt | Hopt]; congruence.
    + rewrite !lookup_insert_ne by done. apply Hsync.
Qed.

Lemma isolated_lenient_rate_limit : isolated lenient_rate_limit.
Proof.
  apply isolated_on; [apply isolated_on | intros _ ev; reflexivity | by left];
    [apply quiet_isolated, quiet_new_State | done | by left].
Qed.

(** ** The deadline wrapper and the [timeout] event *)

(** An aborted attempt surfaces as the same failure whatever aborted it. *)
Lemma abort_cause_is_not_surfaced cfg world options start n :
  snd (fetch (transport world n) start
         (fst (controller start (default (timeout cfg) (init_timeout options))
                          (init_signal options))))
    = Raise (ThrownError AbortError) ->
  attempt cfg world options start n = Raise (ThrownError TimeoutError).
Proof. intros H. unfold attempt. by rewrite H. Qed.

(** C1: the code surfaces a cancelled attempt as the failure of a timed-out
    one.  The caller's signal fires at 5200 during an attempt started at
    5000 with a deadline of 1000 ms on a network that stays silent: the
    controller is aborted by the caller, yet [fetchWithTimeout] raises the
    "Request timed out" [TimeoutError] it raises when the deadline elapses,
    and [extract] raises it unchanged. *)
Theorem cancelled_attempt_is_reported_as_timeout :
  snd (controller 5000 1000 (Some 5200)) = CallerCancelled /\
  snd (controller 5000 1000 None) = DeadlineElapsed /\
  (exists st',
     converges (fun f => requestFn demo_cfg silent_world cancelled_request f) fresh st'
               (Raise (ThrownError (mkError "TimeoutError" "Request timed out"))) /\
     now st' = 5200) /\
  (exists st',
     converges (fun f => requestFn demo_cfg silent_world demo_request f) fresh st'
               (Raise (ThrownError (mkError "TimeoutError" "Request timed out"))) /\
     now st' = 6000) /\
  exists st',
    converges (fun f => extract demo_cfg silent_world f cancelled_request) fresh st'
              (Raise (ThrownError (mkError "TimeoutError" "Request timed out"))).
Proof.
  split; [done|]. split; [done|]. split_and!.
  - exists (state_of (requestFn demo_cfg silent_world cancelled_request 2 fresh) fresh).
    split; [|vm_compute; reflexivity].
    apply (converges_of _ 2%nat); [|vm_compute; reflexivity].
    intros f f' Hle. by apply agrees_fetchWithTimeout.
  - exists (state_of (requestFn demo_cfg silent_world demo_request 2 fresh) fresh).
    split; [|vm_compute; reflexivity].
    apply (converges_of _ 2%nat); [|vm_compute; reflexivity].
    intros f f' Hle. by apply agrees_fetchWithTimeout.
  - exists (state_of (extract demo_cfg silent_world 10 cancelled_request fresh) fresh).
    apply (converges_of _ 10%nat); [apply steady_extract | vm_compute; reflexivity].
Qed.

(** C2: the code emits no [timeout] event for a timed-out attempt.  The
    network stays silent, the deadline of 1000 ms elapses, and an observer
    of [timeout] is registered: [extract] emits [extract:start],
    [request:error] and [extract:error], the observer is never started. *)
Theorem timed_out_attempt_emits_no_timeout_event :
  exists st',
    converges (fun f => extract demo_cfg silent_world f demo_request) watching_timeouts st'
              (Raise (ThrownError TimeoutError)) /\
    emissions (trace st') = ["extract:start"; "request:error"; "extract:error"] /\
    emitted "timeout" (trace st') = 0%nat /\
    started "timeout" (trace st') = [] /\
    fetchCalls st' = 1%nat /\ now st' = 6000.
Proof.
  exists (state_of (extract demo_cfg silent_world 10 demo_request watching_timeouts) fresh).
  split_and!; [|vm_compute; reflexivity..].
  apply (converges_of _ 10%nat); [apply steady_extract | vm_compute; reflexivity].
Qed.

(** C7 does not hold as stated: a success answer without rows whose message
    is "Request timed out" makes the [try] block fail with a plain [Error]
    (no data), which is not the failure of a timed-out attempt, and
    [extract] raises it without the prefix. *)
Lemma no_data_failure_is_raised_unwrapped :
  (exists st',
     converges (fun f => extract demo_cfg empty_world f demo_request) fresh st'
               (Raise (ThrownError (newError "Request timed out"))) /\
     emissions (trace st') = ["extract:start"; "extract:error"] /\ fetchCalls st' = 1%nat) /\
  newError "Request timed out" <> TimeoutError /\
  ~ exists st',
      converges (fun f => extract demo_cfg empty_world f demo_request) fresh st'
        (Raise (ThrownError (newError "Failed to extract data: Request timed out"))).
Proof.
  assert (converges (fun f => extract demo_cfg empty_world f demo_request) fresh
            (state_of (extract demo_cfg empty_world 10 demo_request fresh) fresh)
            (Raise (ThrownError (newError "Request timed out")))) as Hc.
  { apply (converges_of _ 10%nat); [apply steady_extract | vm_compute; reflexivity]. }
  split_and!.
  - eexists. split; [exact Hc|]. split; vm_compute; reflexivity.
  - done.
  - intros [st' Hc']. by destruct (converges_inj _ _ _ _ _ _ Hc Hc') as [_ ?].
Qed.

(** C5 does not hold as stated: when the 429 answers carry a body that is
    not JSON, [handleError] fails while it reads the body, before it looks
    at the status; after [maxRetries + 1] attempts [extract] raises the
    failure of the parser, not the failure for an exceeded rate limit. *)
Lemma unparsable_rate_limit_answer_raises_parser_failure :
  status garbled_limit_response = 429 /\
  (exists st',
     converges (fun f => extract demo_cfg (answering garbled_limit_response) f demo_request)
               fresh st'
               (Raise (ThrownError (newError
                  "Failed to extract data: Unexpected token < in JSON"))) /\
     fetchCalls st' = 4%nat /\
     emissions (trace st') =
       ["extract:start"; "rateLimit"; "request:retry"; "rateLimit"; "request:retry";
        "rateLimit"; "request:retry"; "extract:error"]) /\
  ~ exists st',
      converges (fun f => extract demo_cfg (answering garbled_limit_response) f demo_request)
                fresh st'
                (Raise (ThrownError (newError
                   "Failed to extract data: Rate limit exceeded. Please try again later."))).
Proof.
  assert (converges (fun f => extract demo_cfg (answering garbled_limit_response) f demo_request)
            fresh
            (state_of (extract demo_cfg (answering garbled_limit_response) 20 demo_request fresh)
                      fresh)
            (Raise (ThrownError (newError
               "Failed to extract data: Unexpected token < in JSON")))) as Hc.
  { apply (converges_of _ 20%nat); [apply steady_extract | vm_compute; reflexivity]. }
  split_and!.
  - done.
  - eexists. split; [exact Hc|]. split; vm_compute; reflexivity.
  - intros [st' Hc']. by destruct (converges_inj _ _ _ _ _ _ Hc Hc') as [_ ?].
Qed.

(** C8 does not hold as stated: with two observers of [extract:start] under
    the default options, the second one is started, and finishes, while the
    first one is suspended in the middle of its work. *)
Lemma second_handler_starts_before_first_completes :
  eventOptions observed !! "extract:start" = Some {| async := Some false; catchErrors := Some true |} /\
  exists st',
    converges (fun f => emit f "extract:start" None None) observed st' (Ok tt) /\
    trace st' =
      [ObsEmit "extract:start" None None;
       ObsHandlerStart 1 "extract:start"; ObsAct 1 "first half";
       ObsHandlerStart 2 "extract:start"; ObsAct 2 "noted"; ObsHandlerEnd 2 "extract:start";
       ObsAct 1 "second half"; ObsHandlerEnd 1 "extract:start"].
Proof.
  split; [vm_compute; reflexivity|].
  exists (state_of (emit 10 "extract:start" None None observed) fresh).
  split; [|vm_compute; reflexivity].
  apply (converges_of _ 10%nat); [apply steady_emit | vm_compute; reflexivity].
Qed.

(** C9 does not hold as stated: an observer of [rateLimit] registered with
    [catchErrors: false] fails, its failure leaves [emit], but the retry
    controller catches it like a failed attempt, finds "network" in its
    message, retries, and [extract] returns the rows. *)
Lemma failing_observer_does_not_fail_extract :
  eventOptions strict_rate_limit !! "rateLimit"
    = Some {| async := Some false; catchErrors := Some false |} /\
  (exists st',
     converges (fun f => emit f "rateLimit" (Some (PayloadRetry 0)) None) strict_rate_limit st'
               (Raise (ThrownError (newError "network logger is down")))) /\
  exists st',
    converges (fun f => extract demo_cfg busy_once_world f demo_request) strict_rate_limit st'
              (Ok [[("title", "Test Title")]]) /\
    emissions (trace st') =
      ["extract:start"; "rateLimit"; "request:error"; "request:retry"; "extract:complete"].
Proof.
  split; [vm_compute; reflexivity|]. split.
  - exists (state_of (emit 10 "rateLimit" (Some (PayloadRetry 0)) None strict_rate_limit) fresh).
    apply (converges_of _ 10%nat); [apply steady_emit | vm_compute; reflexivity].
  - exists (state_of (extract demo_cfg busy_once_world 10 demo_request strict_rate_limit) fresh).
    split; [|vm_compute; reflexivity].
    apply (converges_of _ 10%nat); [apply steady_extract | vm_compute; reflexivity].
Qed.

(** ** The event bus *)

Lemma set_add_self h hs : hid h ∈ hid <$> set_add h hs.
Proof.
  unfold set_add. destruct (existsb _ hs) eqn:E.
  - apply existsb_exists in E as (h' & Hin & Heq). apply Nat.eqb_eq in Heq.
    rewrite <- Heq. apply list_elem_of_fmap_2. by apply list_elem_of_In.
  - rewrite fmap_app. apply elem_of_app. right. by apply list_elem_of_singleton.
Qed.



(** C8, as the code has it: under synchronous delivery an emission starts
    every registered handler of the type in registration order and returns
    only when each of them has finished: it has returned, or it has failed
    and its failure has been emitted as [handler:error].  This holds when
    the failures of the handlers are caught ([catchErrors], the default) or
    the handlers do not fail, the handlers of [handler:error] not failing
    themselves.  When no handler fails at all, nothing the emission started
    is left running.  (The handlers take turns: one that suspends lets the
    handlers registered after it start.) *)
Theorem emission_awaits_all_started_handlers ty d err st hs :
  announces_quietly st -> Forall sound_task (background st) ->
  eventHandlers st !! ty = Some hs ->
  truthy (async (delivery st ty)) = false ->
  truthy (catchErrors (delivery st ty)) = true \/
    Forall (fun h => failure (hrun h (event_of st ty d err)) = None) hs ->
  exists st' os,
    converges (fun f => emit f ty d err) st st' (Ok tt) /\
    trace st' = trace st ++ ObsEmit ty d err :: os /\
    (ty <> "handler:error" \/ quiet st -> started ty os = hid <$> hs) /\
    (forall h, h ∈ hs ->
       match failure (hrun h (event_of st ty d err)) with
       | None => ObsHandlerEnd (hid h) ty ∈ os
       | Some t => ObsEmit "handler:error" None (Some t) ∈ os
       end) /\
    (quiet st ->
     forall t', t' ∈ background st' -> exists t, t ∈ background st /\ task_key t' = task_key t).
Proof.
  intros Ha Hbg Hhs Hsync Hsafe.
  destruct (emit_sync_full ty d err st hs Ha Hbg Hhs Hsync Hsafe) as (st' & os & Hc & Hext & Hdone).
  pose proof (ext_trace _ _ _ Hext) as Htrace.
  assert (quiet st ->
          started ty os = hid <$> hs /\
          forall t', t' ∈ background st' ->
                     exists t, t ∈ background st /\ task_key t' = task_key t) as Hquiet.
  { intros Hq.
    destruct (emit_quiet_full ty d err st Hq) as (s1 & os1 & Hc1 & Hext1 & _ & _ & Hst & Hall).
    destruct (converges_inj _ _ _ _ _ _ Hc Hc1) as [-> _].
    rewrite (ext_trace _ _ _ Hext1) in Htrace. apply app_inv_head in Htrace.
    injection Htrace as ->. rewrite Hhs in Hst. split; [done|]. by apply Hall. }
  exists st', os. split_and!; [done | done | | done | apply Hquiet].
  intros [Hty | Hq]; [|by apply Hquiet].
  destruct Hc as [f Hf]. destruct (emit_started f ty d err st st' (Ok tt) Hty (Hf f (Nat.le_refl f)))
    as (os' & Htrace' & Hst).
  rewrite Htrace in Htrace'. apply app_inv_head in Htrace'. injection Htrace' as ->.
  by rewrite Hst, Hhs.
Qed.

(** C9, as the code has it: when a handler of a synchronously delivered
    type fails during an emission, then with [catchErrors] the emission
    still returns normally and the failure has been emitted as a
    [handler:error] event; without [catchErrors] the emission itself raises
    the failure of a failing handler of the type.  (Whether the failure also
    leaves the operation that emitted depends on where that operation
    emits.) *)
Theorem handler_failure_is_announced_or_raised ty d err st hs h t :
  announces_quietly st -> Forall sound_task (background st) ->
  eventHandlers st !! ty = Some hs ->
  truthy (async (delivery st ty)) = false ->
  h ∈ hs -> failure (hrun h (event_of st ty d err)) = Some t ->
  if truthy (catchErrors (delivery st ty)) then
    exists st' os,
      converges (fun f => emit f ty d err) st st' (Ok tt) /\
      trace st' = trace st ++ os /\
      ObsEmit "handler:error" None (Some t) ∈ os
  else
    exists st' t',
      converges (fun f => emit f ty d err) st st' (Raise t') /\
      t' ∈ omap (fun h' => failure (hrun h' (event_of st ty d err))) hs.
Proof.
  intros Ha Hbg Hhs Hsync Hh Hfail.
  set (o := ObsEmit ty d err). set (st0 := log o st).
  set (c := truthy (catchErrors (delivery st ty))).
  set (ev := event_of st ty d err) in *.
  set (cs := (fun h' => TRun (hid h') ty c (hrun h' ev)) <$> hs).
  destruct (weights_bounded (announce_bound st) cs) as [N HN].
  pose proof (weights_relax _ _ _ HN) as HN'.
  assert (Forall (fun h' => (weight (announce_bound st0) (TRun (hid h') ty c (hrun h' ev)) < S N)%nat)
                 hs) as Hw0.
  { pose proof HN' as HN''. unfold cs in HN''. by apply Forall_fmap in HN''. }
  destruct (starts_sound 0 ty c ev N hs st0) as (st1 & rs & os1 & Hrs & Hext1 & Hos1 & Hg1 & Hall);
    [by apply (announces_quietly_frame st) | done |].
  change (announce_bound st0) with (announce_bound st) in Hall.
  assert (spawn 2 ty d err st =
            let '(r, orphans) := join rs in Some (detach orphans st1, r)) as Hspawn.
  { rewrite spawn_eq. cbv zeta. fold o st0.
    change (eventHandlers st0) with (eventHandlers st). rewrite Hhs.
    destruct hs as [|h0 hs0]; [by apply elem_of_nil in Hh|].
    change (eventOptions st0) with (eventOptions st). fold (delivery st ty). fold c.
    change (now st0) with (now st). fold (event_of st ty d err). fold ev.
    rewrite Hrs. by rewrite Hsync. }
  assert (extends st st1 (o :: os1)) as Hext.
  { change (o :: os1) with ([o] ++ os1). eapply extends_trans; [apply extends_log | done]. }
  assert (Forall sound_task (background st1)) as Hbg1 by (by apply (grows_sound N st0)).
  assert (Forall2 (stepped_within (announce_bound st) (o :: os1)) cs rs) as Hall'.
  { apply Forall2_fmap_l. eapply Forall2_impl; [exact Hall|]. intros h' r'.
    apply stepped_within_mono. intros x Hx. apply elem_of_cons. by right. }
  assert (TRun (hid h) ty c (hrun h ev) ∈ cs) as Hin
    by (by apply (list_elem_of_fmap_2 (fun h' => TRun (hid h') ty c (hrun h' ev)))).
  assert (announces_quietly (detach [] st1)) as Ha1
    by (apply (announces_quietly_frame st); [apply (ext_handlers _ _ _ Hext) | done]).
  assert (announce_bound (detach [] st1) = announce_bound st) as HB1
    by (apply announce_bound_frame; [apply (ext_handlers _ _ _ Hext) | apply (ext_now _ _ _ Hext)]).
  assert (Forall sound_task (background (detach [] st1))) as Hbg1'
    by (simpl; by rewrite app_nil_r).
  destruct (round_weights _ _ _ _ N Hall' HN') as [Hsound Hwt].
  destruct c eqn:Ec.
  - destruct (round_harmless _ _ _ _ Hall') as (Hno & Hharm & Htrack).
    { apply Forall_fmap, Forall_forall. intros h' _. by left. }
    unfold join in Hspawn. rewrite Hno in Hspawn.
    specialize (Htrack t (ex_intro _ _ (conj Hin Hfail))).
    destruct (stills rs) as [|s ss] eqn:Es.
    + exists (detach [] st1), (o :: os1). split_and!.
      * apply (converges_of _ 2%nat); [apply steady_emit|]. unfold emit. by rewrite Hspawn.
      * apply (ext_trace st). apply extends_nil_r.
        eapply extends_trans; [done | apply extends_detach].
      * destruct Htrack as [? | (task' & Hin' & _)]; [done | by apply elem_of_nil in Hin'].
    + destruct (await_harmless N (s :: ss) (detach [] st1))
        as (f & st' & os2 & Haw & Hext2 & _ & _ & Hann);
        [done | done | done | done | by rewrite HB1 |].
      exists st', ((o :: os1) ++ os2). split_and!.
      * apply (converges_of _ (Nat.max f 2)); [apply steady_emit|]. unfold emit.
        rewrite (spawn_mono 2 (Nat.max f 2) ty d err st _ ltac:(lia) Hspawn).
        apply (await_mono f); [lia | done].
      * apply (ext_trace st). eapply extends_trans; [|done].
        apply extends_nil_r. eapply extends_trans; [done | apply extends_detach].
      * apply elem_of_app. destruct Htrack as [? | Hstill]; [by left|]. right. by apply Hann.
  - destruct (round_raising _ _ _ _ N Hall') as (Hraise & _ & _ & Hrej & Hsame & Hkeep);
      [by apply Forall_fmap, Forall_forall | done |].
    assert (forall task t', task ∈ cs -> task_failure task = Some t' ->
              t' ∈ omap (fun h' => failure (hrun h' ev)) hs) as Hfrom.
    { intros task t' Htask Hf. apply list_elem_of_fmap in Htask as (h' & -> & Hh').
      apply list_elem_of_omap. by exists h'. }
    unfold join in Hspawn.
    destruct (first_rejection rs) as [t'|] eqn:Hfirst.
    + exists (detach (stills rs) st1), t'. split.
      * apply (converges_of _ 2%nat); [apply steady_emit|]. unfold emit. by rewrite Hspawn.
      * destruct (Hrej t' eq_refl) as (task & Htask & Hf). by apply (Hfrom task).
    + destruct (Hkeep eq_refl _ t Hin Hfail) as (task1 & Hin1 & Hf1).
      assert (spawn 2 ty d err st = Some (detach [] st1, Still (TWait (stills rs)))) as Hspawn'.
      { rewrite Hspawn. destruct (stills rs); [by apply elem_of_nil in Hin1 | done]. }
      destruct (await_raising N (stills rs) (detach [] st1)) as (f & st' & t' & Haw & task2 & Hin2 & Hf2);
        [done | done | done | done | by rewrite HB1 | by exists task1, t |].
      exists st', t'. split.
      * apply (converges_of _ (Nat.max f 2)); [apply steady_emit|]. unfold emit.
        rewrite (spawn_mono 2 (Nat.max f 2) ty d err st _ ltac:(lia) Hspawn').
        apply (await_mono f); [lia | done].
      * destruct (Hsame task2 Hin2) as (task3 & Hin3 & Hf3).
        apply (Hfrom task3); [done | congruence].
Qed.

(** ** Registering and removing handlers *)

Lemma set_add_present h hs :
  hid h ∈ hid <$> hs -> set_add h hs = hs.
Proof.
  intros Hin. unfold set_add.
  destruct (existsb _ hs) eqn:E; [done|].
  apply list_elem_of_fmap in Hin as (h' & Heq & Hin').
  assert (existsb (fun h'0 => Nat.eqb (hid h'0) (hid h)) hs = true); [|congruence].
  apply existsb_exists. exists h'. split; [by apply list_elem_of_In|].
  apply Nat.eqb_eq. done.
Qed.

Lemma set_delete_absent h hs :
  hid h ∉ hid <$> hs -> set_delete h hs = hs.
Proof.
  intros Hn. unfold set_delete. induction hs as [|h' hs IH]; [done|]. simpl.
  rewrite fmap_cons in Hn. apply not_elem_of_cons in Hn as [Hne Hn].
  destruct (Nat.eqb_spec (hid h') (hid h)) as [Heq | _]; [congruence|]. simpl.
  by rewrite IH.
Qed.

Lemma set_delete_gone h hs : hid h ∉ hid <$> set_delete h hs.
Proof.
  intros Hin. apply list_elem_of_fmap in Hin as (h' & Heq & Hin').
  unfold set_delete in Hin'. apply list_elem_of_In, List.filter_In in Hin' as [_ Hne].
  apply negb_true_iff, Nat.eqb_neq in Hne. congruence.
Qed.

Lemma state_eta st :
  {| eventHandlers := eventHandlers st; eventOptions := eventOptions st;
     lastRequestTime := lastRequestTime st; now := now st;
     fetchCalls := fetchCalls st; background := background st;
     trace := trace st |} = st.
Proof. by destruct st. Qed.

(** X1: registering a handler that is already registered for the type does
    not register it a second time ([Set.add]); the options of the type are
    those of the last call. *)
Theorem on_twice_registers_once ty h o1 o2 st :
  on ty h o2 (on ty h o1 st) = on ty h o2 st.
Proof.
  unfold on. simpl. rewrite !lookup_insert_eq, !insert_insert_eq. simpl.
  rewrite (set_add_present h (set_add h _)) by apply set_add_self. done.
Qed.

(** X2: [off] for a handler that is not registered for the type, or for a
    type that has no handlers, changes nothing. *)
Theorem off_of_unregistered_handler_changes_nothing ty h st :
  hid h ∉ hid <$> default [] (eventHandlers st !! ty) -> off ty h st = st.
Proof.
  intros Hn. unfold off. destruct (eventHandlers st !! ty) as [hs|] eqn:E; simpl in Hn.
  - rewrite set_delete_absent by done. rewrite insert_id by done. apply state_eta.
  - apply state_eta.
Qed.

Lemma quiet_off ty h st : quiet st -> quiet (off ty h st).
Proof.
  intros [Hreg Hbg]. split; [|done]. intros ty' hs'. simpl.
  destruct (eventHandlers st !! ty) as [hs|] eqn:E; [|apply Hreg].
  destruct (decide (ty = ty')) as [<- | Hne].
  - rewrite lookup_insert_eq. intros [= <-]. unfold set_delete.
    specialize (Hreg _ _ E). apply Forall_forall. intros x Hx.
    apply list_elem_of_In, List.filter_In in Hx as [Hx _].
    eapply Forall_forall in Hreg; [exact Hreg|]. by apply list_elem_of_In.
  - rewrite lookup_insert_ne by done. apply Hreg.
Qed.

(** X3: after [off] an emission of the type starts the handlers that
    remain, in registration order, and never the removed one (for handlers
    that do not fail). *)
Theorem removed_handler_is_never_started ty h d err st :
  quiet st ->
  exists st' os,
    converges (fun f => emit f ty d err) (off ty h st) st' (Ok tt) /\
    trace st' = trace st ++ ObsEmit ty d err :: os /\
    started ty os = hid <$> set_delete h (default [] (eventHandlers st !! ty)) /\
    hid h ∉ started ty os.
Proof.
  intros Hq.
  destruct (emit_quiet_full ty d err (off ty h st) (quiet_off ty h st Hq))
    as (st' & os & Hc & Hext & _ & _ & Hst & _).
  assert (default [] (eventHandlers (off ty h st) !! ty)
          = set_delete h (default [] (eventHandlers st !! ty))) as Hhs.
  { simpl. destruct (eventHandlers st !! ty) as [hs|] eqn:E.
    - by rewrite lookup_insert_eq.
    - by rewrite E. }
  rewrite Hhs in Hst.
  exists st', os. split_and!; [done | apply (ext_trace _ _ _ Hext) | done |].
  rewrite Hst. apply set_delete_gone.
Qed.

Lemma emit_without_handlers f ty d err st :
  default [] (eventHandlers st !! ty) = [] ->
  emit (S f) ty d err st = Some (log (ObsEmit ty d err) st, Ok tt).
Proof.
  intros Hn. unfold emit. rewrite spawn_eq. cbv zeta.
  change (eventHandlers (log (ObsEmit ty d err) st)) with (eventHandlers st).
  destruct (eventHandlers st !! ty) as [[|h hs]|]; try done.
Qed.

(** X4: once the listeners of a type have been removed, an emission of the
    type returns at once and runs nothing; after [removeAllListeners()], and
    after [removeAllListeners("")] (the empty type is falsy), that holds for
    every type. *)
Theorem removed_listeners_are_not_run f ty ty' d err st :
  emit (S f) ty d err (removeAllListeners (Some ty) st)
    = Some (log (ObsEmit ty d err) (removeAllListeners (Some ty) st), Ok tt) /\
  emit (S f) ty' d err (removeAllListeners None st)
    = Some (log (ObsEmit ty' d err) (removeAllListeners None st), Ok tt) /\
  emit (S f) ty' d err (removeAllListeners (Some "") st)
    = Some (log (ObsEmit ty' d err) (removeAllListeners (Some "") st), Ok tt).
Proof.
  split_and!; apply emit_without_handlers; simpl.
  - destruct (truthy_string ty); [by rewrite lookup_delete_eq | by rewrite lookup_empty].
  - by rewrite lookup_empty.
  - by rewrite lookup_empty.
Qed.

Lemma quiet_removeAllListeners ty st : quiet st -> quiet (removeAllListeners ty st).
Proof.
  intros [Hreg Hbg]. split; [|done]. intros ty' hs'. simpl.
  destruct ty as [ty|]; [destruct (truthy_string ty)|].
  - destruct (decide (ty = ty')) as [<- | Hne].
    + by rewrite lookup_delete_eq.
    + rewrite lookup_delete_ne by done. apply Hreg.
  - by rewrite lookup_empty.
  - by rewrite lookup_empty.
Qed.

(** X5: removing the listeners of one (non-empty) type leaves the other
    types alone: an emission of another type still starts all its handlers,
    in registration order (for handlers that do not fail). *)
Theorem other_types_keep_their_listeners ty ty' d err st :
  quiet st -> ty <> "" -> ty' <> ty ->
  exists st' os,
    converges (fun f => emit f ty' d err) (removeAllListeners (Some ty) st) st' (Ok tt) /\
    trace st' = trace st ++ ObsEmit ty' d err :: os /\
    started ty' os = hid <$> default [] (eventHandlers st !! ty').
Proof.
  intros Hq Hty Hne.
  destruct (emit_quiet_full ty' d err _ (quiet_removeAllListeners (Some ty) st Hq))
    as (st' & os & Hc & Hext & _ & _ & Hst & _).
  exists st', os. split_and!; [done | apply (ext_trace _ _ _ Hext) |].
  rewrite Hst. simpl. unfold truthy_string.
  destruct (String.eqb_spec ty ""); [done|]. simpl. by rewrite lookup_delete_ne.
Qed.

(** X6: under asynchronous delivery an emission starts every handler of
    the type, in registration order, and returns normally whether or not a
    handler fails and whether or not [catchErrors] is set: the failure of a
    handler never reaches the caller of [emit]. *)
Theorem async_emission_never_fails ty d err st :
  announces_quietly st -> Forall sound_task (background st) ->
  truthy (async (delivery st ty)) = true -> ty <> "handler:error" ->
  exists st' os,
    converges (fun f => emit f ty d err) st st' (Ok tt) /\
    trace st' = trace st ++ ObsEmit ty d err :: os /\
    started ty os = hid <$> default [] (eventHandlers st !! ty).
Proof.
  intros Ha Hbg Hasync Hty.
  destruct (emit_async_full ty d err st Ha Hbg Hasync) as (st' & os & Hc & Hext).
  pose proof (ext_trace _ _ _ Hext) as Htrace.
  exists st', os. split_and!; [done | done |].
  destruct Hc as [f Hf]. destruct (emit_started f ty d err st st' (Ok tt) Hty (Hf f (Nat.le_refl f)))
    as (os' & Htrace' & Hst).
  rewrite Htrace in Htrace'. apply app_inv_head in Htrace'. by injection Htrace' as ->.
Qed.

Lemma resume_sync E h ty c p st :
  settles p = true -> yields p = 0%nat ->
  resume E h ty c p st = Some (log (ObsHandlerEnd h ty) (logs (run_prog h p).1 st), Finished).
Proof.
  intros Hs Hy. destruct (run_prog_quiet h p Hs) as [_ [He | (k' & He & _ & Hlt)]]; [|lia].
  unfold resume. destruct (run_prog h p) as [os e]. simpl in *. by subst e.
Qed.

Lemma starts_sync E ty c ev hs : forall st,
  Forall (fun h => settles (hrun h ev) = true /\ yields (hrun h ev) = 0%nat) hs ->
  exists st1 rs,
    run_all (fun handler st' =>
               resume E (hid handler) ty c (hrun handler ev)
                      (log (ObsHandlerStart (hid handler) ty) st')) hs st
      = Some (st1, rs) /\
    extends st st1 (concat (handler_run ty ev <$> hs)) /\
    first_rejection rs = None /\ stills rs = [].
Proof.
  induction hs as [|h hs IH]; intros st Hall.
  - exists st, []. split_and!; try done. apply extends_refl.
  - apply Forall_cons in Hall as [[Hs Hy] Hall].
    set (sa := log (ObsHandlerEnd (hid h) ty)
                 (logs (run_prog (hid h) (hrun h ev)).1 (log (ObsHandlerStart (hid h) ty) st))).
    destruct (IH sa Hall) as (st1 & rs & Hrs & Hext & Hno & Hst).
    exists st1, (Finished :: rs). split_and!; try done.
    + cbn [run_all]. rewrite resume_sync by done. fold sa. by rewrite Hrs.
    + rewrite fmap_cons. simpl.
      apply (extends_trans st sa st1 (handler_run ty ev h) _); [|exact Hext].
      apply (extends_trans st (log (ObsHandlerStart (hid h) ty) st) sa
               [ObsHandlerStart (hid h) ty] _); [apply extends_log|].
      eapply extends_trans; [apply extends_logs | apply extends_log].
Qed.

(** X23: when nothing is pending behind the main flow, handlers that do not
    suspend and do not fail are run one after the other in the order of
    their registration, each to its end before the next one starts, and each
    on the same event: the type, the instant of the emission, and the data
    and the error handed to [emit]; the [retryCount] field of the event is
    not set.  The emission then returns. *)
Theorem synchronous_handlers_run_in_order f ty d err st hs :
  background st = [] ->
  eventHandlers st !! ty = Some hs ->
  Forall (fun h => settles (hrun h (event_of st ty d err)) = true /\
                   yields (hrun h (event_of st ty d err)) = 0%nat) hs ->
  exists st',
    emit (S f) ty d err st = Some (st', Ok tt) /\
    trace st' = trace st ++ ObsEmit ty d err
                  :: concat (handler_run ty {| type := ty; timestamp := now st; data := d;
                                               error := err; retryCount := None |} <$> hs).
Proof.
  intros _ Hhs Hall.
  set (o := ObsEmit ty d err). set (st0 := log o st).
  destruct hs as [|h0 hs0].
  { exists st0. split; [|done]. unfold emit. rewrite spawn_eq. cbv zeta. fold o st0.
    change (eventHandlers st0) with (eventHandlers st). by rewrite Hhs. }
  set (hs := h0 :: hs0) in *.
  set (c := truthy (catchErrors (delivery st ty))).
  set (ev := event_of st ty d err) in *.
  destruct (starts_sync (spawn f) ty c ev hs st0 Hall) as (st1 & rs & Hrs & Hext & Hno & Hst).
  assert (spawn (S f) ty d err st =
            if truthy (async (delivery st ty)) then Some (detach (stills rs) st1, Finished)
            else let '(r, orphans) := join rs in Some (detach orphans st1, r)) as Hspawn.
  { subst hs. rewrite spawn_eq. cbv zeta. fold o st0.
    change (eventHandlers st0) with (eventHandlers st). rewrite Hhs.
    change (eventOptions st0) with (eventOptions st). fold (delivery st ty). fold c.
    change (now st0) with (now st). fold (event_of st ty d err). fold ev.
    by rewrite Hrs. }
  unfold join in Hspawn. rewrite Hno, Hst in Hspawn.
  exists (detach [] st1). split.
  - unfold emit. rewrite Hspawn. by destruct (truthy (async (delivery st ty))).
  - simpl. rewrite (ext_trace _ _ _ Hext). simpl. by rewrite <- app_assoc.
Qed.

(** ** The timing of an attempt *)

Section ClientTiming.

Variable cfg : Config.
Variable world : World.

(** X7: in one flow of calls (the calls of [extract] do not overlap, and
    the clock does not run backwards) the rate limiter lets an attempt
    start no earlier than [minRequestInterval] after the instant it recorded
    for the previous one, waits no longer than that takes, and records the
    instant at which it lets the attempt start. *)
Theorem rate_limiter_spaces_attempts st :
  isolated st -> lastRequestTime st <= now st ->
  exists st' os,
    converges enforceRateLimit st st' (Ok tt) /\
    trace st' = trace st ++ os /\ fetches os = 0%nat /\
    now st' = Z.max (now st) (lastRequestTime st + minRequestInterval) /\
    lastRequestTime st' = now st'.
Proof.
  intros Hi Hle.
  destruct (enforceRateLimit_isolated st Hi) as (st' & os & Hc & _ & Hrun & Hm & Hnow & Hlast).
  exists st', os. split_and!; [done | apply (run_trace _ _ _ Hrun) | | | congruence].
  - by rewrite <- fetches_milestones, Hm.
  - rewrite Hnow. by apply gate_time_after.
Qed.

(** X8: an attempt made through [fetchWithTimeout] is over when its timer
    has fired at the latest, whatever the network does, and it calls the
    transport exactly once.  For a timeout of at least 1 ms (the one of the
    call, or else the one of the client) the attempt ends no later than
    [timeout] ms after it started; the timer fires after 1 ms when the
    timeout is below 1 or above 2^31 - 1. *)
Theorem attempt_ends_by_its_deadline target options st :
  isolated st ->
  exists st' r os,
    converges (fun f => fetchWithTimeout cfg world f target options) st st' r /\
    trace st' = trace st ++ os /\
    fetches os = 1%nat /\ fetchCalls st' = S (fetchCalls st) /\
    now st <= now st' <= now st + timer_delay (default (timeout cfg) (init_timeout options)) /\
    (1 <= default (timeout cfg) (init_timeout options) ->
     now st' <= now st + default (timeout cfg) (init_timeout options)).
Proof.
  intros Hi.
  destruct (fetchWithTimeout_isolated cfg world target options st Hi)
    as (st' & os & Hc & Hi' & Hrun & Hm & _).
  exists st', (attempt cfg world options (now st) (fetchCalls st)), os.
  assert (fetches os = 1%nat) as Hf by (by rewrite <- fetches_milestones, Hm).
  assert (now st <= now st' /\
          now st' <= now st + timer_delay (default (timeout cfg) (init_timeout options))) as [Hlo Hhi].
  { destruct (drain_isolated (count_fetch (log (ObsFetch (fetchCalls st) (now st) target
                                                     (body options)) st)))
      as (f & s1 & os1 & Hd & Hext & _ & _); [by apply (isolated_frame st)|].
    set (tm := default (timeout cfg) (init_timeout options)).
    set (abortAt := fst (controller (now st) tm (init_signal options))).
    destruct (fetch (transport world (fetchCalls st)) (now st) abortAt) as [settled outcome] eqn:Ef.
    assert (converges (fun f => fetchWithTimeout cfg world f target options) st (set_now settled s1)
              (fetchWithTimeout_catch outcome)) as Hc'.
    { apply (converges_of _ f); [apply steady_fetchWithTimeout|].
      unfold fetchWithTimeout. fold tm abortAt. rewrite Hd, Ef. done. }
    destruct (converges_inj _ _ _ _ _ _ Hc Hc') as [-> _]. simpl.
    assert (now st <= abortAt <= now st + timer_delay tm) as Hab.
    { pose proof (timer_delay_pos tm).
      unfold abortAt, controller. destruct (init_signal options) as [s|]; simpl; [|lia].
      destruct ((now st <? s) && (s <? now st + timer_delay tm)) eqn:Es; simpl; [|lia].
      apply andb_true_iff in Es as [H1 H2]. apply Z.ltb_lt in H1, H2. lia. }
    unfold fetch in Ef.
    destruct (transport world (fetchCalls st)) as [latency r | latency t |].
    - destruct (now st + Z.max 0 latency <? abortAt) eqn:El; injection Ef as <- <-; [|lia].
      apply Z.ltb_lt in El. lia.
    - destruct (now st + Z.max 0 latency <? abortAt) eqn:El; injection Ef as <- <-; [|lia].
      apply Z.ltb_lt in El. lia.
    - injection Ef as <- <-. lia. }
  split_and!; [done | apply (run_trace _ _ _ Hrun) | done | | done | done |].
  - rewrite (run_fetch _ _ _ Hrun), Hf. lia.
  - intros Hge. pose proof (timer_delay_in_range (default (timeout cfg) (init_timeout options))).
    unfold timer_delay in *.
    destruct ((1 <=? default (timeout cfg) (init_timeout options)) &&
              (default (timeout cfg) (init_timeout options) <=? TIMEOUT_MAX)); lia.
Qed.

(** X9: a response that arrives before the deadline, and not after the
    caller has cancelled the attempt, is returned as it is, whatever its
    status; the attempt then takes exactly the time the network took. *)
Theorem response_in_time_is_returned_unchanged target options st latency r :
  isolated st ->
  transport world (fetchCalls st) = Responds latency r ->
  Z.max 0 latency < timer_delay (default (timeout cfg) (init_timeout options)) ->
  (forall s, init_signal options = Some s -> s <= now st \/ now st + Z.max 0 latency < s) ->
  exists st' os,
    converges (fun f => fetchWithTimeout cfg world f target options) st st' (Ok r) /\
    trace st' = trace st ++ os /\
    now st' = now st + Z.max 0 latency.
Proof.
  intros Hi Htr Hl Hsig.
  destruct (drain_isolated (count_fetch (log (ObsFetch (fetchCalls st) (now st) target
                                                   (body options)) st)))
    as (f & s1 & os1 & Hd & Hext & _ & _); [by apply (isolated_frame st)|].
  set (tm := default (timeout cfg) (init_timeout options)) in *.
  set (abortAt := fst (controller (now st) tm (init_signal options))).
  assert (now st + Z.max 0 latency < abortAt) as Hab.
  { unfold abortAt, controller. destruct (init_signal options) as [s|]; simpl; [|lia].
    destruct ((now st <? s) && (s <? now st + timer_delay tm)) eqn:Es; simpl; [|lia].
    apply andb_true_iff in Es as [H1 H2]. apply Z.ltb_lt in H1, H2.
    destruct (Hsig s eq_refl); lia. }
  exists (set_now (now st + Z.max 0 latency) s1),
         (ObsFetch (fetchCalls st) (now st) target (body options) :: os1).
  split_and!; [| | done].
  - apply (converges_of _ f); [apply steady_fetchWithTimeout|].
    unfold fetchWithTimeout. fold tm abortAt. rewrite Hd, Htr. simpl.
    apply Z.ltb_lt in Hab. by rewrite Hab.
  - simpl. rewrite (ext_trace _ _ _ Hext). simpl. by rewrite <- app_assoc.
Qed.

End ClientTiming.

(** ** The outcomes of a call *)

Lemma sends_milestones target b os :
  Forall (sends target b) (milestones os) -> Forall (sends target b) os.
Proof.
  induction os as [|o os IH]; [done|]. intros H.
  destruct o; try (constructor; [done | by apply IH]).
  - constructor; [done|]. apply IH. unfold milestones in *. simpl in H.
    destruct (negb _); [by apply Forall_cons in H as [_ H] | done].
  - unfold milestones in H. simpl in H. apply Forall_cons in H as [H1 H2].
    constructor; [done | by apply IH].
  - unfold milestones in H. simpl in H. apply Forall_cons in H as [H1 H2].
    constructor; [done | by apply IH].
Qed.

(** The counts of a stretch of a run whose milestones are known. *)
Ltac counted Hms :=
  first [ rewrite <- fetches_milestones, Hms; done
        | rewrite <- backoffs_milestones, Hms; done
        | rewrite <- emitted_milestones, Hms by done; done ].

Ltac tally os Hm :=
  let Hf := fresh "Hf" in
  let Hb := fresh "Hb" in
  let Hr := fresh "Hretry" in
  let Hl := fresh "Hlimit" in
  let Ht := fresh "Htimeout" in
  let Hs := fresh "Hstart" in
  let Hc := fresh "Hcomplete" in
  let He := fresh "Herror" in
  eassert (fetches os = _) as Hf
    by (rewrite <- fetches_milestones, Hm; vm_compute; reflexivity);
  eassert (length (backoffs os) = _) as Hb
    by (rewrite <- backoffs_milestones, Hm; vm_compute; reflexivity);
  eassert (emitted "request:retry" os = _) as Hr
    by (rewrite <- emitted_milestones, Hm by done; vm_compute; reflexivity);
  eassert (emitted "rateLimit" os = _) as Hl
    by (rewrite <- emitted_milestones, Hm by done; vm_compute; reflexivity);
  eassert (emitted "timeout" os = _) as Ht
    by (rewrite <- emitted_milestones, Hm by done; vm_compute; reflexivity);
  eassert (emitted "extract:start" os = _) as Hs
    by (rewrite <- emitted_milestones, Hm by done; vm_compute; reflexivity);
  eassert (emitted "extract:complete" os = _) as Hc
    by (rewrite <- emitted_milestones, Hm by done; vm_compute; reflexivity);
  eassert (emitted "extract:error" os = _) as He
    by (rewrite <- emitted_milestones, Hm by done; vm_compute; reflexivity).

Ltac tallied :=
  rewrite ?fetches_app, ?emitted_app, ?backoffs_app, ?length_app; lia.

Ltac posted Hm :=
  apply sends_milestones; rewrite Hm; by repeat constructor.

(** [extract] begins with [extract:start]. *)
Lemma extract_starts o st :
  isolated st ->
  exists s0 os0,
    converges (fun f => emit f "extract:start" (Some (PayloadExtract o)) None) st s0 (Ok tt) /\
    isolated s0 /\ run_of st s0 os0 /\
    milestones os0 = [ObsEmit "extract:start" (Some (PayloadExtract o)) None] /\
    fetchCalls s0 = fetchCalls st.
Proof.
  intros Hi.
  destruct (emit_isolated "extract:start" (Some (PayloadExtract o)) None st Hi ltac:(done))
    as (s0 & os0 & Hc0 & Hi0 & Hr0 & Hm0).
  exists s0, os0. split_and!; try done. by eapply same_calls_after_emit.
Qed.

Lemma reraised_extract_failure t : extract_failure (reraised t).
Proof.
  destruct t as [e | v]; simpl; [|right; right; reflexivity].
  destruct (String.eqb_spec (message e) "Request timed out") as [Heq | Hne]; simpl.
  - right. by left.
  - right. right. simpl. by destruct (message e).
Qed.

Lemma http_error_message_is_wrapped r payload :
  reraised (ThrownError (newError (http_error_message r payload)))
  = ThrownError (newError ("Failed to extract data: " +:+ http_error_message r payload)).
Proof.
  unfold reraised, http_error_message. simpl.
  destruct (status r =? 401); [done|]. destruct (status r =? 400); done.
Qed.

Lemma retryable_is_not_timed_out e :
  (includes "network" (message e) || includes "timeout" (message e)
   || includes "ECONNRESET" (message e)) = true ->
  (message e =? "Request timed out")%string = false.
Proof.
  intros Hr. destruct (String.eqb_spec (message e) "Request timed out") as [Heq|]; [|done].
  rewrite Heq in Hr. vm_compute in Hr. done.
Qed.

Lemma waits_shift (g : Z -> Z) rc k :
  g rc :: ((fun i => g (rc + 1 + Z.of_nat i)) <$> seq 0 k)
  = (fun i => g (rc + Z.of_nat i)) <$> seq 0 (S k).
Proof.
  cbn [seq fmap list_fmap]. f_equal; [f_equal; lia|].
  rewrite <- fmap_S_seq, <- list_fmap_compose. apply list_fmap_ext.
  intros i x _. simpl. f_equal. lia.
Qed.

Section ClientOutcomes.

Variable cfg : Config.
Variable world : World.

Lemma attempt_fails_in_time o start n t :
  signal o = None -> fails_in_time cfg (transport world n) t ->
  attempt cfg world (requestInit cfg o) start n = fetchWithTimeout_catch (Raise t).
Proof.
  intros Hs (l & Htr & Hl). unfold attempt. simpl. rewrite Hs, Htr. simpl.
  destruct (_ <? _) eqn:E; [done|]. apply Z.ltb_ge in E. lia.
Qed.

Lemma attempt_end_fails_in_time o start n t :
  signal o = None -> fails_in_time cfg (transport world n) t ->
  attempt_end cfg world (requestInit cfg o) start n = start + latency_of (transport world n).
Proof.
  intros Hs (l & Htr & Hl). unfold attempt_end. simpl. rewrite Hs, Htr. simpl.
  destruct (_ <? _) eqn:E; [done|]. apply Z.ltb_ge in E. lia.
Qed.

Lemma spaced_single rc n t : spaced cfg world rc n [t].
Proof. intros i t1 t2 _ H. by destruct i. Qed.

Lemma spaced_cons rc n t t' ts :
  t' = Z.max (t + latency_of (transport world n) + timer_delay (backoffDelay cfg rc))
             (t + minRequestInterval) ->
  spaced cfg world (rc + 1) (S n) (t' :: ts) -> spaced cfg world rc n (t :: t' :: ts).
Proof.
  intros Ht' Hts [|i] t1 t2 H1 H2; simpl in H1, H2.
  - injection H1 as <-. injection H2 as <-. rewrite Ht'. unfold backoffDelay.
    by rewrite Nat.add_0_r, Z.add_0_r.
  - rewrite (Hts i t1 t2 H1 H2).
    replace (S n + i)%nat with (n + S i)%nat by lia.
    by replace (rc + 1 + Z.of_nat i) with (rc + Z.of_nat (S i)) by lia.
Qed.

(** The instant at which the retry after an attempt starts. *)
Lemma next_attempt_time st st1 rc :
  lastRequestTime st1 = gate_time st ->
  now st1 = gate_time st + latency_of (transport world (fetchCalls st))
            + timer_delay (backoffDelay cfg rc) ->
  gate_time st1 =
    Z.max (gate_time st + latency_of (transport world (fetchCalls st))
           + timer_delay (backoffDelay cfg rc))
          (gate_time st + minRequestInterval).
Proof.
  intros Hl Hn. apply gate_time_after; [done | done |].
  pose proof (latency_of_nonneg (transport world (fetchCalls st))).
  pose proof (timer_delay_pos (backoffDelay cfg rc)). lia.
Qed.

Lemma extract_try_http_error s1 s2 o r payload :
  converges (fun f => retryableRequest cfg f (requestFn cfg world o) 0) s1 s2 (Ok r) ->
  ok r = false -> status r <> 429 -> json r = JsonBody payload ->
  converges (fun f => extract_try cfg world f o) s1 s2
    (Raise (ThrownError (newError (http_error_message r payload)))).
Proof.
  intros Hc Hok Hs Hj. unfold extract_try. eapply converges_bind; [exact Hc|]. cbv beta.
  rewrite Hok. simpl. apply converges_bind_raise.
  unfold handleError, http_error_message. eapply converges_bind.
  { unfold response_json. rewrite Hj. apply converges_ret. }
  cbv beta. apply Z.eqb_neq in Hs. rewrite Hs.
  destruct (status r =? 401); [apply converges_throw|].
  destruct (status r =? 400); apply converges_throw.
Qed.

Lemma extract_try_unparsable s1 s2 o r t :
  converges (fun f => retryableRequest cfg f (requestFn cfg world o) 0) s1 s2 (Ok r) ->
  json r = JsonFailure t ->
  converges (fun f => extract_try cfg world f o) s1 s2 (Raise t).
Proof.
  intros Hc Hj. unfold extract_try. eapply converges_bind; [exact Hc|]. cbv beta.
  destruct (negb (ok r)).
  - apply converges_bind_raise. unfold handleError. apply converges_bind_raise.
    unfold response_json. rewrite Hj. apply converges_throw.
  - eapply converges_bind; [apply converges_ret|]. cbv beta.
    apply converges_bind_raise. unfold response_json. rewrite Hj. apply converges_throw.
Qed.

Lemma extract_try_no_data s1 s2 o r payload :
  converges (fun f => retryableRequest cfg f (requestFn cfg world o) 0) s1 s2 (Ok r) ->
  ok r = true -> json r = JsonBody payload -> default [] (resp_data payload) = [] ->
  converges (fun f => extract_try cfg world f o) s1 s2
    (Raise (ThrownError (newError (or_else (resp_message payload) noDataMessage)))).
Proof.
  intros Hc Hok Hj Hd. unfold extract_try. eapply converges_bind; [exact Hc|]. cbv beta.
  rewrite Hok. eapply converges_bind; [apply converges_ret|]. cbv beta.
  eapply converges_bind; [unfold response_json; rewrite Hj; apply converges_ret|]. cbv beta.
  destruct (resp_data payload) as [[|row rows]|]; [|done|]; apply converges_throw.
Qed.

(** The milestones of a call of [extract] whose [try] block fails. *)
Lemma extract_fails_after o st s0 s1 os0 os1 t ms :
  parses_as_url world (url o) = true ->
  converges (fun f => emit f "extract:start" (Some (PayloadExtract o)) None) st s0 (Ok tt) ->
  run_of st s0 os0 ->
  milestones os0 = [ObsEmit "extract:start" (Some (PayloadExtract o)) None] ->
  isolated s1 -> run_of s0 s1 os1 -> milestones os1 = ms ->
  converges (fun f => extract_try cfg world f o) s0 s1 (Raise t) ->
  exists st' os,
    converges (fun f => extract cfg world f o) st st' (Raise (reraised t)) /\
    trace st' = trace st ++ os /\
    milestones os =
      ObsEmit "extract:start" (Some (PayloadExtract o)) None :: ms ++
      match t with
      | ThrownError _ => [ObsEmit "extract:error" None (Some t)]
      | ThrownValue _ => []
      end.
Proof.
  intros Hurl Hc0 Hr0 Hm0 Hi1 Hr1 Hm1 Hc2.
  destruct (extract_reraises cfg world o st s0 s1 t Hi1 Hurl Hc0 Hc2) as (s2 & os2 & Hc3 & Hi2 & Hr2 & Hm2).
  exists s2, (os0 ++ os1 ++ os2). split_and!; [done | |].
  - eapply run_trace. repeat (eapply run_of_trans; [eassumption|]). done.
  - by rewrite !milestones_app, Hm0, Hm1, Hm2.
Qed.

(** X10: an answer with a success status and rows, received at the first
    attempt: [extract] returns the rows as they are, after [extract:start],
    one call of the transport and [extract:complete], in this order. *)
Theorem first_answer_with_rows_is_returned o st r payload row rows :
  isolated st -> parses_as_url world (url o) = true -> signal o = None ->
  in_time cfg (transport world (fetchCalls st)) r ->
  ok r = true -> json r = JsonBody payload -> resp_data payload = Some (row :: rows) ->
  exists st' os,
    converges (fun f => extract cfg world f o) st st' (Ok (row :: rows)) /\
    trace st' = trace st ++ os /\
    milestones os =
      [ObsEmit "extract:start" (Some (PayloadExtract o)) None;
       ObsFetch (fetchCalls st) (gate_time st) (baseUrl cfg +:+ "/extract") (requestBody cfg o);
       ObsEmit "extract:complete" (Some (PayloadResponse payload)) None] /\
    emitted "extract:error" os = 0%nat /\ emitted "request:error" os = 0%nat.
Proof.
  intros Hi Hurl Hsig Hin Hok Hj Hd.
  destruct (extract_starts o st Hi) as (s0 & os0 & Hc0 & Hi0 & Hr0 & Hm0 & Hn0).
  destruct (emit_isolated_clock _ _ _ _ _ _ Hi Hc0) as [Hnow0 Hlast0].
  pose proof (gate_time_same _ _ Hnow0 Hlast0) as Hg0.
  destruct (retry_step_done cfg world o 0 s0 r Hi0) as (s1 & os1 & Hc1 & Hi1 & Hr1 & Hm1 & _).
  { unfold ok in Hok. apply andb_true_iff in Hok as [_ Hle]. apply Z.leb_le in Hle.
    replace (status r =? 429) with false by (symmetry; apply Z.eqb_neq; lia). done. }
  { apply attempt_in_time; [done | by rewrite Hn0]. }
  destruct (extract_try_success cfg world s0 s1 o r payload row rows Hi1 Hc1 Hok Hj Hd)
    as (s2 & os2 & Hc2 & Hi2 & Hr2 & Hm2).
  assert (milestones (os0 ++ os1 ++ os2) =
      [ObsEmit "extract:start" (Some (PayloadExtract o)) None;
       ObsFetch (fetchCalls st) (gate_time st) (baseUrl cfg +:+ "/extract") (requestBody cfg o);
       ObsEmit "extract:complete" (Some (PayloadResponse payload)) None]) as Hms
    by (by rewrite !milestones_app, Hm0, Hm1, Hm2, Hn0, Hg0).
  exists s2, (os0 ++ os1 ++ os2). split_and!; [by eapply extract_returns | | done | counted Hms ..].
  eapply run_trace. repeat (eapply run_of_trans; [eassumption|]). done.
Qed.

(** X11: an answer with a success status but no rows ([data] missing or
    empty) is a failure: [extract] emits [extract:error] once and never
    [extract:complete], and raises, the way its [catch] clause raises any
    failure, the message of the answer or, when it has none, the fixed
    message about missing data. *)
Theorem answer_without_rows_is_a_failure o st r payload :
  isolated st -> parses_as_url world (url o) = true -> signal o = None ->
  in_time cfg (transport world (fetchCalls st)) r ->
  ok r = true -> json r = JsonBody payload -> default [] (resp_data payload) = [] ->
  exists st' os,
    converges (fun f => extract cfg world f o) st st'
      (Raise (reraised (ThrownError (newError (or_else (resp_message payload) noDataMessage))))) /\
    trace st' = trace st ++ os /\
    fetches os = 1%nat /\
    emitted "extract:error" os = 1%nat /\ emitted "extract:complete" os = 0%nat.
Proof.
  intros Hi Hurl Hsig Hin Hok Hj Hd.
  destruct (extract_starts o st Hi) as (s0 & os0 & Hc0 & Hi0 & Hr0 & Hm0 & Hn0).
  destruct (retry_step_done cfg world o 0 s0 r Hi0) as (s1 & os1 & Hc1 & Hi1 & Hr1 & Hm1 & _).
  { unfold ok in Hok. apply andb_true_iff in Hok as [_ Hle]. apply Z.leb_le in Hle.
    replace (status r =? 429) with false by (symmetry; apply Z.eqb_neq; lia). done. }
  { apply attempt_in_time; [done | by rewrite Hn0]. }
  pose proof (extract_try_no_data s0 s1 o r payload Hc1 Hok Hj Hd) as Hc2.
  destruct (extract_fails_after o st s0 s1 os0 os1 _ _ Hurl Hc0 Hr0 Hm0 Hi1 Hr1 Hm1 Hc2)
    as (st' & os & Hc & Ht & Hms).
  exists st', os. split_and!; [exact Hc | done | counted Hms ..].
Qed.

(** X12: an answer with an error status other than 429 is not retried:
    [extract] makes that one attempt, emits [extract:error] once and never
    [extract:complete], and raises the message [handleError] has for the
    status under the prefix of [extract]. *)
Theorem http_error_is_not_retried o st r payload :
  isolated st -> parses_as_url world (url o) = true -> signal o = None ->
  in_time cfg (transport world (fetchCalls st)) r ->
  ok r = false -> status r <> 429 -> json r = JsonBody payload ->
  exists st' os,
    converges (fun f => extract cfg world f o) st st'
      (Raise (ThrownError (newError
         ("Failed to extract data: " +:+
          (if status r =? 401 then "Invalid Parsera API key. Please check your credentials."
           else if status r =? 400
                then "Bad request: " +:+ or_else (resp_message payload) "Unknown error"
                else "Parsera API error: " +:+ or_else (resp_message payload) (statusText r)))))) /\
    trace st' = trace st ++ os /\
    fetches os = 1%nat /\ emitted "request:retry" os = 0%nat /\ backoffs os = [] /\
    emitted "extract:error" os = 1%nat /\ emitted "extract:complete" os = 0%nat.
Proof.
  intros Hi Hurl Hsig Hin Hok Hs Hj.
  destruct (extract_starts o st Hi) as (s0 & os0 & Hc0 & Hi0 & Hr0 & Hm0 & Hn0).
  destruct (retry_step_done cfg world o 0 s0 r Hi0) as (s1 & os1 & Hc1 & Hi1 & Hr1 & Hm1 & _).
  { replace (status r =? 429) with false; [done|]. symmetry. by apply Z.eqb_neq. }
  { apply attempt_in_time; [done | by rewrite Hn0]. }
  pose proof (extract_try_http_error s0 s1 o r payload Hc1 Hok Hs Hj) as Hc2.
  destruct (extract_fails_after o st s0 s1 os0 os1 _ _ Hurl Hc0 Hr0 Hm0 Hi1 Hr1 Hm1 Hc2)
    as (st' & os & Hc & Ht & Hms).
  rewrite http_error_message_is_wrapped in Hc.
  exists st', os. split_and!; [exact Hc | done | counted Hms ..].
Qed.

(** X13: when the body of an answer that is not retried (its status is
    not 429, or no retry is left) cannot be parsed, [extract] fails with
    the failure of the parser, raised the way the [catch] clause of
    [extract] raises any failure; whether the status is a success or an
    error plays no part, so the messages of [handleError] are lost. *)
Theorem unparsable_body_hides_the_status o st r e :
  isolated st -> parses_as_url world (url o) = true -> signal o = None ->
  in_time cfg (transport world (fetchCalls st)) r ->
  (status r =? 429) && (0 <? maxRetries (retryOptions cfg)) = false ->
  json r = JsonFailure (ThrownError e) ->
  exists st' os,
    converges (fun f => extract cfg world f o) st st'
      (Raise (if (message e =? "Request timed out")%string then ThrownError e
              else ThrownError (newError ("Failed to extract data: " +:+ message e)))) /\
    trace st' = trace st ++ os /\
    fetches os = 1%nat /\
    emitted "extract:error" os = 1%nat /\ emitted "extract:complete" os = 0%nat.
Proof.
  intros Hi Hurl Hsig Hin Hcond Hj.
  destruct (extract_starts o st Hi) as (s0 & os0 & Hc0 & Hi0 & Hr0 & Hm0 & Hn0).
  destruct (retry_step_done cfg world o 0 s0 r Hi0 Hcond) as (s1 & os1 & Hc1 & Hi1 & Hr1 & Hm1 & _).
  { apply attempt_in_time; [done | by rewrite Hn0]. }
  pose proof (extract_try_unparsable s0 s1 o r _ Hc1 Hj) as Hc2.
  destruct (extract_fails_after o st s0 s1 os0 os1 _ _ Hurl Hc0 Hr0 Hm0 Hi1 Hr1 Hm1 Hc2)
    as (st' & os & Hc & Ht & Hms).
  exists st', os. split_and!; [exact Hc | done | counted Hms ..].
Qed.

(** X14: a failure of the transport that is an [Error] whose message has
    none of the three markers is not retried, however many retries are
    left: one attempt, [request:error] and [extract:error] once each, no
    [request:retry], no wait. *)
Theorem unmarked_failure_is_not_retried o st e :
  isolated st -> parses_as_url world (url o) = true -> signal o = None ->
  fails_in_time cfg (transport world (fetchCalls st)) (ThrownError e) ->
  (name e =? "AbortError")%string = false ->
  (includes "network" (message e) || includes "timeout" (message e)
   || includes "ECONNRESET" (message e)) = false ->
  exists st' os,
    converges (fun f => extract cfg world f o) st st' (Raise (reraised (ThrownError e))) /\
    trace st' = trace st ++ os /\
    fetches os = 1%nat /\ emitted "request:error" os = 1%nat /\
    emitted "request:retry" os = 0%nat /\ backoffs os = [] /\
    emitted "extract:error" os = 1%nat.
Proof.
  intros Hi Hurl Hsig Hin Hname Hretry.
  destruct (extract_starts o st Hi) as (s0 & os0 & Hc0 & Hi0 & Hr0 & Hm0 & Hn0).
  destruct (retry_step_error cfg world o 0 s0 e Hi0) as (s1 & os1 & Hi1 & Hr1 & Hcase & _).
  { rewrite (attempt_fails_in_time o _ _ (ThrownError e)); [|done | by rewrite Hn0].
    simpl. by rewrite Hname. }
  unfold isRetryableError in Hcase. rewrite Hretry, andb_false_r in Hcase.
  destruct Hcase as [Hm1 Hc1].
  assert (converges (fun f => extract_try cfg world f o) s0 s1 (Raise (ThrownError e))) as Hc2
    by (by apply converges_bind_raise).
  destruct (extract_fails_after o st s0 s1 os0 os1 _ _ Hurl Hc0 Hr0 Hm0 Hi1 Hr1 Hm1 Hc2)
    as (st' & os & Hc & Ht & Hms).
  exists st', os. split_and!; [exact Hc | done | counted Hms ..].
Qed.

(** X15: a failure of the transport that is not an [Error] is never retried
    and no event reports it: one attempt, neither [request:error] nor
    [extract:error], and [extract] raises "Failed to extract data: Unknown
    error". *)
Theorem thrown_value_is_reported_by_no_event o st v :
  isolated st -> parses_as_url world (url o) = true -> signal o = None ->
  fails_in_time cfg (transport world (fetchCalls st)) (ThrownValue v) ->
  exists st' os,
    converges (fun f => extract cfg world f o) st st'
      (Raise (ThrownError (newError "Failed to extract data: Unknown error"))) /\
    trace st' = trace st ++ os /\
    fetches os = 1%nat /\ emitted "request:error" os = 0%nat /\
    emitted "request:retry" os = 0%nat /\ emitted "extract:error" os = 0%nat.
Proof.
  intros Hi Hurl Hsig Hin.
  destruct (extract_starts o st Hi) as (s0 & os0 & Hc0 & Hi0 & Hr0 & Hm0 & Hn0).
  destruct (retry_step_value cfg world o 0 s0 v Hi0) as (s1 & os1 & Hc1 & Hi1 & Hr1 & Hm1).
  { rewrite (attempt_fails_in_time o _ _ (ThrownValue v)); [done | done | by rewrite Hn0]. }
  assert (converges (fun f => extract_try cfg world f o) s0 s1 (Raise (ThrownValue v))) as Hc2
    by (by apply converges_bind_raise).
  destruct (extract_fails_after o st s0 s1 os0 os1 _ _ Hurl Hc0 Hr0 Hm0 Hi1 Hr1 Hm1 Hc2)
    as (st' & os & Hc & Ht & Hms).
  exists st', os. split_and!; [exact Hc | done | counted Hms ..].
Qed.

(** The retry controller against a transport that always answers 429. *)
Lemma rate_limited_run o k : forall rc st,
  isolated st -> signal o = None -> Z.of_nat k = Z.max 0 (maxRetries (retryOptions cfg) - rc) ->
  (forall n, (fetchCalls st <= n)%nat -> rate_limited cfg (transport world n)) ->
  exists st' os r payload,
    converges (fun f => retryableRequest cfg f (requestFn cfg world o) rc) st st' (Ok r) /\
    status r = 429 /\ json r = JsonBody payload /\
    isolated st' /\ run_of st st' os /\
    fetches os = S k /\ emitted "rateLimit" os = k /\ emitted "request:retry" os = k /\
    emitted "request:error" os = 0%nat /\ emitted "extract:error" os = 0%nat /\
    backoffs os = (fun i => backoffDelay cfg (rc + Z.of_nat i)) <$> seq 0 k /\
    exists ts, fetch_times os = gate_time st :: ts /\
               spaced cfg world rc (fetchCalls st) (gate_time st :: ts).
Proof.
  induction k as [|k IH]; intros rc st Hi Hsig Hrc Hall.
  - destruct (Hall (fetchCalls st) (Nat.le_refl _)) as (r & payload & Hin & Hs & Hj).
    destruct (retry_step_done cfg world o rc st r Hi) as (st1 & os & Hc & Hi1 & Hr & Hm & _).
    { replace (rc <? maxRetries (retryOptions cfg)) with false; [by rewrite andb_false_r|].
      symmetry. apply Z.ltb_ge. lia. }
    { by apply attempt_in_time. }
    exists st1, os, r, payload. split_and!; try done; try counted Hm.
    exists []. split; [by rewrite <- fetch_times_milestones, Hm | apply spaced_single].
  - destruct (Hall (fetchCalls st) (Nat.le_refl _)) as (r & payload & Hin & Hs & Hj).
    destruct (retry_step_429 cfg world o rc st r Hi Hs)
      as (st1 & os1 & Hi1 & Hr1 & Hm1 & Hnext & Hlast1 & Hnow1).
    { lia. }
    { by apply attempt_in_time. }
    rewrite (attempt_end_in_time cfg world o _ _ r Hsig Hin) in Hnow1.
    pose proof (next_attempt_time st st1 rc Hlast1 Hnow1) as Hg1.
    assert (fetchCalls st1 = S (fetchCalls st)) as Hn1.
    { rewrite (run_fetch _ _ _ Hr1), <- fetches_milestones, Hm1. unfold fetches. simpl. lia. }
    destruct (IH (rc + 1) st1 Hi1 Hsig)
      as (st2 & os2 & r' & payload' & Hc & Hs' & Hj' & Hi2 & Hr2 & Hf & He1 & He2 & He3 & He4 & Hb
          & ts & Hts & Hsp).
    { lia. }
    { intros n Hn. apply Hall. lia. }
    exists st2, (os1 ++ os2), r', payload'. split_and!; try done.
    + by apply Hnext.
    + by eapply run_of_trans.
    + rewrite fetches_app, Hf, <- fetches_milestones, Hm1. done.
    + rewrite emitted_app, He1, <- emitted_milestones, Hm1 by done. done.
    + rewrite emitted_app, He2, <- emitted_milestones, Hm1 by done. done.
    + rewrite emitted_app, He3, <- emitted_milestones, Hm1 by done. done.
    + rewrite emitted_app, He4, <- emitted_milestones, Hm1 by done. done.
    + rewrite backoffs_app, Hb, <- backoffs_milestones, Hm1.
      apply (waits_shift (backoffDelay cfg)).
    + exists (gate_time st1 :: ts). split.
      * rewrite fetch_times_app, Hts, <- fetch_times_milestones, Hm1. done.
      * apply spaced_cons; [done | by rewrite <- Hn1].
Qed.

(** X16: against a transport that always answers 429 with a body that
    parses, and for every retry policy (a negative [maxRetries] counts as
    none), [rateLimit] and [request:retry] are emitted once per retry, and
    the delay handed to the timer before retry [n] (from 0) is
    [initialDelay * backoffFactor ^ n].  The first attempt starts when the
    rate limiter lets it through; every retry starts when the answer before
    it has arrived and that delay, as the timer takes it, has passed, but no
    earlier than [minRequestInterval] after the attempt before it started. *)
Theorem rate_limited_run_waits_exponentially o st :
  isolated st -> parses_as_url world (url o) = true -> signal o = None ->
  (forall n, (fetchCalls st <= n)%nat -> rate_limited cfg (transport world n)) ->
  exists st' os,
    converges (fun f => extract cfg world f o) st st'
      (Raise (ThrownError (newError
         "Failed to extract data: Rate limit exceeded. Please try again later."))) /\
    trace st' = trace st ++ os /\
    fetches os = S (Z.to_nat (maxRetries (retryOptions cfg))) /\
    emitted "rateLimit" os = Z.to_nat (maxRetries (retryOptions cfg)) /\
    emitted "request:retry" os = Z.to_nat (maxRetries (retryOptions cfg)) /\
    backoffs os =
      (fun n => initialDelay (retryOptions cfg) * backoffFactor (retryOptions cfg) ^ Z.of_nat n)
        <$> seq 0 (Z.to_nat (maxRetries (retryOptions cfg))) /\
    head (fetch_times os) = Some (gate_time st) /\
    spaced cfg world 0 (fetchCalls st) (fetch_times os).
Proof.
  intros Hi Hurl Hsig Hall.
  destruct (extract_starts o st Hi) as (s0 & os0 & Hc0 & Hi0 & Hr0 & Hm0 & Hn0).
  destruct (emit_isolated_clock _ _ _ _ _ _ Hi Hc0) as [Hnow0 Hlast0].
  pose proof (gate_time_same _ _ Hnow0 Hlast0) as Hg0.
  destruct (rate_limited_run o (Z.to_nat (maxRetries (retryOptions cfg))) 0 s0 Hi0 Hsig)
    as (s1 & os1 & r & payload & Hc1 & Hs & Hj & Hi1 & Hr1 & Hf & He1 & He2 & _ & _ & Hb
        & ts & Hts & Hsp).
  { lia. }
  { intros n Hn. apply Hall. lia. }
  rewrite Hg0 in Hts, Hsp. rewrite Hn0 in Hsp.
  pose proof (extract_try_rate_limited cfg world s0 s1 o r payload Hc1 Hs Hj) as Hc2.
  destruct (extract_reraises cfg world o st s0 s1 _ Hi1 Hurl Hc0 Hc2) as (s2 & os2 & Hc3 & Hi2 & Hr2 & Hm2).
  assert (fetch_times (os0 ++ os1 ++ os2) = gate_time st :: ts) as Htimes.
  { rewrite !fetch_times_app, Hts, <- (fetch_times_milestones os0),
      <- (fetch_times_milestones os2), Hm0, Hm2. simpl. by rewrite app_nil_r. }
  exists s2, (os0 ++ os1 ++ os2). split_and!.
  - exact Hc3.
  - eapply run_trace. repeat (eapply run_of_trans; [eassumption|]). done.
  - rewrite !fetches_app, Hf, <- (fetches_milestones os0), <- (fetches_milestones os2), Hm0, Hm2.
    unfold fetches. simpl. lia.
  - rewrite !emitted_app, He1, <- (emitted_milestones _ os0), <- (emitted_milestones _ os2), Hm0, Hm2 by done.
    unfold emitted. simpl. lia.
  - rewrite !emitted_app, He2, <- (emitted_milestones _ os0), <- (emitted_milestones _ os2), Hm0, Hm2 by done.
    unfold emitted. simpl. lia.
  - rewrite !backoffs_app, Hb, <- (backoffs_milestones os0), <- (backoffs_milestones os2), Hm0, Hm2.
    simpl. rewrite app_nil_r. apply list_fmap_ext. intros i x _. unfold backoffDelay. f_equal.
  - by rewrite Htimes.
  - by rewrite Htimes.
Qed.

(** The retry controller against a transport that always fails with a
    failure that counts as retryable. *)
Lemma failing_run o e k : forall rc st,
  isolated st -> signal o = None ->
  (name e =? "AbortError")%string = false -> isRetryableError (ThrownError e) = true ->
  Z.of_nat k = Z.max 0 (maxRetries (retryOptions cfg) - rc) ->
  (forall n, (fetchCalls st <= n)%nat -> fails_in_time cfg (transport world n) (ThrownError e)) ->
  exists st' os,
    converges (fun f => retryableRequest cfg f (requestFn cfg world o) rc) st st'
              (Raise (ThrownError e)) /\
    isolated st' /\ run_of st st' os /\
    fetches os = S k /\ emitted "request:error" os = S k /\ emitted "request:retry" os = k /\
    emitted "rateLimit" os = 0%nat /\ emitted "extract:error" os = 0%nat /\
    backoffs os = (fun i => backoffDelay cfg (rc + Z.of_nat i)) <$> seq 0 k /\
    exists ts, fetch_times os = gate_time st :: ts /\
               spaced cfg world rc (fetchCalls st) (gate_time st :: ts).
Proof.
  induction k as [|k IH]; intros rc st Hi Hsig Hname Hretry Hrc Hall.
  - destruct (retry_step_error cfg world o rc st e Hi) as (st1 & os & Hi1 & Hr & Hcase & _).
    { rewrite (attempt_fails_in_time o _ _ (ThrownError e)); [|done | by apply Hall].
      simpl. by rewrite Hname. }
    replace (rc <? maxRetries (retryOptions cfg)) with false in Hcase
      by (symmetry; apply Z.ltb_ge; lia).
    simpl in Hcase. destruct Hcase as [Hm Hc].
    exists st1, os. split_and!; try done; try counted Hm.
    exists []. split; [by rewrite <- fetch_times_milestones, Hm | apply spaced_single].
  - destruct (retry_step_error cfg world o rc st e Hi)
      as (st1 & os1 & Hi1 & Hr1 & Hcase & Hlast1 & Hnow1).
    { rewrite (attempt_fails_in_time o _ _ (ThrownError e)); [|done | by apply Hall].
      simpl. by rewrite Hname. }
    replace (rc <? maxRetries (retryOptions cfg)) with true in Hcase, Hnow1
      by (symmetry; apply Z.ltb_lt; lia).
    rewrite Hretry in Hcase, Hnow1. simpl in Hcase, Hnow1. destruct Hcase as [Hm1 Hnext].
    rewrite (attempt_end_fails_in_time o _ _ (ThrownError e) Hsig) in Hnow1 by (by apply Hall).
    pose proof (next_attempt_time st st1 rc Hlast1 Hnow1) as Hg1.
    assert (fetchCalls st1 = S (fetchCalls st)) as Hn1.
    { rewrite (run_fetch _ _ _ Hr1), <- fetches_milestones, Hm1. unfold fetches. simpl. lia. }
    destruct (IH (rc + 1) st1 Hi1 Hsig Hname Hretry)
      as (st2 & os2 & Hc & Hi2 & Hr2 & Hf & He1 & He2 & He3 & He4 & Hb & ts & Hts & Hsp).
    { lia. }
    { intros n Hn. apply Hall. lia. }
    exists st2, (os1 ++ os2). split_and!; try done.
    + by apply Hnext.
    + by eapply run_of_trans.
    + rewrite fetches_app, Hf, <- fetches_milestones, Hm1. done.
    + rewrite emitted_app, He1, <- emitted_milestones, Hm1 by done. done.
    + rewrite emitted_app, He2, <- emitted_milestones, Hm1 by done. done.
    + rewrite emitted_app, He3, <- emitted_milestones, Hm1 by done. done.
    + rewrite emitted_app, He4, <- emitted_milestones, Hm1 by done. done.
    + rewrite backoffs_app, Hb, <- backoffs_milestones, Hm1.
      apply (waits_shift (backoffDelay cfg)).
    + exists (gate_time st1 :: ts). split.
      * rewrite fetch_times_app, Hts, <- fetch_times_milestones, Hm1. done.
      * apply spaced_cons; [done | by rewrite <- Hn1].
Qed.

(** X17: a failure of the transport whose message has one of the markers
    "network", "timeout", "ECONNRESET" is retried until the retries are
    used up: [maxRetries + 1] attempts, [request:error] after each of them,
    [request:retry] and a wait before each retry, then [extract:error] once
    and the failure under the prefix of [extract].  The delay handed to the
    timer before retry [n] is [initialDelay * backoffFactor ^ n]; every
    retry starts when the attempt before it has failed and that delay, as
    the timer takes it, has passed, but no earlier than
    [minRequestInterval] after the attempt before it started. *)
Theorem marked_failure_is_retried_to_exhaustion o st e :
  isolated st -> parses_as_url world (url o) = true -> signal o = None ->
  (name e =? "AbortError")%string = false ->
  (includes "network" (message e) || includes "timeout" (message e)
   || includes "ECONNRESET" (message e)) = true ->
  (forall n, (fetchCalls st <= n)%nat -> fails_in_time cfg (transport world n) (ThrownError e)) ->
  exists st' os,
    converges (fun f => extract cfg world f o) st st'
      (Raise (ThrownError (newError ("Failed to extract data: " +:+ message e)))) /\
    trace st' = trace st ++ os /\
    fetches os = S (Z.to_nat (maxRetries (retryOptions cfg))) /\
    emitted "request:error" os = S (Z.to_nat (maxRetries (retryOptions cfg))) /\
    emitted "request:retry" os = Z.to_nat (maxRetries (retryOptions cfg)) /\
    backoffs os =
      (fun n => initialDelay (retryOptions cfg) * backoffFactor (retryOptions cfg) ^ Z.of_nat n)
        <$> seq 0 (Z.to_nat (maxRetries (retryOptions cfg))) /\
    emitted "extract:error" os = 1%nat /\
    head (fetch_times os) = Some (gate_time st) /\
    spaced cfg world 0 (fetchCalls st) (fetch_times os).
Proof.
  intros Hi Hurl Hsig Hname Hretry Hall.
  destruct (extract_starts o st Hi) as (s0 & os0 & Hc0 & Hi0 & Hr0 & Hm0 & Hn0).
  destruct (emit_isolated_clock _ _ _ _ _ _ Hi Hc0) as [Hnow0 Hlast0].
  pose proof (gate_time_same _ _ Hnow0 Hlast0) as Hg0.
  destruct (failing_run o e (Z.to_nat (maxRetries (retryOptions cfg))) 0 s0 Hi0 Hsig Hname Hretry)
    as (s1 & os1 & Hc1 & Hi1 & Hr1 & Hf & He1 & He2 & _ & He4 & Hb & ts & Hts & Hsp).
  { lia. }
  { intros n Hn. apply Hall. lia. }
  rewrite Hg0 in Hts, Hsp. rewrite Hn0 in Hsp.
  assert (converges (fun f => extract_try cfg world f o) s0 s1 (Raise (ThrownError e))) as Hc2
    by (by apply converges_bind_raise).
  destruct (extract_reraises cfg world o st s0 s1 _ Hi1 Hurl Hc0 Hc2) as (s2 & os2 & Hc3 & Hi2 & Hr2 & Hm2).
  unfold reraised in Hc3. rewrite (retryable_is_not_timed_out e Hretry) in Hc3.
  assert (fetch_times (os0 ++ os1 ++ os2) = gate_time st :: ts) as Htimes.
  { rewrite !fetch_times_app, Hts, <- (fetch_times_milestones os0),
      <- (fetch_times_milestones os2), Hm0, Hm2. simpl. by rewrite app_nil_r. }
  exists s2, (os0 ++ os1 ++ os2). split_and!.
  - exact Hc3.
  - eapply run_trace. repeat (eapply run_of_trans; [eassumption|]). done.
  - rewrite !fetches_app, Hf, <- (fetches_milestones os0), <- (fetches_milestones os2), Hm0, Hm2.
    unfold fetches. simpl. lia.
  - rewrite !emitted_app, He1, <- (emitted_milestones _ os0), <- (emitted_milestones _ os2), Hm0, Hm2 by done.
    unfold emitted. simpl. lia.
  - rewrite !emitted_app, He2, <- (emitted_milestones _ os0), <- (emitted_milestones _ os2), Hm0, Hm2 by done.
    unfold emitted. simpl. lia.
  - rewrite !backoffs_app, Hb, <- (backoffs_milestones os0), <- (backoffs_milestones os2), Hm0, Hm2.
    simpl. rewrite app_nil_r. apply list_fmap_ext. intros i x _. unfold backoffDelay. f_equal.
  - rewrite !emitted_app, He4, <- (emitted_milestones _ os0), <- (emitted_milestones _ os2), Hm0, Hm2 by done.
    done.
  - by rewrite Htimes.
  - by rewrite Htimes.
Qed.

(** Every pass of the retry controller calls the transport once, with the
    same request; every pass but the last announces a retry and waits. *)
Lemma retryableRequest_run o k : forall rc st,
  isolated st -> (Z.to_nat (maxRetries (retryOptions cfg) - rc) <= k)%nat ->
  exists st' r os,
    converges (fun f => retryableRequest cfg f (requestFn cfg world o) rc) st st' r /\
    isolated st' /\ run_of st st' os /\
    Forall (sends (baseUrl cfg +:+ "/extract") (requestBody cfg o)) os /\
    (fetches os <= S k)%nat /\
    fetches os = S (emitted "request:retry" os) /\
    length (backoffs os) = emitted "request:retry" os /\
    (emitted "rateLimit" os <= emitted "request:retry" os)%nat /\
    emitted "timeout" os = 0%nat /\ emitted "extract:start" os = 0%nat /\
    emitted "extract:complete" os = 0%nat /\ emitted "extract:error" os = 0%nat.
Proof.
  induction k as [|k IH]; intros rc st Hi Hk.
  - assert ((rc <? maxRetries (retryOptions cfg)) = false) as Hrc by (apply Z.ltb_ge; lia).
    destruct (attempt cfg world (requestInit cfg o) (gate_time st) (fetchCalls st))
      as [r | [e | v]] eqn:Hatt.
    + destruct (retry_step_done cfg world o rc st r Hi) as (st1 & os & Hc & Hi1 & Hr & Hm & _);
        [by rewrite Hrc, andb_false_r | done |].
      tally os Hm. exists st1, (Ok r), os. split_and!; try done; first [lia | posted Hm].
    + destruct (retry_step_error cfg world o rc st e Hi Hatt) as (st1 & os & Hi1 & Hr & Hcase & _).
      rewrite Hrc in Hcase. simpl in Hcase. destruct Hcase as [Hm Hc].
      tally os Hm. exists st1, (Raise (ThrownError e)), os.
      split_and!; try done; first [lia | posted Hm].
    + destruct (retry_step_value cfg world o rc st v Hi Hatt) as (st1 & os & Hc & Hi1 & Hr & Hm).
      tally os Hm. exists st1, (Raise (ThrownValue v)), os.
      split_and!; try done; first [lia | posted Hm].
  - destruct (attempt cfg world (requestInit cfg o) (gate_time st) (fetchCalls st))
      as [r | [e | v]] eqn:Hatt.
    + destruct ((status r =? 429) && (rc <? maxRetries (retryOptions cfg))) eqn:Hcond.
      * apply andb_true_iff in Hcond as [Hs Hrc]. apply Z.eqb_eq in Hs. apply Z.ltb_lt in Hrc.
        destruct (retry_step_429 cfg world o rc st r Hi Hs Hrc Hatt)
          as (st1 & os1 & Hi1 & Hr1 & Hm1 & Hnext & _).
        destruct (IH (rc + 1) st1 Hi1) as (st2 & res & os2 & Hc2 & Hi2 & Hr2 & Hsend & Hinv); [lia|].
        tally os1 Hm1.
        exists st2, res, (os1 ++ os2).
        split_and!; [by apply Hnext | done | by eapply run_of_trans
                    | apply Forall_app; split; [posted Hm1 | done] | tallied ..].
      * destruct (retry_step_done cfg world o rc st r Hi Hcond Hatt) as (st1 & os & Hc & Hi1 & Hr & Hm & _).
        tally os Hm. exists st1, (Ok r), os. split_and!; try done; first [lia | posted Hm].
    + destruct (retry_step_error cfg world o rc st e Hi Hatt) as (st1 & os1 & Hi1 & Hr1 & Hcase & _).
      destruct ((rc <? maxRetries (retryOptions cfg)) && isRetryableError (ThrownError e)) eqn:Hcond.
      * destruct Hcase as [Hm1 Hnext]. apply andb_true_iff in Hcond as [Hrc _]. apply Z.ltb_lt in Hrc.
        destruct (IH (rc + 1) st1 Hi1) as (st2 & res & os2 & Hc2 & Hi2 & Hr2 & Hsend & Hinv); [lia|].
        tally os1 Hm1.
        exists st2, res, (os1 ++ os2).
        split_and!; [by apply Hnext | done | by eapply run_of_trans
                    | apply Forall_app; split; [posted Hm1 | done] | tallied ..].
      * destruct Hcase as [Hm1 Hc]. tally os1 Hm1.
        exists st1, (Raise (ThrownError e)), os1. split_and!; try done; first [lia | posted Hm1].
    + destruct (retry_step_value cfg world o rc st v Hi Hatt) as (st1 & os & Hc & Hi1 & Hr & Hm).
      tally os Hm. exists st1, (Raise (ThrownValue v)), os.
      split_and!; try done; first [lia | posted Hm].
Qed.

(** After an answer the [try] block of [extract] either fails at once or
    goes on to [extract:complete]. *)
Lemma extract_try_after_answer o st s1 r :
  converges (fun f => retryableRequest cfg f (requestFn cfg world o) 0) st s1 (Ok r) ->
  (exists t, converges (fun f => extract_try cfg world f o) st s1 (Raise t)) \/
  (exists payload row rows,
     ok r = true /\ json r = JsonBody payload /\ resp_data payload = Some (row :: rows)).
Proof.
  intros Hc.
  destruct (json r) as [payload | t] eqn:Ej;
    [|left; exists t; by apply (extract_try_unparsable st s1 o r)].
  destruct (ok r) eqn:Eok; cycle 1.
  { left. destruct (decide (status r = 429)) as [Hs | Hs]; eexists.
    - by apply (extract_try_rate_limited cfg world st s1 o r payload).
    - by apply (extract_try_http_error st s1 o r payload). }
  destruct (resp_data payload) as [[|row rows]|] eqn:Ed.
  - left. eexists. apply (extract_try_no_data st s1 o r payload); try done. by rewrite Ed.
  - right. by exists payload, row, rows.
  - left. eexists. apply (extract_try_no_data st s1 o r payload); try done. by rewrite Ed.
Qed.

(** The [try] block of [extract], whatever the network does. *)
Lemma extract_try_run o st :
  isolated st ->
  exists st' r os,
    converges (fun f => extract_try cfg world f o) st st' r /\
    isolated st' /\ run_of st st' os /\
    Forall (sends (baseUrl cfg +:+ "/extract") (requestBody cfg o)) os /\
    (fetches os <= S (Z.to_nat (maxRetries (retryOptions cfg))))%nat /\
    fetches os = S (emitted "request:retry" os) /\
    length (backoffs os) = emitted "request:retry" os /\
    (emitted "rateLimit" os <= emitted "request:retry" os)%nat /\
    emitted "timeout" os = 0%nat /\ emitted "extract:start" os = 0%nat /\
    emitted "extract:error" os = 0%nat /\
    match r with
    | Ok rows => rows <> [] /\ emitted "extract:complete" os = 1%nat
    | Raise _ => emitted "extract:complete" os = 0%nat
    end.
Proof.
  intros Hi.
  destruct (retryableRequest_run o _ 0 st Hi (Nat.le_refl _))
    as (s1 & r1 & os1 & Hc1 & Hi1 & Hr1 & Hsend & Hbudget & Hinv).
  rewrite Z.sub_0_r in Hbudget.
  destruct r1 as [response | t].
  - destruct (extract_try_after_answer o st s1 response Hc1)
      as [[t Ht] | (payload & row & rows & Hok & Hj & Hd)].
    + exists s1, (Raise t), os1. split_and!; try done; lia.
    + destruct (extract_try_success cfg world st s1 o response payload row rows Hi1 Hc1 Hok Hj Hd)
        as (s2 & os2 & Hc2 & Hi2 & Hr2 & Hm2).
      tally os2 Hm2.
      exists s2, (Ok (row :: rows)), (os1 ++ os2).
      split_and!; [done | done | by eapply run_of_trans
                  | apply Forall_app; split; [done | posted Hm2] | tallied .. | done | tallied].
  - exists s1, (Raise t), os1.
    split_and!; try done; try lia. by apply converges_bind_raise.
Qed.

(** A call of [extract], whatever the request and the network. *)
Lemma extract_run o st :
  isolated st ->
  exists st' r os,
    converges (fun f => extract cfg world f o) st st' r /\
    isolated st' /\ run_of st st' os /\
    Forall (sends (baseUrl cfg +:+ "/extract") (requestBody cfg o)) os /\
    (fetches os <= S (Z.to_nat (maxRetries (retryOptions cfg))))%nat /\
    (if parses_as_url world (url o) then fetches os = S (emitted "request:retry" os)
     else fetches os = 0%nat) /\
    length (backoffs os) = emitted "request:retry" os /\
    (emitted "rateLimit" os <= emitted "request:retry" os)%nat /\
    emitted "timeout" os = 0%nat /\ emitted "extract:start" os = 1%nat /\
    match r with
    | Ok rows =>
        rows <> [] /\ emitted "extract:complete" os = 1%nat /\ emitted "extract:error" os = 0%nat
    | Raise t =>
        extract_failure t /\
        emitted "extract:complete" os = 0%nat /\ (emitted "extract:error" os <= 1)%nat
    end.
Proof.
  intros Hi.
  destruct (extract_starts o st Hi) as (s0 & os0 & Hc0 & Hi0 & Hr0 & Hm0 & Hn0).
  tally os0 Hm0.
  destruct (parses_as_url world (url o)) eqn:Hurl; cycle 1.
  { exists s0, (Raise (ThrownError (newError "Invalid URL format"))), os0.
    split_and!; try done; try lia.
    - unfold extract. eapply converges_bind; [exact Hc0|]. cbv beta.
      apply converges_bind_raise. unfold validateUrl. rewrite Hurl. apply converges_throw.
    - posted Hm0.
    - by left. }
  destruct (extract_try_run o s0 Hi0) as (s1 & r & os1 & Hc1 & Hi1 & Hr1 & Hsend & Hinv).
  destruct r as [rows | t].
  - exists s1, (Ok rows), (os0 ++ os1).
    split_and!; [by eapply extract_returns | done | by eapply run_of_trans
                | apply Forall_app; split; [posted Hm0 | done]
                | tallied .. | | tallied | tallied].
    apply Hinv.
  - destruct (extract_reraises cfg world o st s0 s1 t Hi1 Hurl Hc0 Hc1)
      as (s2 & os2 & Hc2 & Hi2 & Hr2 & Hm2).
    exists s2, (Raise (reraised t)), (os0 ++ os1 ++ os2).
    destruct t as [e | v]; tally os2 Hm2;
      (split_and!; [done | done | repeat (eapply run_of_trans; [eassumption|]); done
                   | repeat (apply Forall_app; split); [posted Hm0 | done | posted Hm2]
                   | tallied .. | apply reraised_extract_failure | tallied | tallied]).
Qed.

(** X18: a call of [extract] calls the transport at most [maxRetries + 1]
    times (once when [maxRetries] is negative) and ends in one of two ways:
    it returns a non-empty list of rows, after one [extract:complete] and
    no [extract:error], or it raises an [Error] whose message is "Invalid
    URL format", "Request timed out" or begins with "Failed to extract
    data: ", after at most one [extract:error] and no [extract:complete];
    it never raises a value that is not an [Error].  (Here [maxRetries] is
    an integer and the body of an answer is read, or fails to be read, at
    once.) *)
Theorem extract_ends_in_rows_or_an_error o st :
  isolated st ->
  exists st' r os,
    converges (fun f => extract cfg world f o) st st' r /\
    trace st' = trace st ++ os /\
    (fetches os <= S (Z.to_nat (maxRetries (retryOptions cfg))))%nat /\
    match r with
    | Ok rows =>
        rows <> [] /\ emitted "extract:complete" os = 1%nat /\ emitted "extract:error" os = 0%nat
    | Raise (ThrownError e) =>
        (message e = "Invalid URL format" \/ message e = "Request timed out" \/
         String.prefix "Failed to extract data: " (message e) = true) /\
        emitted "extract:complete" os = 0%nat /\ (emitted "extract:error" os <= 1)%nat
    | Raise (ThrownValue _) => False
    end.
Proof.
  intros Hi.
  destruct (extract_run o st Hi) as (st' & r & os & Hc & _ & Hr & _ & Hb & _ & _ & _ & _ & _ & Hres).
  exists st', r, os. split_and!; [done | apply (run_trace _ _ _ Hr) | done |].
  destruct r as [rows | [e | v]]; [done | done |]. by destruct Hres as [[] _].
Qed.



End ClientOutcomes.

(** X21: [convertToAttributes] turns every entry of the record into one
    attribute with that name and that description, keeping all entries and
    their order; a request given as a record is sent with the same body as
    the request given as the corresponding array. *)
Theorem convertToAttributes_keeps_every_entry cfg entries u pc ck pm sg :
  (fun a => (attr_name a, attr_description a)) <$> convertToAttributes entries = entries /\
  requestBody cfg {| url := u; attributes := AttrRecord entries; proxyCountry := pc;
                     cookies := ck; precisionMode := pm; signal := sg |}
  = requestBody cfg {| url := u; attributes := AttrArray (convertToAttributes entries);
                       proxyCountry := pc; cookies := ck; precisionMode := pm; signal := sg |}.
Proof.
  split; [|done]. unfold convertToAttributes.
  induction entries as [|[n d] entries IH]; [done|]. simpl. f_equal. exact IH.
Qed.

(** ** The statements at concrete inputs *)

Lemma isolated_observed : isolated observed.
Proof. apply quiet_isolated, quiet_observed. Qed.

Lemma isolated_fresh : isolated fresh.
Proof. apply quiet_isolated, quiet_new_State. Qed.

Lemma isolated_just_requested : isolated just_requested.
Proof. by apply (isolated_frame fresh); [| | | apply isolated_fresh]. Qed.

Lemma no_announcement_handlers st :
  eventHandlers st !! "handler:error" = None -> announces_quietly st.
Proof. intros H hs. by rewrite H. Qed.

Lemma answers_in_time latency r :
  Z.max 0 latency < timer_delay (timeout demo_cfg) -> in_time demo_cfg (Responds latency r) r.
Proof. intros H. by exists latency. Qed.

Lemma timeout_failure_is_never_retried_witness :
  isolated observed /\ aborted demo_cfg (transport silent_world (fetchCalls observed)) None /\
  exists st' os,
    converges (fun f => retryableRequest demo_cfg f
                          (requestFn demo_cfg silent_world demo_request) 0)
              observed st' (Raise (ThrownError TimeoutError)) /\
    trace st' = trace observed ++ os /\
    fetches os = 1%nat /\ emitted "request:retry" os = 0%nat /\ backoffs os = [].
Proof.
  assert (aborted demo_cfg (transport silent_world (fetchCalls observed)) None) as Ha.
  { intros start. reflexivity. }
  split; [apply quiet_isolated, quiet_observed|]. split; [exact Ha|].
  apply (timeout_failure_is_never_retried demo_cfg silent_world demo_request 0 observed
           (quiet_isolated _ quiet_observed) Ha).
Defined.

Lemma two_rate_limits_then_success_witness :
  exists st' os t1 t2 t3,
    converges (fun f => extract demo_cfg busy_twice_world f demo_request) lenient_rate_limit st'
              (Ok [[("title", "Test Title")]]) /\
    trace st' = trace lenient_rate_limit ++ os /\
    fetches os = 3%nat /\
    emitted "rateLimit" os = 2%nat /\ emitted "request:retry" os = 2%nat /\
    backoffs os = [1000; 2000] /\
    emitted "extract:complete" os = 1%nat /\
    t1 = 5000 /\ t2 = t1 + 20 + 1000 /\ t3 = t2 + 20 + 2000 /\ now st' = t3 + 20 /\
    fetch_times (milestones os) = [t1; t2; t3].
Proof.
  destruct (two_rate_limits_then_success demo_cfg busy_twice_world demo_request lenient_rate_limit
              rate_limit_response rate_limit_response rows_response
              {| resp_data := Some [[("title", "Test Title")]]; resp_message := None |}
              [("title", "Test Title")] [])
    as (st' & os & t1 & t2 & t3 & Hc & Ht & Hf & H1 & H2 & Hb & H3 & Ht1 & Ht2 & Ht3 & Hnow & Hms);
    try reflexivity.
  - apply isolated_lenient_rate_limit.
  - apply answers_in_time. reflexivity.
  - apply answers_in_time. reflexivity.
  - apply answers_in_time. reflexivity.
  - exists st', os, t1, t2, t3. repeat split; try assumption. rewrite Hms. reflexivity.
Defined.

Lemma always_rate_limited_gives_up_witness :
  exists st' os,
    converges (fun f => extract demo_cfg busy_world f demo_request) observed st'
      (Raise (ThrownError (newError
         "Failed to extract data: Rate limit exceeded. Please try again later."))) /\
    trace st' = trace observed ++ os /\
    Z.of_nat (fetches os) = 3 + 1 /\
    emitted "extract:error" os = 1%nat.
Proof.
  destruct (always_rate_limited_gives_up demo_cfg busy_world demo_request observed)
    as (st' & os & Hc & Ht & Hf & He & _).
  - simpl. lia.
  - apply quiet_isolated, quiet_observed.
  - reflexivity.
  - reflexivity.
  - intros n _. exists rate_limit_response, {| resp_data := None; resp_message := Some "Rate limit exceeded" |}.
    split; [|split; reflexivity]. apply answers_in_time. reflexivity.
  - exists st', os. repeat split; assumption.
Defined.

Lemma invalid_url_fails_before_any_attempt_witness :
  parses_as_url silent_world (url invalid_request) = false /\
  exists st' os,
    converges (fun f => extract demo_cfg silent_world f invalid_request) observed st'
              (Raise (ThrownError (newError "Invalid URL format"))) /\
    trace st' = trace observed
                ++ ObsEmit "extract:start" (Some (PayloadExtract invalid_request)) None :: os /\
    emitted "extract:start"
      (ObsEmit "extract:start" (Some (PayloadExtract invalid_request)) None :: os) = 1%nat /\
    emitted "extract:error" os = 0%nat /\
    fetches os = 0%nat /\ fetchCalls st' = fetchCalls observed.
Proof.
  split; [reflexivity|].
  apply (invalid_url_fails_before_any_attempt demo_cfg silent_world invalid_request observed).
  - apply quiet_isolated, quiet_observed.
  - reflexivity.
Defined.

Lemma failure_in_try_is_emitted_and_reraised_witness :
  exists s3 os,
    trace s3 = trace after_empty_answer ++ os /\
    converges (fun f => extract demo_cfg empty_world f demo_request) fresh s3
      (Raise (ThrownError (newError "Request timed out"))) /\
    emitted "extract:error" os = 1%nat /\
    ObsEmit "extract:error" None (Some (ThrownError (newError "Request timed out"))) ∈ os.
Proof.
  apply (failure_in_try_is_emitted_and_reraised demo_cfg empty_world demo_request fresh
           after_start after_empty_answer (ThrownError (newError "Request timed out"))).
  - apply quiet_isolated, quiet_new_State.
  - reflexivity.
  - apply (converges_of _ 5%nat); [apply steady_emit | vm_compute; reflexivity].
  - apply (converges_of _ 10%nat); [apply steady_extract_try | vm_compute; reflexivity].
Defined.

Lemma emission_awaits_all_started_handlers_witness :
  exists st' os,
    converges (fun f => emit f "extract:start" None None) mixed_observers st' (Ok tt) /\
    trace st' = trace mixed_observers ++ ObsEmit "extract:start" None None :: os /\
    started "extract:start" os = [3%nat; 1%nat] /\
    ObsHandlerEnd 1 "extract:start" ∈ os /\
    ObsEmit "handler:error" None (Some (ThrownError (newError "network logger is down"))) ∈ os.
Proof.
  destruct (emission_awaits_all_started_handlers "extract:start" None None mixed_observers
              [failing_observer; slow_observer])
    as (st' & os & Hc & Ht & Hs & Hd & _).
  - apply no_announcement_handlers. vm_compute. reflexivity.
  - constructor.
  - vm_compute. reflexivity.
  - vm_compute. reflexivity.
  - left. vm_compute. reflexivity.
  - exists st', os. split; [exact Hc|]. split; [exact Ht|]. split; [|split].
    + apply Hs. left. discriminate.
    + apply (Hd slow_observer). apply elem_of_cons. right. apply elem_of_cons. left. reflexivity.
    + apply (Hd failing_observer). apply elem_of_cons. left. reflexivity.
Defined.


Lemma handler_failure_is_announced_or_raised_witness :
  (exists st' os,
     converges (fun f => emit f "rateLimit" (Some (PayloadRetry 0)) None) lenient_rate_limit st'
               (Ok tt) /\
     trace st' = trace lenient_rate_limit ++ os /\
     ObsEmit "handler:error" None (Some (ThrownError (newError "network logger is down"))) ∈ os) /\
  (exists st' t',
     converges (fun f => emit f "rateLimit" (Some (PayloadRetry 0)) None) strict_rate_limit st'
               (Raise t') /\
     t' ∈ [ThrownError (newError "network logger is down")]).
Proof.
  split.
  - apply (handler_failure_is_announced_or_raised "rateLimit" (Some (PayloadRetry 0)) None
             lenient_rate_limit [failing_observer] failing_observer
             (ThrownError (newError "network logger is down"))).
    + intros hs H. vm_compute in H. injection H as <-. repeat constructor.
    + constructor.
    + vm_compute. reflexivity.
    + vm_compute. reflexivity.
    + apply elem_of_cons. by left.
    + reflexivity.
  - apply (handler_failure_is_announced_or_raised "rateLimit" (Some (PayloadRetry 0)) None
             strict_rate_limit [failing_observer] failing_observer
             (ThrownError (newError "network logger is down"))).
    + intros hs H. vm_compute in H. discriminate.
    + constructor.
    + vm_compute. reflexivity.
    + vm_compute. reflexivity.
    + apply elem_of_cons. by left.
    + reflexivity.
Defined.

Lemma answering_in_time r n : in_time demo_cfg (transport (answering r) n) r.
Proof. by exists 20. Qed.

Lemma failing_in_time t n : fails_in_time demo_cfg (transport (failing_with t) n) t.
Proof. by exists 20. Qed.

Lemma off_of_unregistered_handler_changes_nothing_witness :
  off "extract:start" failing_observer observed = observed.
Proof.
  apply off_of_unregistered_handler_changes_nothing.
  assert (hid <$> default [] (eventHandlers observed !! "extract:start") = [1; 2]%nat) as ->
    by (vm_compute; reflexivity).
  intros Hin. repeat (apply elem_of_cons in Hin as [Hin | Hin]; [discriminate|]).
  by apply elem_of_nil in Hin.
Defined.

Lemma removed_handler_is_never_started_witness :
  exists st' os,
    converges (fun f => emit f "extract:start" None None)
              (off "extract:start" slow_observer observed) st' (Ok tt) /\
    trace st' = trace observed ++ ObsEmit "extract:start" None None :: os /\
    started "extract:start" os = [2%nat] /\
    hid slow_observer ∉ started "extract:start" os.
Proof.
  destruct (removed_handler_is_never_started "extract:start" slow_observer None None observed
              quiet_observed) as (st' & os & Hc & Ht & Hs & Hn).
  exists st', os. split_and!; [done | done | | done].
  rewrite Hs. vm_compute. reflexivity.
Defined.

Lemma other_types_keep_their_listeners_witness :
  exists st' os,
    converges (fun f => emit f "extract:start" None None)
              (removeAllListeners (Some "extract:complete") observed) st' (Ok tt) /\
    trace st' = trace observed ++ ObsEmit "extract:start" None None :: os /\
    started "extract:start" os = [1; 2]%nat.
Proof.
  destruct (other_types_keep_their_listeners "extract:complete" "extract:start" None None observed
              quiet_observed) as (st' & os & Hc & Ht & Hs); [done | done |].
  exists st', os. split_and!; [done | done |].
  rewrite Hs. vm_compute. reflexivity.
Defined.

Lemma async_emission_never_fails_witness :
  exists st' os,
    converges (fun f => emit f "extract:complete" None None) detached_observers st' (Ok tt) /\
    trace st' = trace detached_observers ++ ObsEmit "extract:complete" None None :: os /\
    started "extract:complete" os = [3%nat; 1%nat].
Proof.
  apply (async_emission_never_fails "extract:complete" None None detached_observers).
  - apply no_announcement_handlers. vm_compute. reflexivity.
  - constructor.
  - vm_compute. reflexivity.
  - discriminate.
Defined.

Lemma rate_limiter_spaces_attempts_witness :
  lastRequestTime just_requested = 4970 /\ now just_requested = 5000 /\
  exists st' os,
    converges enforceRateLimit just_requested st' (Ok tt) /\
    trace st' = trace just_requested ++ os /\ fetches os = 0%nat /\
    now st' = 5070 /\
    lastRequestTime st' = now st'.
Proof.
  split; [reflexivity|]. split; [reflexivity|].
  apply (rate_limiter_spaces_attempts just_requested isolated_just_requested).
  simpl. lia.
Defined.

Lemma attempt_ends_by_its_deadline_witness :
  exists st' r os,
    converges (fun f => fetchWithTimeout demo_cfg silent_world f "https://api.parsera.org/v1/extract"
                          (requestInit demo_cfg cancelled_request)) observed st' r /\
    trace st' = trace observed ++ os /\
    fetches os = 1%nat /\ fetchCalls st' = S (fetchCalls observed) /\
    now observed <= now st' <= now observed + 1000 /\
    (1 <= 1000 -> now st' <= now observed + 1000).
Proof.
  apply (attempt_ends_by_its_deadline demo_cfg silent_world "https://api.parsera.org/v1/extract"
           (requestInit demo_cfg cancelled_request) observed isolated_observed).
Defined.

Lemma response_in_time_is_returned_unchanged_witness :
  exists st' os,
    converges (fun f => fetchWithTimeout demo_cfg (answering unauthorized_response) f
                          "https://api.parsera.org/v1/extract"
                          (requestInit demo_cfg demo_request)) observed st'
              (Ok unauthorized_response) /\
    trace st' = trace observed ++ os /\
    now st' = now observed + Z.max 0 20.
Proof.
  apply (response_in_time_is_returned_unchanged demo_cfg (answering unauthorized_response)
           "https://api.parsera.org/v1/extract" (requestInit demo_cfg demo_request) observed
           20 unauthorized_response isolated_observed).
  - reflexivity.
  - reflexivity.
  - intros s H. discriminate.
Defined.

Lemma first_answer_with_rows_is_returned_witness :
  exists st' os,
    converges (fun f => extract demo_cfg (answering rows_response) f demo_request) observed st'
              (Ok [[("title", "Test Title")]]) /\
    trace st' = trace observed ++ os /\
    milestones os =
      [ObsEmit "extract:start" (Some (PayloadExtract demo_request)) None;
       ObsFetch (fetchCalls observed) 5000 (baseUrl demo_cfg +:+ "/extract")
                (requestBody demo_cfg demo_request);
       ObsEmit "extract:complete"
         (Some (PayloadResponse {| resp_data := Some [[("title", "Test Title")]];
                                   resp_message := None |})) None] /\
    emitted "extract:error" os = 0%nat /\ emitted "request:error" os = 0%nat.
Proof.
  apply (first_answer_with_rows_is_returned demo_cfg (answering rows_response) demo_request
           observed rows_response
           {| resp_data := Some [[("title", "Test Title")]]; resp_message := None |}
           [("title", "Test Title")] [] isolated_observed);
    try reflexivity.
  apply answering_in_time.
Defined.

Lemma answer_without_rows_is_a_failure_witness :
  exists st' os,
    converges (fun f => extract demo_cfg (answering blank_response) f demo_request) observed st'
      (Raise (ThrownError (newError ("Failed to extract data: " +:+ noDataMessage)))) /\
    trace st' = trace observed ++ os /\
    fetches os = 1%nat /\
    emitted "extract:error" os = 1%nat /\ emitted "extract:complete" os = 0%nat.
Proof.
  apply (answer_without_rows_is_a_failure demo_cfg (answering blank_response) demo_request
           observed blank_response {| resp_data := Some []; resp_message := None |}
           isolated_observed);
    try reflexivity.
  apply answering_in_time.
Defined.

Lemma http_error_is_not_retried_witness :
  exists st' os,
    converges (fun f => extract demo_cfg (answering unauthorized_response) f demo_request)
      observed st'
      (Raise (ThrownError (newError
         "Failed to extract data: Invalid Parsera API key. Please check your credentials."))) /\
    trace st' = trace observed ++ os /\
    fetches os = 1%nat /\ emitted "request:retry" os = 0%nat /\ backoffs os = [] /\
    emitted "extract:error" os = 1%nat /\ emitted "extract:complete" os = 0%nat.
Proof.
  apply (http_error_is_not_retried demo_cfg (answering unauthorized_response) demo_request
           observed unauthorized_response
           {| resp_data := None; resp_message := Some "Invalid API key" |} isolated_observed);
    try reflexivity.
  - apply answering_in_time.
  - discriminate.
Defined.

Lemma unparsable_body_hides_the_status_witness :
  exists st' os,
    converges (fun f => extract demo_cfg (answering garbled_response) f demo_request) observed st'
      (Raise (ThrownError (newError "Failed to extract data: Unexpected token < in JSON"))) /\
    trace st' = trace observed ++ os /\
    fetches os = 1%nat /\
    emitted "extract:error" os = 1%nat /\ emitted "extract:complete" os = 0%nat.
Proof.
  apply (unparsable_body_hides_the_status demo_cfg (answering garbled_response) demo_request
           observed garbled_response (mkError "SyntaxError" "Unexpected token < in JSON")
           isolated_observed);
    try reflexivity.
  apply answering_in_time.
Defined.

Lemma unmarked_failure_is_not_retried_witness :
  exists st' os,
    converges (fun f => extract demo_cfg (failing_with (ThrownError fetch_failed)) f demo_request)
      observed st' (Raise (ThrownError (newError "Failed to extract data: fetch failed"))) /\
    trace st' = trace observed ++ os /\
    fetches os = 1%nat /\ emitted "request:error" os = 1%nat /\
    emitted "request:retry" os = 0%nat /\ backoffs os = [] /\
    emitted "extract:error" os = 1%nat.
Proof.
  apply (unmarked_failure_is_not_retried demo_cfg (failing_with (ThrownError fetch_failed))
           demo_request observed fetch_failed isolated_observed);
    try reflexivity.
  apply failing_in_time.
Defined.

Lemma thrown_value_is_reported_by_no_event_witness :
  exists st' os,
    converges (fun f => extract demo_cfg (failing_with (ThrownValue "boom")) f demo_request)
      observed st' (Raise (ThrownError (newError "Failed to extract data: Unknown error"))) /\
    trace st' = trace observed ++ os /\
    fetches os = 1%nat /\ emitted "request:error" os = 0%nat /\
    emitted "request:retry" os = 0%nat /\ emitted "extract:error" os = 0%nat.
Proof.
  apply (thrown_value_is_reported_by_no_event demo_cfg (failing_with (ThrownValue "boom"))
           demo_request observed "boom" isolated_observed);
    try reflexivity.
  apply failing_in_time.
Defined.

Lemma fetch_times_length os : length (fetch_times os) = fetches os.
Proof.
  unfold fetch_times, fetches.
  induction os as [|o os IH]; [done|].
  destruct o; simpl; try exact IH. f_equal. exact IH.
Qed.

(** Four attempts that are spaced as [spaced] says started at these
    instants. *)
Lemma spaced_four cfg world t0 ts :
  length ts = 4%nat -> head ts = Some t0 -> spaced cfg world 0 0 ts ->
  let next i t :=
    Z.max (t + latency_of (transport world i)
             + timer_delay (initialDelay (retryOptions cfg)
                            * backoffFactor (retryOptions cfg) ^ Z.of_nat i))
          (t + minRequestInterval) in
  ts = [t0; next 0%nat t0; next 1%nat (next 0%nat t0);
        next 2%nat (next 1%nat (next 0%nat t0))].
Proof.
  intros Hlen Hhead Hsp next.
  destruct ts as [|a [|b [|c [|d [|]]]]]; try discriminate.
  injection Hhead as ->.
  pose proof (Hsp 0%nat _ _ eq_refl eq_refl) as Hb.
  pose proof (Hsp 1%nat _ _ eq_refl eq_refl) as Hc.
  pose proof (Hsp 2%nat _ _ eq_refl eq_refl) as Hd.
  simpl in Hb, Hc, Hd. subst b c d. reflexivity.
Qed.

Lemma rate_limited_run_waits_exponentially_witness :
  exists st' os,
    converges (fun f => extract demo_cfg busy_world f demo_request) lenient_rate_limit st'
      (Raise (ThrownError (newError
         "Failed to extract data: Rate limit exceeded. Please try again later."))) /\
    trace st' = trace lenient_rate_limit ++ os /\
    fetches os = 4%nat /\ emitted "rateLimit" os = 3%nat /\ emitted "request:retry" os = 3%nat /\
    backoffs os = [1000; 2000; 4000] /\
    fetch_times os = [5000; 6020; 8040; 12060].
Proof.
  destruct (rate_limited_run_waits_exponentially demo_cfg busy_world demo_request
              lenient_rate_limit isolated_lenient_rate_limit)
    as (st' & os & Hc & Ht & Hf & H1 & H2 & Hb & Hhead & Hsp);
    try reflexivity.
  - intros n _. exists rate_limit_response,
      {| resp_data := None; resp_message := Some "Rate limit exceeded" |}.
    split; [|split; reflexivity]. apply answers_in_time. reflexivity.
  - exists st', os. repeat split; try assumption.
    apply (spaced_four demo_cfg busy_world 5000 (fetch_times os)); try assumption.
    rewrite fetch_times_length. exact Hf.
Defined.

Lemma marked_failure_is_retried_to_exhaustion_witness :
  exists st' os,
    converges (fun f => extract demo_cfg (failing_with (ThrownError connection_reset)) f
                          demo_request)
      observed st' (Raise (ThrownError (newError "Failed to extract data: read ECONNRESET"))) /\
    trace st' = trace observed ++ os /\
    fetches os = 4%nat /\ emitted "request:error" os = 4%nat /\
    emitted "request:retry" os = 3%nat /\ backoffs os = [1000; 2000; 4000] /\
    emitted "extract:error" os = 1%nat /\
    fetch_times os = [5000; 6020; 8040; 12060].
Proof.
  destruct (marked_failure_is_retried_to_exhaustion demo_cfg
              (failing_with (ThrownError connection_reset)) demo_request observed
              connection_reset isolated_observed)
    as (st' & os & Hc & Ht & Hf & H1 & H2 & Hb & H3 & Hhead & Hsp);
    try reflexivity.
  - intros n _. apply failing_in_time.
  - exists st', os. repeat split; try assumption.
    apply (spaced_four demo_cfg (failing_with (ThrownError connection_reset)) 5000
             (fetch_times os)); try assumption.
    rewrite fetch_times_length. exact Hf.
Defined.

Lemma extract_ends_in_rows_or_an_error_witness :
  exists st' r os,
    converges (fun f => extract demo_cfg silent_world f cancelled_request) observed st' r /\
    trace st' = trace observed ++ os /\
    (fetches os <= 4)%nat /\
    match r with
    | Ok rows =>
        rows <> [] /\ emitted "extract:complete" os = 1%nat /\ emitted "extract:error" os = 0%nat
    | Raise (ThrownError e) =>
        (message e = "Invalid URL format" \/ message e = "Request timed out" \/
         String.prefix "Failed to extract data: " (message e) = true) /\
        emitted "extract:complete" os = 0%nat /\ (emitted "extract:error" os <= 1)%nat
    | Raise (ThrownValue _) => False
    end.
Proof.
  apply (extract_ends_in_rows_or_an_error demo_cfg silent_world cancelled_request observed isolated_observed).
Defined.



Lemma synchronous_handlers_run_in_order_witness :
  exists st',
    emit 1 "request:retry" (Some (PayloadRetry 0)) None watching_retries = Some (st', Ok tt) /\
    trace st' =
      [ObsEmit "request:retry" (Some (PayloadRetry 0)) None;
       ObsHandlerStart 2 "request:retry"; ObsAct 2 "noted"; ObsHandlerEnd 2 "request:retry";
       ObsHandlerStart 4 "request:retry"; ObsAct 4 "counted"; ObsAct 4 "logged";
       ObsHandlerEnd 4 "request:retry"].
Proof.
  apply (synchronous_handlers_run_in_order 0 "request:retry" (Some (PayloadRetry 0)) None
           watching_retries [quick_observer; careful_observer]);
    [reflexivity | vm_compute; reflexivity | by repeat constructor].
Defined.
